(** * cpp-simple-vector: [ArrayPtr] and [SimpleVector]

    A shallow embedding of [array_ptr.h] and [simple_vector.h].

    - [size_t] values are integers in [0, 2^64) with the wrap-around
      written out ([wrap]); the one [int] of the source ([Resize]) is
      narrowed with [to_int].
    - The free store is a finite map from blocks to arrays; an element
      pointer is a block and an offset, or [nullptr].
    - Code that can throw or leave the defined behaviour of C++ runs in
      the monad [M]: a computation over the free store that returns a
      value, throws, or is undefined ([UB], which also stands for a
      failed [assert]).
    - An argument of type [const Type&] or [Type&&] is a [reference]:
      an object outside the free store, given by its value, or a cell
      of the free store, which is read where the source reads it.
    - Member functions take the object as [this] and give the updated
      object back; the two-reference member functions that test
      [this != &other] take a [refs2], which says whether the two
      references name one object or two. *)

From Stdlib Require Import ZArith Lia.
From stdpp Require Import base option list gmap.

Local Open Scope Z_scope.

(** ** Machine integers *)

Definition size_t_modulus : Z := 2 ^ 64.

(** Arithmetic on [size_t] is modulo [2^64]. *)
Definition wrap (z : Z) : Z := z mod size_t_modulus.

(** Conversion of a [size_t] to [int] (32 bits, two's complement). *)
Definition to_int (z : Z) : Z := (z + 2 ^ 31) mod 2 ^ 32 - 2 ^ 31.

(** Conversion of an [int] back to [size_t]. *)
Definition of_int (z : Z) : Z := wrap z.

(** ** Outcomes and the monad of the free store *)

Inductive exn := bad_alloc | out_of_range.

Inductive outcome (S A : Type) : Type :=
| Ok (a : A) (s : S)
| Throw (e : exn) (s : S)
| UB.
Arguments Ok {S A} a s.
Arguments Throw {S A} e s.
Arguments UB {S A}.

Definition M (S A : Type) : Type := S -> outcome S A.

Definition ret {S A} (a : A) : M S A := fun s => Ok a s.

Definition bind {S A B} (m : M S A) (k : A -> M S B) : M S B :=
  fun s => match m s with
           | Ok a s' => k a s'
           | Throw e s' => Throw e s'
           | UB => UB
           end.

Definition throw {S A} (e : exn) : M S A := fun s => Throw e s.

Definition undefined {S A} : M S A := fun _ => UB.

(** [assert(c)]: a contract of the caller; breaking it is not a
    recoverable error. *)
Definition assert {S} (c : bool) : M S unit :=
  if c then ret tt else undefined.

Declare Scope cpp_scope.
Delimit Scope cpp_scope with cpp.
Notation "x <- m ;; k" := (bind m (fun x => k))
  (at level 100, m at next level, right associativity) : cpp_scope.
Notation "m ;; k" := (bind m (fun _ => k))
  (at level 100, right associativity) : cpp_scope.
Local Open Scope cpp_scope.

(** [for (size_t i = lo; i < hi; ++i) body(i)] *)
Fixpoint for_count {S} (n : nat) (i : Z) (body : Z -> M S unit) : M S unit :=
  match n with
  | O => ret tt
  | Datatypes.S n' => body i ;; for_count n' (i + 1) body
  end.

Definition for_loop {S} (lo hi : Z) (body : Z -> M S unit) : M S unit :=
  for_count (Z.to_nat (hi - lo)) lo body.

(** ** Pointers *)

Definition block := positive.

Inductive pointer :=
| nullptr
| Ptr (b : block) (off : Z).

Global Instance pointer_eq_dec : EqDecision pointer.
Proof. solve_decision. Defined.

(** Two references of one class handed to a member function: they name
    the same object ([this == &other]) or two objects. *)
Inductive refs2 (O : Type) : Type :=
| Same (o : O)
| Distinct (this other : O).
Arguments Same {O} o.
Arguments Distinct {O} this other.

Definition this_of {O} (r : refs2 O) : O :=
  match r with Same o => o | Distinct t _ => t end.

Definition other_of {O} (r : refs2 O) : O :=
  match r with Same o => o | Distinct _ o => o end.

(** An argument of type [const Type&] or [Type&&]: it refers to an
    object outside the free store (a temporary, a local or a static
    object), which is given by its value, or to an element of an array
    of the free store, which may be an element of the vector that the
    call works on. *)
Inductive reference (T : Type) : Type :=
| Elsewhere (x : T)
| Cell (p : pointer).
Arguments Elsewhere {T} x.
Arguments Cell {T} p.

(** The element type [Type] of the templates, with what the code uses
    of it.  Its constructors and assignments return: an element type
    whose operations throw is outside the model. *)
Class Element (T : Type) := {
  (** [Type()], a value-initialised element *)
  value_init : T;
  (** what an element of [new Type[n]] holds before it is assigned *)
  default_init : T;
  (** what is left in an element after it was moved from *)
  moved_from : T -> T;
  (** [operator==] of the element type *)
  elem_eqb : T -> T -> bool
}.

(** The allocator: [max_len] is the longest array that [operator new[]]
    grants, a longer request throws [std::bad_alloc]; no array is longer
    than [PTRDIFF_MAX]. *)
Class Allocator := {
  max_len : Z;
  max_len_ptrdiff : max_len < 2 ^ 63
}.

(** [operator<] of the element type, for the ordering operators. *)
Class Ordered (T : Type) := {
  elem_ltb : T -> T -> bool
}.

(** ** The free store *)

(** A free store maps each live block to the array it holds. *)
Abbreviation heap T := (gmap block (list T)) (only parsing).

Section FreeStore.
Context {T : Type} `{Element T} `{Allocator}.

(** [new Type[n]] *)
Definition new_array (n : Z) : M (heap T) pointer :=
  fun h =>
    if max_len <? n then Throw bad_alloc h
    else
      let b := fresh (dom h) in
      Ok (Ptr b 0) (<[b := replicate (Z.to_nat n) default_init]> h).

(** [delete[] p] *)
Definition delete_array (p : pointer) : M (heap T) unit :=
  fun h =>
    match p with
    | nullptr => Ok tt h
    | Ptr b off =>
        match h !! b with
        | Some _ => if off =? 0 then Ok tt (delete b h) else UB
        | None => UB
        end
    end.

(** [p + n]: stays inside the array or one past its end. *)
Definition ptr_add (p : pointer) (n : Z) : M (heap T) pointer :=
  fun h =>
    match p with
    | nullptr => if n =? 0 then Ok nullptr h else UB
    | Ptr b off =>
        match h !! b with
        | Some arr =>
            if (0 <=? off + n) && (off + n <=? Z.of_nat (length arr))
            then Ok (Ptr b (off + n)) h else UB
        | None => UB
        end
    end.

(** [p - q] for two pointers into one array. *)
Definition ptr_diff (p q : pointer) : M (heap T) Z :=
  fun h =>
    match p, q with
    | nullptr, nullptr => Ok 0 h
    | Ptr b off, Ptr b' off' =>
        if decide (b = b') then Ok (off - off') h else UB
    | _, _ => UB
    end.

(** [p <= q] and [p < q] for two pointers into one array. *)
Definition ptr_le (p q : pointer) : M (heap T) bool :=
  d <- ptr_diff q p ;; ret (0 <=? d).

Definition ptr_lt (p q : pointer) : M (heap T) bool :=
  d <- ptr_diff q p ;; ret (0 <? d).

(** The reference [*p]: [p] has to point to an element. *)
Definition lvalue (p : pointer) : M (heap T) pointer :=
  fun h =>
    match p with
    | nullptr => UB
    | Ptr b off =>
        match h !! b with
        | Some arr =>
            if (0 <=? off) && (off <? Z.of_nat (length arr))
            then Ok p h else UB
        | None => UB
        end
    end.

(** Reading through a pointer or reference. *)
Definition load (p : pointer) : M (heap T) T :=
  fun h =>
    match p with
    | nullptr => UB
    | Ptr b off =>
        match h !! b with
        | Some arr =>
            if 0 <=? off then
              match arr !! Z.to_nat off with
              | Some x => Ok x h
              | None => UB
              end
            else UB
        | None => UB
        end
    end.

(** Assigning through a pointer or reference. *)
Definition store (p : pointer) (x : T) : M (heap T) unit :=
  fun h =>
    match p with
    | nullptr => UB
    | Ptr b off =>
        match h !! b with
        | Some arr =>
            if (0 <=? off) && (off <? Z.of_nat (length arr))
            then Ok tt (<[b := <[Z.to_nat off := x]> arr]> h)
            else UB
        | None => UB
        end
    end.

(** Copy-assignment of one element. *)
Definition copy_elem (dst src : pointer) : M (heap T) unit :=
  x <- load src ;;
  store dst x.

(** Move-assignment of one element: the element at [dst] takes the
    value of the element at [src], which is left moved-from. *)
Definition move_elem (dst src : pointer) : M (heap T) unit :=
  x <- load src ;;
  store src (moved_from x) ;;
  store dst x.

(** The copying ([moving = false]) and the moving algorithms of
    [<algorithm>] differ in the element assignment only. *)
Definition assign_elem (moving : bool) (dst src : pointer) : M (heap T) unit :=
  if moving then move_elem dst src else copy_elem dst src.

(** [*dst = value] for [moving = false] and [*dst = std::move(value)]
    for [moving = true], where [value] is a reference argument: an
    element that the argument refers to is read when the assignment
    runs, and the moving assignment leaves it moved-from.  What the
    moving assignment leaves in an object outside the free store is not
    part of the model. *)
Definition assign_arg (moving : bool) (dst : pointer) (value : reference T)
  : M (heap T) unit :=
  match value with
  | Elsewhere x => store dst x
  | Cell src => assign_elem moving dst src
  end.

(** [while (first != last) *d_first++ = *first++;] *)
Definition transfer (moving : bool) (first last d_first : pointer)
  : M (heap T) pointer :=
  n <- ptr_diff last first ;;
  assert (0 <=? n) ;;
  for_loop 0 n (fun i =>
    src <- ptr_add first i ;;
    dst <- ptr_add d_first i ;;
    assign_elem moving dst src) ;;
  ptr_add d_first n.

(** [while (first != last) *(--d_last) = *(--last);] *)
Definition transfer_backward (moving : bool) (first last d_last : pointer)
  : M (heap T) pointer :=
  n <- ptr_diff last first ;;
  assert (0 <=? n) ;;
  for_loop 0 n (fun i =>
    src <- ptr_add last (- (i + 1)) ;;
    dst <- ptr_add d_last (- (i + 1)) ;;
    assign_elem moving dst src) ;;
  ptr_add d_last (- n).

(** [std::copy], [std::move], [std::copy_backward], [std::move_backward] *)
Definition std_copy := transfer false.
Definition std_move := transfer true.
Definition std_copy_backward := transfer_backward false.
Definition std_move_backward := transfer_backward true.

(** [std::copy(init.begin(), init.end(), d_first)] for an initializer
    list, which lives outside the free store. *)
Fixpoint copy_init (init : list T) (d_first : pointer) (i : Z) : M (heap T) unit :=
  match init with
  | [] => ret tt
  | x :: init' =>
      dst <- ptr_add d_first i ;;
      store dst x ;;
      copy_init init' d_first (i + 1)
  end.

(** [std::fill(first, last, value)] *)
Definition std_fill (first last : pointer) (value : T) : M (heap T) unit :=
  n <- ptr_diff last first ;;
  assert (0 <=? n) ;;
  for_loop 0 n (fun i => dst <- ptr_add first i ;; store dst value).

(** [std::equal(first1, last1, first2)]: the three-iterator form, which
    walks [first2] as far as the first range is long; the second range,
    [first2] up to [first2 + (last1 - first1)], has to lie in its
    array. *)
Fixpoint equal_count (n : nat) (i : Z) (first1 first2 : pointer) : M (heap T) bool :=
  match n with
  | O => ret true
  | Datatypes.S n' =>
      p1 <- ptr_add first1 i ;;
      p2 <- ptr_add first2 i ;;
      x <- load p1 ;;
      y <- load p2 ;;
      if elem_eqb x y then equal_count n' (i + 1) first1 first2
      else ret false
  end.

Definition std_equal (first1 last1 first2 : pointer) : M (heap T) bool :=
  n <- ptr_diff last1 first1 ;;
  assert (0 <=? n) ;;
  ptr_add first2 n ;;
  equal_count (Z.to_nat n) 0 first1 first2.

End FreeStore.

Section LexicographicalCompare.
Context {T : Type} `{Element T} `{Allocator} `{Ordered T}.

(** [std::lexicographical_compare(first1, last1, first2, last2)]: while
    neither range is exhausted, the elements [x] and [y] at the two
    cursors are compared, [x < y] returns true and [y < x] returns
    false, otherwise both cursors advance; at the end the result is
    [first1 == last1 && first2 != last2]. *)
Fixpoint lexicographical_count (n1 n2 : nat) (i : Z) (first1 first2 : pointer)
  : M (heap T) bool :=
  match n1, n2 with
  | Datatypes.S n1', Datatypes.S n2' =>
      p1 <- ptr_add first1 i ;;
      p2 <- ptr_add first2 i ;;
      x <- load p1 ;;
      y <- load p2 ;;
      if elem_ltb x y then ret true
      else if elem_ltb y x then ret false
      else lexicographical_count n1' n2' (i + 1) first1 first2
  | O, Datatypes.S _ => ret true
  | _, O => ret false
  end.

Definition std_lexicographical_compare (first1 last1 first2 last2 : pointer)
  : M (heap T) bool :=
  n1 <- ptr_diff last1 first1 ;;
  assert (0 <=? n1) ;;
  n2 <- ptr_diff last2 first2 ;;
  assert (0 <=? n2) ;;
  lexicographical_count (Z.to_nat n1) (Z.to_nat n2) 0 first1 first2.

End LexicographicalCompare.

(** ** [array_ptr.h] *)

Module ArrayPtr.

Record t := { raw_ptr_ : pointer }.

Section Members.
Context {T : Type} `{Element T} `{Allocator}.

(** [ArrayPtr() = default] *)
Definition default : t := {| raw_ptr_ := nullptr |}.

(** [explicit ArrayPtr(size_t size)] *)
Definition of_size (size : Z) : M (heap T) t :=
  if size =? 0 then ret {| raw_ptr_ := nullptr |}
  else raw_ptr <- new_array size ;; ret {| raw_ptr_ := raw_ptr |}.

(** [explicit ArrayPtr(Type* raw_ptr)] *)
Definition of_raw (raw_ptr : pointer) : t := {| raw_ptr_ := raw_ptr |}.

(** [ArrayPtr(ArrayPtr&& other)]: the new object and what is left of
    [other]. *)
Definition move_ctor (other : t) : t * t :=
  ({| raw_ptr_ := raw_ptr_ other |}, {| raw_ptr_ := nullptr |}).

(** [operator=(ArrayPtr&& other)] *)
Definition move_assign (r : refs2 t) : refs2 t :=
  match r with
  | Same o => Same o
  | Distinct this other =>
      Distinct {| raw_ptr_ := raw_ptr_ other |} {| raw_ptr_ := nullptr |}
  end.

(** [~ArrayPtr()] *)
Definition dtor (this : t) : M (heap T) unit :=
  delete_array (raw_ptr_ this).

(** [Release()]: the pointer and what is left of [this]. *)
Definition Release (this : t) : pointer * t :=
  let delete_array := raw_ptr_ this in
  (delete_array, {| raw_ptr_ := nullptr |}).

(** [operator[](size_t index)]: the reference to the element. *)
Definition index (this : t) (index : Z) : M (heap T) pointer :=
  p <- ptr_add (raw_ptr_ this) index ;;
  lvalue p.

(** [explicit operator bool()] *)
Definition to_bool (this : t) : bool :=
  if decide (raw_ptr_ this = nullptr) then false else true.

(** [Get()] *)
Definition Get (this : t) : pointer := raw_ptr_ this.

(** [swap(ArrayPtr& other)] *)
Definition swap (r : refs2 t) : refs2 t :=
  match r with
  | Same o => Same o
  | Distinct this other =>
      let temp := raw_ptr_ this in
      Distinct {| raw_ptr_ := raw_ptr_ other |} {| raw_ptr_ := temp |}
  end.

End Members.
End ArrayPtr.

(** ** [simple_vector.h] *)

Record ReserveProxyObject := { capacity_to_reserve : Z }.

(** The free function [Reserve(size_t capacity_to_reserve)]. *)
Definition Reserve (capacity_to_reserve : Z) : ReserveProxyObject :=
  {| capacity_to_reserve := capacity_to_reserve |}.

Module SimpleVector.

Record t := {
  size_ : Z;
  capacity_ : Z;
  data_ : ArrayPtr.t
}.

Definition set_size_ (n : Z) (this : t) : t :=
  {| size_ := n; capacity_ := capacity_ this; data_ := data_ this |}.

Definition set_capacity_ (n : Z) (this : t) : t :=
  {| size_ := size_ this; capacity_ := n; data_ := data_ this |}.

Definition set_data_ (d : ArrayPtr.t) (this : t) : t :=
  {| size_ := size_ this; capacity_ := capacity_ this; data_ := d |}.

Section Members.
Context {T : Type} `{Element T} `{Allocator}.

(** The default member initialisers; also [SimpleVector() = default]. *)
Definition default : t :=
  {| size_ := 0; capacity_ := 0; data_ := ArrayPtr.default |}.

(** [begin()], [cbegin()] *)
Definition begin_ (this : t) : pointer := ArrayPtr.Get (data_ this).
Definition cbegin (this : t) : pointer := ArrayPtr.Get (data_ this).

(** [end()], [cend()] *)
Definition end_ (this : t) : M (heap T) pointer :=
  ptr_add (ArrayPtr.Get (data_ this)) (size_ this).
Definition cend (this : t) : M (heap T) pointer :=
  ptr_add (ArrayPtr.Get (data_ this)) (size_ this).

(** [explicit SimpleVector(size_t size)] *)
Definition of_size (size : Z) : M (heap T) t :=
  data <- ArrayPtr.of_size size ;;
  let this := {| size_ := size; capacity_ := size; data_ := data |} in
  last <- ptr_add (ArrayPtr.Get (data_ this)) (size_ this) ;;
  std_fill (ArrayPtr.Get (data_ this)) last value_init ;;
  ret this.

(** [SimpleVector(size_t size, const Type& value)] *)
Definition of_size_value (size : Z) (value : T) : M (heap T) t :=
  data <- ArrayPtr.of_size size ;;
  let this := {| size_ := size; capacity_ := size; data_ := data |} in
  last <- ptr_add (ArrayPtr.Get (data_ this)) (size_ this) ;;
  std_fill (ArrayPtr.Get (data_ this)) last value ;;
  ret this.

(** [SimpleVector(std::initializer_list<Type> init)] *)
Definition of_list (init : list T) : M (heap T) t :=
  let n := Z.of_nat (length init) in
  data <- ArrayPtr.of_size n ;;
  let this := {| size_ := n; capacity_ := n; data_ := data |} in
  copy_init init (ArrayPtr.Get (data_ this)) 0 ;;
  ret this.

Definition GetSize (this : t) : Z := size_ this.

Definition GetCapacity (this : t) : Z := capacity_ this.

Definition IsEmpty (this : t) : bool := size_ this =? 0.

(** [operator[](size_t index)]: the reference to the element. *)
Definition index (index : Z) (this : t) : M (heap T) pointer :=
  ArrayPtr.index (data_ this) index.

(** [At(size_t index)], both overloads. *)
Definition At (index : Z) (this : t) : M (heap T) pointer :=
  if size_ this <=? index then throw out_of_range
  else ArrayPtr.index (data_ this) index.

Definition Clear (this : t) : t := set_size_ 0 this.

(** The private [ReallocateAndMoveData(size_t new_capacity)]. *)
Definition ReallocateAndMoveData (new_capacity : Z) (this : t) : M (heap T) t :=
  new_data <- ArrayPtr.of_size new_capacity ;;
  let elements_count := Z.min (size_ this) new_capacity in
  for_loop 0 elements_count (fun i =>
    src <- ArrayPtr.index (data_ this) i ;;
    dst <- ArrayPtr.index new_data i ;;
    move_elem dst src) ;;
  let r := ArrayPtr.swap (Distinct (data_ this) new_data) in
  let this := set_data_ (this_of r) this in
  let new_data := other_of r in
  let this := set_capacity_ new_capacity this in
  ArrayPtr.dtor new_data ;;
  ret this.

(** The member [Reserve(size_t new_capacity)]. *)
Definition Reserve (new_capacity : Z) (this : t) : M (heap T) t :=
  if capacity_ this <? new_capacity then ReallocateAndMoveData new_capacity this
  else ret this.

(** [explicit SimpleVector(ReserveProxyObject wrapper)] *)
Definition of_reserve (wrapper : ReserveProxyObject) : M (heap T) t :=
  let this := default in
  let this := set_capacity_ (capacity_to_reserve wrapper) this in
  Reserve (capacity_ this) this.

(** [Resize(size_t new_size)] *)
Definition Resize (new_size : Z) (this : t) : M (heap T) t :=
  if new_size <=? size_ this then
    ret (set_size_ new_size this)
  else if new_size <=? capacity_ this then
    for_loop (size_ this) new_size (fun i =>
      dst <- ArrayPtr.index (data_ this) i ;;
      store dst value_init) ;;
    ret (set_size_ new_size this)
  else
    let new_capacity := to_int (Z.max new_size (wrap (capacity_ this * 2))) in
    new_array <- ArrayPtr.of_size (of_int new_capacity) ;;
    for_loop 0 (size_ this) (fun i =>
      src <- ArrayPtr.index (data_ this) i ;;
      dst <- ArrayPtr.index new_array i ;;
      move_elem dst src) ;;
    for_loop (size_ this) new_size (fun i =>
      dst <- ArrayPtr.index new_array i ;;
      store dst value_init) ;;
    let r := ArrayPtr.swap (Distinct (data_ this) new_array) in
    let this := set_data_ (this_of r) this in
    let new_array := other_of r in
    let this := set_capacity_ (of_int new_capacity) this in
    let this := set_size_ new_size this in
    ArrayPtr.dtor new_array ;;
    ret this.

(** [PushBack(const Type& value)] for [moving = false] and
    [PushBack(Type&& value)] for [moving = true]: the argument is read
    by the assignment, after the reallocation. *)
Definition PushBack_with (moving : bool) (value : reference T) (this : t)
  : M (heap T) t :=
  let new_size := wrap (size_ this + 1) in
  this <- (if capacity_ this <? new_size then
             let new_capacity :=
               if negb (capacity_ this =? 0)
               then Z.max new_size (wrap (2 * capacity_ this)) else 1 in
             ReallocateAndMoveData new_capacity this
           else ret this) ;;
  dst <- ArrayPtr.index (data_ this) (size_ this) ;;
  assign_arg moving dst value ;;
  ret (set_size_ new_size this).

Definition PushBack := PushBack_with false.
Definition PushBack_rvalue := PushBack_with true.

(** [Insert(ConstIterator position, const Type& value)] for
    [moving = false] and [Insert(ConstIterator position, Type&& value)]
    for [moving = true]: the second moves where the first copies.  The
    argument is read by the assignment to the cell at the position:
    after the elements from the position on were shifted, or after the
    elements before the position went to the new array. *)
Definition Insert_with (moving : bool) (position : pointer) (value : reference T)
    (this : t) : M (heap T) (pointer * t) :=
  d <- ptr_diff position (ArrayPtr.Get (data_ this)) ;;
  let position_offset := wrap d in
  assert (position_offset <=? size_ this) ;;
  element_position <- ptr_add (ArrayPtr.Get (data_ this)) position_offset ;;
  let new_size := wrap (size_ this + 1) in
  this <- (if new_size <=? capacity_ this then
             last <- ptr_add (ArrayPtr.Get (data_ this)) (size_ this) ;;
             d_last <- ptr_add last 1 ;;
             transfer_backward moving element_position last d_last ;;
             dst <- ArrayPtr.index (data_ this) position_offset ;;
             assign_arg moving dst value ;;
             ret this
           else
             let new_capacity :=
               if negb (capacity_ this =? 0)
               then Z.max new_size (wrap (2 * capacity_ this)) else 1 in
             new_data <- ArrayPtr.of_size new_capacity ;;
             transfer moving (ArrayPtr.Get (data_ this)) element_position
               (ArrayPtr.Get new_data) ;;
             dst <- ArrayPtr.index new_data position_offset ;;
             assign_arg moving dst value ;;
             last <- ptr_add (ArrayPtr.Get (data_ this)) (size_ this) ;;
             d_first <- ptr_add (ArrayPtr.Get new_data) position_offset ;;
             d_first <- ptr_add d_first 1 ;;
             transfer moving element_position last d_first ;;
             let r := ArrayPtr.swap (Distinct (data_ this) new_data) in
             let this := set_data_ (this_of r) this in
             let new_data := other_of r in
             let this := set_capacity_ new_capacity this in
             ArrayPtr.dtor new_data ;;
             ret this) ;;
  let this := set_size_ new_size this in
  res <- ptr_add (ArrayPtr.Get (data_ this)) position_offset ;;
  ret (res, this).

Definition Insert := Insert_with false.

(** [PopBack()] *)
Definition PopBack (this : t) : M (heap T) t :=
  assert (negb (size_ this =? 0)) ;;
  ret (set_size_ (wrap (size_ this - 1)) this).

(** [Erase(ConstIterator pos)] *)
Definition Erase (pos : pointer) (this : t) : M (heap T) (pointer * t) :=
  ge_begin <- ptr_le (begin_ this) pos ;;
  lt_end <- (if ge_begin then e <- end_ this ;; ptr_lt pos e else ret false) ;;
  assert (ge_begin && lt_end) ;;
  d <- ptr_diff pos (cbegin this) ;;
  let erase_index := wrap d in
  new_first <- ArrayPtr.index (data_ this) erase_index ;;
  first <- ptr_add (begin_ this) erase_index ;;
  first <- ptr_add first 1 ;;
  last <- end_ this ;;
  std_move first last new_first ;;
  let this := set_size_ (wrap (size_ this - 1)) this in
  res <- ptr_add (begin_ this) erase_index ;;
  ret (res, this).

(** [~SimpleVector()]: the destructor of the member [data_]. *)
Definition dtor (this : t) : M (heap T) unit :=
  ArrayPtr.dtor (data_ this).

(** [SimpleVector(const SimpleVector& other)] *)
Definition copy_ctor (other : t) : M (heap T) t :=
  let this := default in
  cp <- of_size (size_ other) ;;
  last <- end_ other ;;
  std_copy (begin_ other) last (begin_ cp) ;;
  let this := set_size_ (size_ cp) this in
  let this := set_capacity_ (capacity_ cp) this in
  let r := ArrayPtr.swap (Distinct (data_ this) (data_ cp)) in
  let this := set_data_ (this_of r) this in
  let cp := set_data_ (other_of r) cp in
  dtor cp ;;
  ret this.

(** [SimpleVector(SimpleVector&& other)]: the new object and what is
    left of [other]. *)
Definition move_ctor (other : t) : t * t :=
  let size := size_ other in
  let other := set_size_ 0 other in
  let capacity := capacity_ other in
  let other := set_capacity_ 0 other in
  let '(data, other_data) := ArrayPtr.move_ctor (data_ other) in
  let other := set_data_ other_data other in
  ({| size_ := size; capacity_ := capacity; data_ := data |}, other).

(** [swap(SimpleVector& other)] *)
Definition swap (r : refs2 t) : refs2 t :=
  match r with
  | Same o => Same o
  | Distinct this other =>
      let d := ArrayPtr.swap (Distinct (data_ this) (data_ other)) in
      Distinct
        {| size_ := size_ other; capacity_ := capacity_ other;
           data_ := this_of d |}
        {| size_ := size_ this; capacity_ := capacity_ this;
           data_ := other_of d |}
  end.

(** [operator=(const SimpleVector& rhs)] *)
Definition copy_assign (r : refs2 t) : M (heap T) (refs2 t) :=
  match r with
  | Same o => ret (Same o)
  | Distinct this rhs =>
      temp <- copy_ctor rhs ;;
      let s := swap (Distinct this temp) in
      dtor (other_of s) ;;
      ret (Distinct (this_of s) rhs)
  end.

(** [operator=(SimpleVector&& other)] *)
Definition move_assign (r : refs2 t) : refs2 t :=
  match r with
  | Same o => Same o
  | Distinct this other =>
      let this := set_size_ (size_ other) this in
      let other := set_size_ 0 other in
      let this := set_capacity_ (capacity_ other) this in
      let other := set_capacity_ 0 other in
      let d := ArrayPtr.move_assign (Distinct (data_ this) (data_ other)) in
      Distinct (set_data_ (this_of d) this) (set_data_ (other_of d) other)
  end.

(** [operator==(const SimpleVector& lhs, const SimpleVector& rhs)] *)
Definition operator_eq (lhs rhs : t) : M (heap T) bool :=
  last <- end_ lhs ;;
  std_equal (begin_ lhs) last (begin_ rhs).

(** [operator!=] *)
Definition operator_ne (lhs rhs : t) : M (heap T) bool :=
  b <- operator_eq lhs rhs ;; ret (negb b).

End Members.

Section Ordering.
Context {T : Type} `{Element T} `{Allocator} `{Ordered T}.

(** [operator<(const SimpleVector& lhs, const SimpleVector& rhs)] *)
Definition operator_lt (lhs rhs : t) : M (heap T) bool :=
  last1 <- end_ lhs ;;
  last2 <- end_ rhs ;;
  std_lexicographical_compare (begin_ lhs) last1 (begin_ rhs) last2.

(** [operator<=]: [!(rhs < lhs)] *)
Definition operator_le (lhs rhs : t) : M (heap T) bool :=
  b <- operator_lt rhs lhs ;; ret (negb b).

(** [operator>]: [rhs < lhs] *)
Definition operator_gt (lhs rhs : t) : M (heap T) bool :=
  operator_lt rhs lhs.

(** [operator>=]: [!(lhs < rhs)] *)
Definition operator_ge (lhs rhs : t) : M (heap T) bool :=
  b <- operator_lt lhs rhs ;; ret (negb b).

End Ordering.
End SimpleVector.

(** ** What the specification speaks about *)

Section Specification.
Context {T : Type} `{Element T} `{Allocator}.

(** The physical extent of the buffer that an [ArrayPtr] owns: nothing
    for [nullptr], else the length of the array it points to. *)
Definition extent (h : heap T) (a : ArrayPtr.t) : option Z :=
  match ArrayPtr.raw_ptr_ a with
  | nullptr => Some 0
  | Ptr b off =>
      match h !! b with
      | Some arr => if off =? 0 then Some (Z.of_nat (length arr)) else None
      | None => None
      end
  end.

(** The cells of the owned buffer. *)
Definition buffer (h : heap T) (a : ArrayPtr.t) : list T :=
  match ArrayPtr.raw_ptr_ a with
  | nullptr => []
  | Ptr b _ => default [] (h !! b)
  end.

(** The logical elements of a vector: the first [size_] cells. *)
Definition elements (h : heap T) (v : SimpleVector.t) : list T :=
  take (Z.to_nat (SimpleVector.size_ v)) (buffer h (SimpleVector.data_ v)).

(** The invariant of the data model: the capacity is the extent of the
    owned buffer, and the size does not exceed it. *)
Definition invariant (h : heap T) (v : SimpleVector.t) : Prop :=
  extent h (SimpleVector.data_ v) = Some (SimpleVector.capacity_ v)
  /\ 0 <= SimpleVector.size_ v <= SimpleVector.capacity_ v.

(** A well-formed vector satisfies the invariant, and its buffer is one
    the allocator can have granted. *)
Definition wf (h : heap T) (v : SimpleVector.t) : Prop :=
  invariant h v /\ SimpleVector.capacity_ v <= max_len.

(** The array that an [ArrayPtr] points into, if any. *)
Definition block_of (a : ArrayPtr.t) : option block :=
  match ArrayPtr.raw_ptr_ a with
  | nullptr => None
  | Ptr b _ => Some b
  end.

(** A step from the free store [h], in which a vector has the buffer
    [a], to the free store [h'], in which it has the buffer [a'], keeps
    the rest of the free store: every other array of [h] is in [h'] as
    it was, and [a'] is none of them. *)
Definition evolves (h : heap T) (a : ArrayPtr.t) (h' : heap T) (a' : ArrayPtr.t)
  : Prop :=
  forall b arr, h !! b = Some arr -> block_of a <> Some b ->
    h' !! b = Some arr /\ block_of a' <> Some b.

(** The capacity that [PushBack] and [Insert] grow a full buffer to: 1
    from capacity 0, else twice the capacity. *)
Definition grown (capacity : Z) : Z :=
  if capacity =? 0 then 1 else 2 * capacity.

(** The calls that change a vector, with their arguments; an iterator
    argument is given as its offset from [begin()], and the argument of
    [PushBack] and [Insert] is an object outside the free store, given
    as its value. *)
Inductive mutation : Type :=
| MAssign (index : Z) (value : T)
| MClear
| MResize (new_size : Z)
| MReserve (new_capacity : Z)
| MPushBack (value : T)
| MInsert (moving : bool) (offset : Z) (value : T)
| MPopBack
| MErase (offset : Z).

Definition mutate (m : mutation) (v : SimpleVector.t) : M (heap T) SimpleVector.t :=
  match m with
  | MAssign index value =>
      dst <- SimpleVector.index index v ;; store dst value ;; ret v
  | MClear => ret (SimpleVector.Clear v)
  | MResize new_size => SimpleVector.Resize new_size v
  | MReserve new_capacity => SimpleVector.Reserve new_capacity v
  | MPushBack value => SimpleVector.PushBack (Elsewhere value) v
  | MInsert moving offset value =>
      position <- ptr_add (SimpleVector.begin_ v) offset ;;
      r <- SimpleVector.Insert_with moving position (Elsewhere value) v ;;
      ret (snd r)
  | MPopBack => SimpleVector.PopBack v
  | MErase offset =>
      pos <- ptr_add (SimpleVector.begin_ v) offset ;;
      r <- SimpleVector.Erase pos v ;;
      ret (snd r)
  end.

Fixpoint mutate_all (ms : list mutation) (v : SimpleVector.t)
  : M (heap T) SimpleVector.t :=
  match ms with
  | [] => ret v
  | m :: ms' => v' <- mutate m v ;; mutate_all ms' v'
  end.

(** An argument of type [size_t]. *)
Definition is_size_t (z : Z) : Prop := 0 <= z < size_t_modulus.

Definition well_typed (m : mutation) : Prop :=
  match m with
  | MAssign index _ => is_size_t index
  | MResize new_size => is_size_t new_size
  | MReserve new_capacity => is_size_t new_capacity
  | MInsert _ offset _ => is_size_t offset
  | MErase offset => is_size_t offset
  | MClear | MPushBack _ | MPopBack => True
  end.

(** What a call on a vector with the buffer [a] in the free store [h]
    may do to the rest of the free store: when it returns, the vector
    is well-formed and the step kept the rest; when it throws, the free
    store is as it was; a call outside its contract is not bound. *)
Definition contained (h : heap T) (a : ArrayPtr.t)
    (r : outcome (heap T) SimpleVector.t) : Prop :=
  match r with
  | Ok v' h' => wf h' v' /\ evolves h a h' (SimpleVector.data_ v')
  | Throw _ h' => h' = h
  | UB => True
  end.

(** [PushBack] of each value of a list, in order; the values are
    objects outside the free store. *)
Fixpoint push_all (values : list T) (v : SimpleVector.t)
  : M (heap T) SimpleVector.t :=
  match values with
  | [] => ret v
  | x :: values' => v' <- SimpleVector.PushBack (Elsewhere x) v ;; push_all values' v'
  end.

End Specification.

(** ** Invariants of the proofs *)

Section Invariants.
Context {T : Type} `{Element T} `{Allocator}.
Implicit Types (h t : heap T) (A D : list T) (b : block).

(** A view of [extent]: the buffer is absent, or it is a whole array of
    the free store. *)
Inductive owns h : ArrayPtr.t -> list T -> Prop :=
| owns_null : owns h {| ArrayPtr.raw_ptr_ := nullptr |} []
| owns_block b arr :
    h !! b = Some arr -> owns h {| ArrayPtr.raw_ptr_ := Ptr b 0 |} arr.

(** The state of a transfer from array [bs] to another array [bd]
    after the cells below [k] were assigned: the first [k] cells of the
    destination range hold the source values, the source keeps what was
    not yet transferred (all of it when the transfer copies), and no
    other array changed. *)
Definition transferred (moving : bool) (t0 : heap T) bs bd A D (s d k : Z)
    (t : heap T) : Prop :=
  exists A' D',
    t !! bs = Some A' /\ t !! bd = Some D'
    /\ length A' = length A /\ length D' = length D
    /\ (forall j : nat, d <= Z.of_nat j < d + k ->
          D' !! j = A !! Z.to_nat (Z.of_nat j - d + s))
    /\ (forall j : nat, ~ d <= Z.of_nat j < d + k -> D' !! j = D !! j)
    /\ (forall j : nat, ~ s <= Z.of_nat j < s + k -> A' !! j = A !! j)
    /\ (forall b, b <> bs -> b <> bd -> t !! b = t0 !! b)
    /\ (moving = false -> A' = A).

(** The state of a forward transfer inside one array, from the cells at
    [s] on to the cells at [d < s] on, after [k] assignments: the cells
    from [d] to [d + k] took their new values, and what lies outside the
    two ranges is untouched. *)
Definition shifted_down (t0 : heap T) b A (s d k : Z) (t : heap T) : Prop :=
  exists A',
    t = <[b := A']> t0
    /\ length A' = length A
    /\ (forall j : nat, d <= Z.of_nat j < d + k ->
          A' !! j = A !! Z.to_nat (Z.of_nat j - d + s))
    /\ (forall j : nat, Z.of_nat j < d -> A' !! j = A !! j)
    /\ (forall j : nat, d + k <= Z.of_nat j ->
          Z.of_nat j < s \/ s + k <= Z.of_nat j -> A' !! j = A !! j).

(** The state of a backward transfer inside one array, from the cells
    below [e] to the cells below [e + delta], after [k] assignments; a
    transfer that copies leaves every cell as it was that it did not
    assign yet. *)
Definition shifted_up (moving : bool) (t0 : heap T) b A (e delta k : Z)
    (t : heap T) : Prop :=
  exists A',
    t = <[b := A']> t0
    /\ length A' = length A
    /\ (forall j : nat, e + delta - k <= Z.of_nat j < e + delta ->
          A' !! j = A !! Z.to_nat (Z.of_nat j - delta))
    /\ (forall j : nat, e + delta <= Z.of_nat j -> A' !! j = A !! j)
    /\ (forall j : nat, Z.of_nat j < e + delta - k ->
          Z.of_nat j < e - k \/ e <= Z.of_nat j -> A' !! j = A !! j)
    /\ (moving = false ->
        forall j : nat, Z.of_nat j < e + delta - k -> A' !! j = A !! j).

End Invariants.

(** ** Comparison of element sequences *)

Section SequenceComparison.
Context {T : Type} `{Element T} `{Ordered T}.

(** Pairwise [operator==] along the first list, up to the first pair
    that differs; nothing when the second list ends before that. *)
Fixpoint equal_along (l1 l2 : list T) : option bool :=
  match l1, l2 with
  | [], _ => Some true
  | x :: l1', y :: l2' => if elem_eqb x y then equal_along l1' l2' else Some false
  | _ :: _, [] => None
  end.

(** The lexicographic order of two lists by [operator<] of the
    elements: the first position at which one element is less than the
    other decides, and a proper prefix is less. *)
Fixpoint lexicographic (l1 l2 : list T) : bool :=
  match l1, l2 with
  | x :: l1', y :: l2' =>
      if elem_ltb x y then true
      else if elem_ltb y x then false
      else lexicographic l1' l2'
  | [], _ :: _ => true
  | _, [] => false
  end.

End SequenceComparison.

(** ** The sequence that a vector stands for *)

Section SequenceModel.
Context {T : Type} `{Element T} `{Allocator}.

(** What a call that returns does to the sequence of the elements. *)
Definition on_elements (m : mutation) (l : list T) : list T :=
  match m with
  | MAssign index value => <[Z.to_nat index := value]> l
  | MClear => []
  | MResize new_size =>
      take (Z.to_nat new_size) l
      ++ replicate (Z.to_nat new_size - length l) value_init
  | MReserve _ => l
  | MPushBack value => l ++ [value]
  | MInsert _ offset value =>
      take (Z.to_nat offset) l ++ value :: drop (Z.to_nat offset) l
  | MPopBack => take (length l - 1) l
  | MErase offset => delete (Z.to_nat offset) l
  end.

(** The capacity after a call that returns, from the size and the
    capacity before it. *)
Definition capacity_after (m : @mutation T) (size capacity : Z) : Z :=
  match m with
  | MResize new_size =>
      if new_size <=? capacity then capacity
      else Z.max new_size (2 * capacity)
  | MReserve new_capacity => Z.max capacity new_capacity
  | MPushBack _ | MInsert _ _ _ =>
      if size <? capacity then capacity else grown capacity
  | MAssign _ _ | MClear | MPopBack | MErase _ => capacity
  end.

(** What a reference argument refers to in a free store: the value of
    the object, if there is one. *)
Definition referent (h : heap T) (value : reference T) : option T :=
  match value with
  | Elsewhere x => Some x
  | Cell nullptr => None
  | Cell (Ptr b off) =>
      if 0 <=? off then default [] (h !! b) !! Z.to_nat off else None
  end.

(** A reference to an element of the array [b]. *)
Definition refers_into (b : block) (value : reference T) : Prop :=
  match value with
  | Cell (Ptr b' _) => b' = b
  | _ => False
  end.

(** A reference to a cell of the buffer of a vector. *)
Definition own_element (v : SimpleVector.t) (value : reference T) : Prop :=
  exists b, block_of (SimpleVector.data_ v) = Some b /\ refers_into b value.

(** The free store once an assignment has read the argument: the
    moving assignment leaves an element that the argument refers to
    moved-from. *)
Definition moved_out (moving : bool) (value : reference T) (h : heap T)
  : heap T :=
  match value with
  | Cell (Ptr b off) =>
      if moving then alter (alter moved_from (Z.to_nat off)) b h else h
  | _ => h
  end.

(** The value that [Insert] at the offset [p] puts at the position.  An
    object outside the free store or an element of another array is
    read as it is.  An element of the vector itself, given to the
    overload that copies, is read when the assignment runs: below the
    capacity the elements from [p] on have moved up by one by then, so
    the cell at an index [off] with [p < off <= size] holds what stood
    at [off - 1]; at full capacity the old array is still as it was.
    For an element of the vector itself given to the overload that
    moves, no value is given: the call leaves that element moved-from,
    and the outcome is not the insertion of a value into the old
    sequence. *)
Definition Insert_argument (moving : bool) (h : heap T) (v : SimpleVector.t)
    (p : Z) (value : reference T) : option T :=
  match value with
  | Cell (Ptr b off) =>
      if decide (block_of (SimpleVector.data_ v) = Some b) then
        if moving then None
        else if (SimpleVector.size_ v <? SimpleVector.capacity_ v)
                && (p <? off) && (off <=? SimpleVector.size_ v)
             then referent h (Cell (Ptr b (off - 1)))
             else referent h value
      else referent h value
  | _ => referent h value
  end.

(** The arrays that an [ArrayPtr] owns: one or none. *)
Definition blocks (a : ArrayPtr.t) : gset block :=
  match block_of a with
  | Some b => {[ b ]}
  | None => ∅
  end.

(** The free store without the buffer of an [ArrayPtr]. *)
Definition rest (h : heap T) (a : ArrayPtr.t) : heap T :=
  match block_of a with
  | Some b => delete b h
  | None => h
  end.

End SequenceModel.

(** ** A logic of the free store *)

Section StoreLogic.
Context {T : Type} `{Element T} `{Allocator}.

(** The array that a pointer points into: one or none. *)
Definition array_of (p : pointer) : gset block :=
  match p with
  | nullptr => ∅
  | Ptr b _ => {[ b ]}
  end.

(** A computation that only reads: when it returns, the free store is
    as it was and the result satisfies [phi]; it does not throw. *)
Definition reads {A} (m : M (heap T) A) (phi : A -> Prop) : Prop :=
  forall h,
    match m h with
    | Ok r h' => h' = h /\ phi r
    | Throw _ _ => False
    | UB => True
    end.

(** From a free store that satisfies [P], the computation returns to a
    free store and a result that satisfy [Q], or throws to a free store
    and an exception that satisfy [E], or is undefined. *)
Definition triple {A} (P : heap T -> Prop) (m : M (heap T) A)
    (Q : A -> heap T -> Prop) (E : exn -> heap T -> Prop) : Prop :=
  forall h, P h ->
    match m h with
    | Ok r h' => Q r h'
    | Throw e h' => E e h'
    | UB => True
    end.

(** The free store without the two buffers is [R]. *)
Definition outside (a a' : ArrayPtr.t) (R : heap T) : heap T -> Prop :=
  fun h => rest (rest h a) a' = R.

(** What a member function that works on its own buffer only owes the
    rest of the program: started in [h0] on a vector with the buffer
    [a0], when it returns, the free store without the buffer of the
    vector is what it was, and when it throws, it throws
    [std::bad_alloc] and the free store is [h0]. *)
Definition frames {A} (h0 : heap T) (a0 : ArrayPtr.t)
    (data_of : A -> ArrayPtr.t) (m : M (heap T) A) : Prop :=
  triple (fun h => h = h0) m
    (fun r h' => rest h' (data_of r) = rest h0 a0)
    (fun e h' => e = bad_alloc /\ h' = h0).

End StoreLogic.

(** ** An instance: vectors of integers *)

Definition Z_Element : Element Z :=
  {| value_init := 0; default_init := -1;
     moved_from := fun x => x; elem_eqb := Z.eqb |}.

Definition Z_Allocator : Allocator :=
  {| max_len := 2 ^ 40; max_len_ptrdiff := eq_refl |}.

(** An element type that a move empties, as [std::string] or
    [std::unique_ptr]: the integers stand for its values, 0 for the
    empty one. *)
Definition Z_emptied : Element Z :=
  {| value_init := 0; default_init := 0;
     moved_from := fun _ => 0; elem_eqb := Z.eqb |}.

(** An allocator that grants arrays of up to four elements. *)
Definition Small_Allocator : Allocator :=
  {| max_len := 4; max_len_ptrdiff := eq_refl |}.

(** The state after [SimpleVector<int> v{1, 2, 3};] on an empty free
    store. *)
Definition heap_123 : heap Z := {[ 1%positive := [1; 2; 3] ]}.

Definition vec_123 : SimpleVector.t :=
  {| SimpleVector.size_ := 3; SimpleVector.capacity_ := 3;
     SimpleVector.data_ := {| ArrayPtr.raw_ptr_ := Ptr 1%positive 0 |} |}.

(** The state after [SimpleVector<int> v{1};]. *)
Definition heap_1 : heap Z := {[ 1%positive := [1] ]}.

Definition vec_1 : SimpleVector.t :=
  {| SimpleVector.size_ := 1; SimpleVector.capacity_ := 1;
     SimpleVector.data_ := {| ArrayPtr.raw_ptr_ := Ptr 1%positive 0 |} |}.

(** The state after [SimpleVector<int> lhs{1, 2}, rhs{1, 2, 3};]. *)
Definition heap_12_123 : heap Z :=
  {[ 1%positive := [1; 2]; 2%positive := [1; 2; 3] ]}.

Definition vec_12 : SimpleVector.t :=
  {| SimpleVector.size_ := 2; SimpleVector.capacity_ := 2;
     SimpleVector.data_ := {| ArrayPtr.raw_ptr_ := Ptr 1%positive 0 |} |}.

Definition vec_123' : SimpleVector.t :=
  {| SimpleVector.size_ := 3; SimpleVector.capacity_ := 3;
     SimpleVector.data_ := {| ArrayPtr.raw_ptr_ := Ptr 2%positive 0 |} |}.

(** [rhs] of that state after [rhs.PopBack()]. *)
Definition vec_12' : SimpleVector.t :=
  {| SimpleVector.size_ := 2; SimpleVector.capacity_ := 3;
     SimpleVector.data_ := {| ArrayPtr.raw_ptr_ := Ptr 2%positive 0 |} |}.

Definition Z_Ordered : Ordered Z := {| elem_ltb := Z.ltb |}.

(** A sequence with every kind of call. *)
Definition calls : list (@mutation Z) :=
  [MPushBack 4; MErase 0; MAssign 0 7; MResize 9; MPopBack; MReserve 20;
   MInsert true 2 5; MClear; MPushBack 1].

(** * Proofs *)

(** Reading the members of explicit objects. *)
Ltac fields :=
  unfold SimpleVector.set_size_, SimpleVector.set_capacity_,
    SimpleVector.set_data_, ArrayPtr.Get in *;
  cbn [SimpleVector.size_ SimpleVector.capacity_ SimpleVector.data_
       ArrayPtr.raw_ptr_ this_of other_of fst snd assign_arg] in *.

(** ** Machine integers *)

Lemma wrap_small z : 0 <= z < size_t_modulus -> wrap z = z.
Proof. intros Hz. unfold wrap. apply Z.mod_small. exact Hz. Qed.

Lemma to_int_small z : - 2 ^ 31 <= z < 2 ^ 31 -> to_int z = z.
Proof. intros Hz. unfold to_int. rewrite Z.mod_small; lia. Qed.

Lemma size_t_modulus_eq : size_t_modulus = 18446744073709551616.
Proof. reflexivity. Qed.

(** ** The monad *)

Section MonadLaws.
Context {S A B : Type}.

Lemma bind_Ok (m : M S A) (k : A -> M S B) s a s' :
  m s = Ok a s' -> bind m k s = k a s'.
Proof. intros Hm. unfold bind. rewrite Hm. reflexivity. Qed.

Lemma bind_Throw (m : M S A) (k : A -> M S B) s e s' :
  m s = Throw e s' -> bind m k s = Throw e s'.
Proof. intros Hm. unfold bind. rewrite Hm. reflexivity. Qed.

Lemma bind_UB (m : M S A) (k : A -> M S B) s :
  m s = UB -> bind m k s = UB.
Proof. intros Hm. unfold bind. rewrite Hm. reflexivity. Qed.

Lemma bind_ret (a : A) (k : A -> M S B) s : bind (ret a) k s = k a s.
Proof. reflexivity. Qed.

(** A sequence that returns has returned from its first part. *)
Lemma bind_Ok_inv (m : M S A) (k : A -> M S B) s b s2 :
  bind m k s = Ok b s2 -> exists a s1, m s = Ok a s1 /\ k a s1 = Ok b s2.
Proof.
  unfold bind. destruct (m s) as [a s1|e s1|]; intros Hk; try discriminate.
  exists a, s1. split; [reflexivity | exact Hk].
Qed.

End MonadLaws.

Lemma assert_true {S} (c : bool) (s : S) : c = true -> assert c s = Ok tt s.
Proof. intros ->. reflexivity. Qed.

Lemma assert_leb {S} (a b : Z) (s : S) : a <= b -> assert (a <=? b) s = Ok tt s.
Proof. intros Hab. apply assert_true. lia. Qed.

Lemma assert_Ok_inv {S} (c : bool) (s s' : S) u :
  assert c s = Ok u s' -> c = true /\ s' = s.
Proof. destruct c; cbn; intros Hs; inversion Hs; auto. Qed.

(** A loop whose body keeps an invariant and returns at every index
    returns, with the invariant at the upper bound. *)
Lemma for_count_invariant {S} (I : Z -> S -> Prop) (body : Z -> M S unit) n i s :
  I i s ->
  (forall j t, i <= j < i + Z.of_nat n -> I j t ->
     exists t', body j t = Ok tt t' /\ I (j + 1) t') ->
  exists s', for_count n i body s = Ok tt s' /\ I (i + Z.of_nat n) s'.
Proof.
  revert i s. induction n as [|n IH]; intros i s Hi Hbody.
  - exists s. split; [reflexivity|]. now replace (i + Z.of_nat 0) with i by lia.
  - destruct (Hbody i s) as (t & Hrun & Ht); [lia | exact Hi |].
    destruct (IH (i + 1) t Ht) as (s' & Hrest & Hs').
    + intros j u Hj Hu. apply Hbody; [lia | exact Hu].
    + exists s'. split.
      * cbn [for_count]. rewrite (bind_Ok _ _ _ _ _ Hrun). exact Hrest.
      * now replace (i + Z.of_nat (Datatypes.S n)) with (i + 1 + Z.of_nat n) by lia.
Qed.

Lemma for_loop_invariant {S} (I : Z -> S -> Prop) (body : Z -> M S unit) lo hi s :
  lo <= hi ->
  I lo s ->
  (forall j t, lo <= j < hi -> I j t ->
     exists t', body j t = Ok tt t' /\ I (j + 1) t') ->
  exists s', for_loop lo hi body s = Ok tt s' /\ I hi s'.
Proof.
  intros Hle Hi Hbody. unfold for_loop.
  destruct (for_count_invariant I body (Z.to_nat (hi - lo)) lo s Hi) as (s' & Hrun & Hs').
  - intros j t Hj. apply Hbody. lia.
  - exists s'. split; [exact Hrun|].
    assert (Heq : lo + Z.of_nat (Z.to_nat (hi - lo)) = hi) by lia.
    rewrite Heq in Hs'. exact Hs'.
Qed.

Lemma for_loop_empty {S} (body : Z -> M S unit) lo hi s :
  hi <= lo -> for_loop lo hi body s = Ok tt s.
Proof.
  intros Hle. unfold for_loop. replace (Z.to_nat (hi - lo)) with O by lia. reflexivity.
Qed.

(** A loop that returns kept every property that its body keeps. *)
Lemma for_count_preserves {S} (P : S -> Prop) (body : Z -> M S unit) n i s s' :
  (forall j t t', body j t = Ok tt t' -> P t -> P t') ->
  for_count n i body s = Ok tt s' -> P s -> P s'.
Proof.
  intros Hbody. revert i s. induction n as [|n IH]; intros i s Hrun Hs.
  - cbn in Hrun. inversion Hrun. now subst.
  - cbn [for_count] in Hrun. apply bind_Ok_inv in Hrun as ([] & t & Hfirst & Hrest).
    eapply IH; [exact Hrest|]. eapply Hbody; eauto.
Qed.

(** ** The free store *)

Section Primitives.
Context {T : Type} `{Element T} `{Allocator}.
Implicit Types (h : heap T) (arr : list T) (b : block).

Lemma ptr_add_null h : ptr_add nullptr 0 h = Ok nullptr h.
Proof. reflexivity. Qed.

Lemma ptr_add_Ptr h b off n arr :
  h !! b = Some arr ->
  0 <= off + n <= Z.of_nat (length arr) ->
  ptr_add (Ptr b off) n h = Ok (Ptr b (off + n)) h.
Proof.
  intros Hb Hn. unfold ptr_add. rewrite Hb.
  replace (0 <=? off + n) with true by lia.
  replace (off + n <=? Z.of_nat (length arr)) with true by lia.
  reflexivity.
Qed.

Lemma lvalue_Ptr h b off arr :
  h !! b = Some arr ->
  0 <= off < Z.of_nat (length arr) ->
  lvalue (Ptr b off) h = Ok (Ptr b off) h.
Proof.
  intros Hb Hoff. unfold lvalue. rewrite Hb.
  replace (0 <=? off) with true by lia.
  replace (off <? Z.of_nat (length arr)) with true by lia.
  reflexivity.
Qed.

Lemma index_Ptr h b i arr :
  h !! b = Some arr ->
  0 <= i < Z.of_nat (length arr) ->
  ArrayPtr.index {| ArrayPtr.raw_ptr_ := Ptr b 0 |} i h = Ok (Ptr b i) h.
Proof.
  intros Hb Hi. unfold ArrayPtr.index. cbn [ArrayPtr.raw_ptr_].
  rewrite (bind_Ok _ _ _ _ _ (ptr_add_Ptr h b 0 i arr Hb ltac:(lia))).
  cbn [Z.add]. exact (lvalue_Ptr h b i arr Hb Hi).
Qed.

(** [operator[]] never throws. *)
Lemma index_no_throw (a : ArrayPtr.t) i h e h' :
  ArrayPtr.index a i h <> Throw e h'.
Proof.
  unfold ArrayPtr.index, bind, ptr_add, lvalue.
  destruct (ArrayPtr.raw_ptr_ a) as [|b off].
  - destruct (i =? 0); discriminate.
  - destruct (h !! b) as [arr|] eqn:Hb; [|discriminate].
    destruct ((0 <=? off + i) && (off + i <=? Z.of_nat (length arr))); [|discriminate].
    rewrite Hb. destruct ((0 <=? off + i) && (off + i <? Z.of_nat (length arr))); discriminate.
Qed.

Lemma load_Ptr h b off arr x :
  h !! b = Some arr ->
  0 <= off ->
  arr !! Z.to_nat off = Some x ->
  load (Ptr b off) h = Ok x h.
Proof.
  intros Hb Hoff Hx. unfold load. rewrite Hb, Hx.
  replace (0 <=? off) with true by lia. reflexivity.
Qed.

Lemma store_Ptr h b off arr x :
  h !! b = Some arr ->
  0 <= off < Z.of_nat (length arr) ->
  store (Ptr b off) x h = Ok tt (<[b := <[Z.to_nat off := x]> arr]> h).
Proof.
  intros Hb Hoff. unfold store. rewrite Hb.
  replace (0 <=? off) with true by lia.
  replace (off <? Z.of_nat (length arr)) with true by lia.
  reflexivity.
Qed.

Lemma fresh_block_free h : h !! fresh (dom h) = None.
Proof. apply not_elem_of_dom. apply is_fresh. Qed.

Lemma fresh_block_ne h b arr : h !! b = Some arr -> fresh (dom h) <> b.
Proof. intros Hb Heq. rewrite <- Heq, fresh_block_free in Hb. discriminate. Qed.

Lemma new_array_ok n h :
  n <= max_len ->
  new_array n h
  = Ok (Ptr (fresh (dom h)) 0)
       (<[fresh (dom h) := replicate (Z.to_nat n) default_init]> h).
Proof.
  intros Hn. unfold new_array. replace (max_len <? n) with false by lia. reflexivity.
Qed.

Lemma new_array_throw n h : max_len < n -> new_array n h = Throw bad_alloc h.
Proof.
  intros Hn. unfold new_array. replace (max_len <? n) with true by lia. reflexivity.
Qed.

Lemma delete_array_Ptr h b arr :
  h !! b = Some arr -> delete_array (Ptr b 0) h = Ok tt (delete b h).
Proof. intros Hb. unfold delete_array. rewrite Hb. reflexivity. Qed.

Lemma of_size_zero h : ArrayPtr.of_size 0 h = Ok ArrayPtr.default h.
Proof. reflexivity. Qed.

Lemma of_size_ok n h :
  0 < n <= max_len ->
  ArrayPtr.of_size n h
  = Ok {| ArrayPtr.raw_ptr_ := Ptr (fresh (dom h)) 0 |}
       (<[fresh (dom h) := replicate (Z.to_nat n) default_init]> h).
Proof.
  intros Hn. unfold ArrayPtr.of_size. replace (n =? 0) with false by lia.
  unfold bind. rewrite new_array_ok by lia. reflexivity.
Qed.

Lemma of_size_throw n h : max_len < n -> n <> 0 -> ArrayPtr.of_size n h = Throw bad_alloc h.
Proof.
  intros Hn Hn0. unfold ArrayPtr.of_size. replace (n =? 0) with false by lia.
  unfold bind. rewrite new_array_throw by lia. reflexivity.
Qed.

End Primitives.

(** ** Well-formed vectors *)

Section WellFormed.
Context {T : Type} `{Element T} `{Allocator}.
Implicit Types (h : heap T) (arr : list T) (b : block) (v : SimpleVector.t).

Lemma extent_owns h a c :
  extent h a = Some c <-> exists arr, owns h a arr /\ Z.of_nat (length arr) = c.
Proof.
  destruct a as [[|b off]]; unfold extent; cbn [ArrayPtr.raw_ptr_]; split.
  - intros Hc. inversion Hc; subst. exists []. split; [apply owns_null | reflexivity].
  - intros (arr & Ho & Hlen). inversion Ho; subst. reflexivity.
  - destruct (h !! b) as [arr|] eqn:Hb; [|discriminate].
    destruct (Z.eqb_spec off 0) as [->|]; [|discriminate].
    intros Hc. inversion Hc; subst. exists arr. split; [now apply owns_block | reflexivity].
  - intros (arr & Ho & Hlen). inversion Ho as [|? ? Hb]; subst. rewrite Hb. reflexivity.
Qed.

Lemma owns_buffer h a arr : owns h a arr -> buffer h a = arr.
Proof.
  intros [|b arr' Hb]; unfold buffer; cbn [ArrayPtr.raw_ptr_]; [reflexivity|].
  rewrite Hb. reflexivity.
Qed.

Lemma wf_owns h v :
  wf h v ->
  exists arr, owns h (SimpleVector.data_ v) arr
    /\ Z.of_nat (length arr) = SimpleVector.capacity_ v
    /\ 0 <= SimpleVector.size_ v <= SimpleVector.capacity_ v
    /\ SimpleVector.capacity_ v <= max_len.
Proof.
  intros [[Hext Hsize] Hmax]. apply extent_owns in Hext as (arr & Ho & Hlen).
  exists arr. auto.
Qed.

Lemma owns_wf h v arr :
  owns h (SimpleVector.data_ v) arr ->
  Z.of_nat (length arr) = SimpleVector.capacity_ v ->
  0 <= SimpleVector.size_ v <= SimpleVector.capacity_ v ->
  SimpleVector.capacity_ v <= max_len ->
  wf h v.
Proof.
  intros Ho Hlen Hsize Hmax. split; [split|]; auto.
  apply extent_owns. eauto.
Qed.

Lemma owns_elements h v arr :
  owns h (SimpleVector.data_ v) arr ->
  elements h v = take (Z.to_nat (SimpleVector.size_ v)) arr.
Proof. intros Ho. unfold elements. now rewrite (owns_buffer _ _ _ Ho). Qed.

(** Indexing below the capacity gives the cell of the buffer. *)
Lemma owns_index h a arr i :
  owns h a arr ->
  0 <= i < Z.of_nat (length arr) ->
  exists b, a = {| ArrayPtr.raw_ptr_ := Ptr b 0 |} /\ h !! b = Some arr
    /\ ArrayPtr.index a i h = Ok (Ptr b i) h.
Proof.
  intros [|b arr' Hb] Hi; [cbn in Hi; lia|].
  exists b. split; [reflexivity|]. split; [exact Hb|]. now apply index_Ptr with arr'.
Qed.

(** Pointers up to one past the end of the buffer can be formed. *)
Lemma owns_ptr_add h a arr n :
  owns h a arr ->
  0 <= n <= Z.of_nat (length arr) ->
  exists p, ptr_add (ArrayPtr.Get a) n h = Ok p h
    /\ ptr_diff p (ArrayPtr.Get a) h = Ok n h.
Proof.
  intros [|b arr' Hb] Hn; unfold ArrayPtr.Get; cbn [ArrayPtr.raw_ptr_].
  - cbn in Hn. assert (n = 0) as -> by lia. exists nullptr. split; reflexivity.
  - exists (Ptr b n). split.
    + rewrite (ptr_add_Ptr h b 0 n arr' Hb) by lia. reflexivity.
    + unfold ptr_diff. rewrite decide_True by reflexivity. f_equal. lia.
Qed.

End WellFormed.

(** ** Moving buffers and vectors *)

Section Moves.
Context {T : Type} `{Element T} `{Allocator}.
Implicit Types (h : heap T) (v : SimpleVector.t).

(** C9. Move-assigning an [ArrayPtr] to itself changes nothing: it owns
    the allocation it owned.  Move-assigning from a distinct [ArrayPtr]
    hands its allocation over and leaves that source holding
    [nullptr], the state that owns nothing. *)
Theorem ArrayPtr_move_assign_self_and_distinct h (a this other : ArrayPtr.t) :
  ArrayPtr.move_assign (Same a) = Same a
  /\ ArrayPtr.raw_ptr_ (this_of (ArrayPtr.move_assign (Distinct this other)))
     = ArrayPtr.raw_ptr_ other
  /\ extent h (this_of (ArrayPtr.move_assign (Distinct this other)))
     = extent h other
  /\ buffer h (this_of (ArrayPtr.move_assign (Distinct this other)))
     = buffer h other
  /\ other_of (ArrayPtr.move_assign (Distinct this other)) = ArrayPtr.default
  /\ extent h (other_of (ArrayPtr.move_assign (Distinct this other))) = Some 0.
Proof. repeat split. Qed.

(** C7, as amended.  Move-construction, and move-assignment from a
    distinct vector, leave the source with size 0, capacity 0 and no
    buffer, and give the destination the size, the capacity, the buffer
    and so the elements that the source had.  Move-assigning a vector
    to itself leaves it as it was. *)
Theorem move_transfers_and_empties_source h (other this v : SimpleVector.t) :
  (let r := SimpleVector.move_ctor other in
   SimpleVector.size_ (fst r) = SimpleVector.size_ other
   /\ SimpleVector.capacity_ (fst r) = SimpleVector.capacity_ other
   /\ SimpleVector.data_ (fst r) = SimpleVector.data_ other
   /\ elements h (fst r) = elements h other
   /\ snd r = SimpleVector.default)
  /\ (let r := SimpleVector.move_assign (Distinct this other) in
      SimpleVector.size_ (this_of r) = SimpleVector.size_ other
      /\ SimpleVector.capacity_ (this_of r) = SimpleVector.capacity_ other
      /\ SimpleVector.data_ (this_of r) = SimpleVector.data_ other
      /\ elements h (this_of r) = elements h other
      /\ other_of r = SimpleVector.default)
  /\ SimpleVector.move_assign (Same v) = Same v
  /\ SimpleVector.size_ SimpleVector.default = 0
  /\ SimpleVector.capacity_ SimpleVector.default = 0.
Proof.
  destruct other as [size capacity [raw]], this as [size' capacity' [raw']].
  repeat split.
Qed.

End Moves.

(** ** Checked access *)

Section Access.
Context {T : Type} `{Element T} `{Allocator}.
Implicit Types (h : heap T) (v : SimpleVector.t).

Lemma At_out_of_range h v i :
  SimpleVector.size_ v <= i -> SimpleVector.At i v h = Throw out_of_range h.
Proof.
  intros Hi. unfold SimpleVector.At.
  replace (SimpleVector.size_ v <=? i) with true by lia. reflexivity.
Qed.

Lemma At_in_range h v i :
  i < SimpleVector.size_ v -> SimpleVector.At i v h = SimpleVector.index i v h.
Proof.
  intros Hi. unfold SimpleVector.At.
  replace (SimpleVector.size_ v <=? i) with false by lia. reflexivity.
Qed.

(** Unchecked access to a logical element gives a reference to it. *)
Lemma index_element h v i :
  wf h v -> 0 <= i < SimpleVector.size_ v ->
  exists p x, SimpleVector.index i v h = Ok p h
    /\ load p h = Ok x h
    /\ elements h v !! Z.to_nat i = Some x.
Proof.
  intros Hwf Hi. apply wf_owns in Hwf as (arr & Ho & Hlen & Hsize & _).
  destruct (owns_index h _ arr i Ho) as (b & Hdata & Hb & Hidx); [lia|].
  destruct (lookup_lt_is_Some_2 arr (Z.to_nat i)) as [x Hx]; [lia|].
  exists (Ptr b i), x. split; [exact Hidx|]. split.
  - apply load_Ptr with arr; [exact Hb | lia | exact Hx].
  - rewrite (owns_elements _ _ _ Ho). rewrite lookup_take_lt by lia. exact Hx.
Qed.

(** C6. [At(i)] throws [out_of_range] exactly when [i >= size]; for
    [i < size] it does not throw and returns the reference that
    [operator[]] returns, which designates element [i].  Either way the
    free store is left as it was, and [At] assigns no member of the
    vector. *)
Theorem At_checks_the_index h v i :
  wf h v -> 0 <= i ->
  ((exists e h', SimpleVector.At i v h = Throw e h') <-> SimpleVector.size_ v <= i)
  /\ (SimpleVector.size_ v <= i -> SimpleVector.At i v h = Throw out_of_range h)
  /\ (i < SimpleVector.size_ v ->
      exists p x, SimpleVector.At i v h = Ok p h
        /\ SimpleVector.index i v h = Ok p h
        /\ load p h = Ok x h
        /\ elements h v !! Z.to_nat i = Some x).
Proof.
  intros Hwf Hi.
  assert (Hin : i < SimpleVector.size_ v ->
      exists p x, SimpleVector.At i v h = Ok p h
        /\ SimpleVector.index i v h = Ok p h
        /\ load p h = Ok x h
        /\ elements h v !! Z.to_nat i = Some x).
  { intros Hlt. destruct (index_element h v i Hwf) as (p & x & Hidx & Hload & Hx); [lia|].
    exists p, x. rewrite (At_in_range h v i Hlt). auto. }
  split; [|split].
  - split.
    + intros (e & h' & Hthrow). destruct (Z.le_gt_cases (SimpleVector.size_ v) i) as [|Hlt]; [assumption|].
      destruct (Hin Hlt) as (p & x & Hat & _). congruence.
    + intros Hge. exists out_of_range, h. now apply At_out_of_range.
  - apply At_out_of_range.
  - exact Hin.
Qed.

End Access.

(** ** The reservation constructor, equality and the narrowed capacity *)

Section Defects.
Context {T : Type} `{Element T} `{Allocator}.
Implicit Types (h : heap T) (v : SimpleVector.t).

(** C1, the failing input.  [SimpleVector(Reserve(k))] with [k > 0]
    sets the capacity to [k] and then asks [Reserve(k)] for nothing,
    because the capacity is no longer below [k]: the vector owns no
    buffer (extent 0) while its capacity is [k], so the invariant does
    not hold, and the first [PushBack] writes through [nullptr]. *)
Theorem of_reserve_allocates_nothing h (k : positive) (x : reference T) :
  exists v,
    SimpleVector.of_reserve (Reserve (Z.pos k)) h = Ok v h
    /\ SimpleVector.size_ v = 0
    /\ SimpleVector.capacity_ v = Z.pos k
    /\ extent h (SimpleVector.data_ v) = Some 0
    /\ ~ invariant h v
    /\ SimpleVector.PushBack x v h = UB.
Proof.
  exists {| SimpleVector.size_ := 0; SimpleVector.capacity_ := Z.pos k;
            SimpleVector.data_ := ArrayPtr.default |}.
  split.
  { unfold SimpleVector.of_reserve, SimpleVector.Reserve, Reserve.
    cbn [capacity_to_reserve SimpleVector.capacity_ SimpleVector.set_capacity_].
    rewrite Z.ltb_irrefl. reflexivity. }
  repeat split.
  - intros [Hext _]. cbn in Hext. inversion Hext.
  - unfold SimpleVector.PushBack, SimpleVector.PushBack_with.
    cbn [SimpleVector.size_ SimpleVector.capacity_].
    change (wrap (0 + 1)) with 1.
    destruct (Z.ltb_spec (Z.pos k) 1) as [Hk|Hk]; [pose proof (Pos2Z.is_pos k); lia|].
    reflexivity.
Qed.

(** C4, the failing input.  [Resize(2^31)] on an empty vector computes
    the new capacity in an [int]: [2^31] becomes [-2^31], which reads
    back as the [size_t] value [2^64 - 2^31]; no allocator grants that,
    so the call throws [bad_alloc] and the capacity stays 0, where the
    specification promises [max(2^31, 0) = 2^31]. *)
Theorem Resize_narrows_the_capacity h :
  to_int (Z.max (2 ^ 31) (wrap (0 * 2))) = - 2 ^ 31
  /\ of_int (- 2 ^ 31) = 2 ^ 64 - 2 ^ 31
  /\ SimpleVector.Resize (2 ^ 31) SimpleVector.default h = Throw bad_alloc h.
Proof.
  split; [reflexivity|]. split; [reflexivity|].
  unfold SimpleVector.Resize. cbn [SimpleVector.size_ SimpleVector.capacity_ SimpleVector.default].
  change (2 ^ 31 <=? 0) with false. cbv iota.
  change (of_int (to_int (Z.max (2 ^ 31) (wrap (0 * 2))))) with 18446744071562067968.
  apply bind_Throw. unfold ArrayPtr.of_size.
  change (18446744071562067968 =? 0) with false. cbv iota.
  apply bind_Throw. apply new_array_throw.
  pose proof max_len_ptrdiff. lia.
Qed.

(** Why [operator==] fails its specification: it walks the range of
    [lhs] only, so an empty vector equals every well-formed vector. *)
Lemma operator_eq_of_empty h lhs rhs :
  wf h lhs -> wf h rhs -> SimpleVector.size_ lhs = 0 ->
  SimpleVector.operator_eq lhs rhs h = Ok true h.
Proof.
  intros Hwf Hwf' Hempty. apply wf_owns in Hwf as (arr & Ho & _).
  apply wf_owns in Hwf' as (arr' & Ho' & _).
  destruct (owns_ptr_add h _ arr 0 Ho ltac:(lia)) as (last & Hlast & Hdiff).
  destruct (owns_ptr_add h _ arr' 0 Ho' ltac:(lia)) as (last' & Hlast' & _).
  unfold SimpleVector.operator_eq, SimpleVector.end_, SimpleVector.begin_, std_equal.
  rewrite Hempty. rewrite (bind_Ok _ _ _ _ _ Hlast).
  rewrite (bind_Ok _ _ _ _ _ Hdiff). cbn [Z.leb Z.compare assert]. 
  change ((ret tt : M (heap T) unit) ;; ?k) with k.
  rewrite (bind_Ok _ _ _ _ _ Hlast'). reflexivity.
Qed.

End Defects.

(** ** Element assignment and the algorithms *)

Section Algorithms.
Context {T : Type} `{Element T} `{Allocator}.
Implicit Types (h t : heap T) (arr A D : list T) (b : block).

(** Assignment between cells of two arrays. *)
Lemma assign_elem_blocks moving t bs bd A D s d x :
  bs <> bd ->
  t !! bs = Some A ->
  t !! bd = Some D ->
  0 <= s -> A !! Z.to_nat s = Some x ->
  0 <= d < Z.of_nat (length D) ->
  assign_elem moving (Ptr bd d) (Ptr bs s) t
  = Ok tt (<[bd := <[Z.to_nat d := x]> D]>
             (if moving then <[bs := <[Z.to_nat s := moved_from x]> A]> t else t)).
Proof.
  intros Hne Hs Hd Hs0 Hx Hd0.
  assert (Hslen : s < Z.of_nat (length A)).
  { apply lookup_lt_Some in Hx. lia. }
  destruct moving; unfold assign_elem, move_elem, copy_elem.
  - rewrite (bind_Ok _ _ _ _ _ (load_Ptr t bs s A x Hs Hs0 Hx)).
    rewrite (bind_Ok _ _ _ _ _ (store_Ptr t bs s A _ Hs ltac:(lia))).
    apply store_Ptr. + now rewrite lookup_insert_ne. + exact Hd0.
  - rewrite (bind_Ok _ _ _ _ _ (load_Ptr t bs s A x Hs Hs0 Hx)).
    now apply store_Ptr.
Qed.

(** Assignment between two cells of one array. *)
Lemma assign_elem_within moving t b A s d x :
  t !! b = Some A ->
  0 <= s -> A !! Z.to_nat s = Some x ->
  0 <= d < Z.of_nat (length A) ->
  assign_elem moving (Ptr b d) (Ptr b s) t
  = Ok tt (<[b := <[Z.to_nat d := x]>
                    (if moving then <[Z.to_nat s := moved_from x]> A else A)]> t).
Proof.
  intros Hb Hs0 Hx Hd0.
  assert (Hslen : s < Z.of_nat (length A)).
  { apply lookup_lt_Some in Hx. lia. }
  destruct moving; unfold assign_elem, move_elem, copy_elem.
  - rewrite (bind_Ok _ _ _ _ _ (load_Ptr t b s A x Hb Hs0 Hx)).
    rewrite (bind_Ok _ _ _ _ _ (store_Ptr t b s A _ Hb ltac:(lia))).
    erewrite store_Ptr.
    + rewrite insert_insert_eq. reflexivity.
    + apply lookup_insert_eq.
    + rewrite length_insert. exact Hd0.
  - rewrite (bind_Ok _ _ _ _ _ (load_Ptr t b s A x Hb Hs0 Hx)).
    now apply store_Ptr.
Qed.

Lemma transferred_cells moving t0 bs bd A D s d k t :
  transferred moving t0 bs bd A D s d k t ->
  exists A' D', t !! bs = Some A' /\ t !! bd = Some D'
    /\ length A' = length A /\ length D' = length D.
Proof. intros (A' & D' & HA' & HD' & HlA & HlD & _). eauto 7. Qed.

Lemma transferred_start moving t bs bd A D s d :
  t !! bs = Some A -> t !! bd = Some D -> transferred moving t bs bd A D s d 0 t.
Proof.
  intros HA HD. exists A, D. repeat split; auto. intros j Hj. lia.
Qed.

(** One more cell of a transfer between two arrays. *)
Lemma transferred_step moving t0 bs bd A D s d k t :
  bs <> bd ->
  transferred moving t0 bs bd A D s d k t ->
  0 <= k -> 0 <= s -> s + k < Z.of_nat (length A) ->
  0 <= d -> d + k < Z.of_nat (length D) ->
  exists t',
    assign_elem moving (Ptr bd (d + k)) (Ptr bs (s + k)) t = Ok tt t'
    /\ transferred moving t0 bs bd A D s d (k + 1) t'.
Proof.
  intros Hne (A' & D' & HA' & HD' & HlA & HlD & Hcopied & Hrest & Hsrc & Hother & Hsame)
    Hk Hs HsA Hd HdD.
  destruct (lookup_lt_is_Some_2 A (Z.to_nat (s + k))) as [x Hx]; [lia|].
  assert (Hx' : A' !! Z.to_nat (s + k) = Some x).
  { rewrite Hsrc; [exact Hx | lia]. }
  eexists. split.
  - apply (assign_elem_blocks moving t bs bd A' D' (s + k) (d + k) x); auto; lia.
  - exists (if moving then <[Z.to_nat (s + k) := moved_from x]> A' else A'),
           (<[Z.to_nat (d + k) := x]> D').
    split; [|split; [|split; [|split; [|split; [|split; [|split; [|split]]]]]]].
    + rewrite lookup_insert_ne by auto.
      destruct moving; [apply lookup_insert_eq | exact HA'].
    + apply lookup_insert_eq.
    + destruct moving; [rewrite length_insert|]; exact HlA.
    + rewrite length_insert. exact HlD.
    + intros j Hj. destruct (decide (j = Z.to_nat (d + k))) as [->|Hjk].
      * rewrite list_lookup_insert_eq by lia. rewrite <- Hx. f_equal. lia.
      * rewrite list_lookup_insert_ne by auto. apply Hcopied. lia.
    + intros j Hj. rewrite list_lookup_insert_ne by lia. apply Hrest. lia.
    + intros j Hj. destruct moving; [rewrite list_lookup_insert_ne by lia|]; apply Hsrc; lia.
    + intros b Hbs Hbd. rewrite lookup_insert_ne by auto.
      destruct moving; [rewrite lookup_insert_ne by auto|]; now apply Hother.
    + intros ->. now apply Hsame.
Qed.

Lemma transfer_blocks moving t bs bd A D s e d :
  bs <> bd ->
  t !! bs = Some A ->
  t !! bd = Some D ->
  0 <= s <= e -> e <= Z.of_nat (length A) ->
  0 <= d -> d + (e - s) <= Z.of_nat (length D) ->
  exists t',
    transfer moving (Ptr bs s) (Ptr bs e) (Ptr bd d) t = Ok (Ptr bd (d + (e - s))) t'
    /\ transferred moving t bs bd A D s d (e - s) t'.
Proof.
  intros Hne HA HD Hse He Hd Hde. unfold transfer.
  assert (Hdiff : ptr_diff (Ptr bs e) (Ptr bs s) t = Ok (e - s) t).
  { unfold ptr_diff. now rewrite decide_True. }
  rewrite (bind_Ok _ _ _ _ _ Hdiff).
  rewrite (bind_Ok _ _ _ _ _ (assert_leb 0 (e - s) t ltac:(lia))).
  destruct (for_loop_invariant (transferred moving t bs bd A D s d)
              (fun i => src <- ptr_add (Ptr bs s) i ;;
                        dst <- ptr_add (Ptr bd d) i ;;
                        assign_elem moving dst src) 0 (e - s) t)
    as (t' & Hrun & Hpost).
  - lia.
  - now apply transferred_start.
  - intros k u Hk Htr.
    destruct (transferred_cells _ _ _ _ _ _ _ _ _ _ Htr) as (A' & D' & HA' & HD' & HlA & HlD).
    destruct (transferred_step moving _ _ _ _ _ _ _ _ _ Hne Htr) as (u' & Hstep & Htr');
      try lia.
    exists u'. split; [|exact Htr'].
    rewrite (bind_Ok _ _ _ _ _ (ptr_add_Ptr u bs s k A' HA' ltac:(lia))).
    rewrite (bind_Ok _ _ _ _ _ (ptr_add_Ptr u bd d k D' HD' ltac:(lia))).
    exact Hstep.
  - exists t'. split; [|exact Hpost].
    rewrite (bind_Ok _ _ _ _ _ Hrun).
    destruct Hpost as (A' & D' & _ & HD' & _ & HlD & _).
    apply (ptr_add_Ptr t' bd d (e - s) D' HD'). lia.
Qed.

End Algorithms.

Section Shifts.
Context {T : Type} `{Element T} `{Allocator}.
Implicit Types (h t : heap T) (arr A D : list T) (b : block).

Lemma transfer_down moving t b A s e d :
  t !! b = Some A ->
  0 <= d < s -> s <= e -> e <= Z.of_nat (length A) ->
  exists t',
    transfer moving (Ptr b s) (Ptr b e) (Ptr b d) t = Ok (Ptr b (d + (e - s))) t'
    /\ shifted_down t b A s d (e - s) t'.
Proof.
  intros HA Hd Hse He. unfold transfer.
  assert (Hdiff : ptr_diff (Ptr b e) (Ptr b s) t = Ok (e - s) t).
  { unfold ptr_diff. now rewrite decide_True. }
  rewrite (bind_Ok _ _ _ _ _ Hdiff).
  rewrite (bind_Ok _ _ _ _ _ (assert_leb 0 (e - s) t ltac:(lia))).
  destruct (for_loop_invariant (shifted_down t b A s d)
              (fun i => src <- ptr_add (Ptr b s) i ;;
                        dst <- ptr_add (Ptr b d) i ;;
                        assign_elem moving dst src) 0 (e - s) t)
    as (t' & Hrun & Hpost).
  - lia.
  - exists A. split; [now rewrite insert_id|]. repeat split; auto. intros j Hj. lia.
  - intros k u Hk (A' & -> & HlA & Hnew & Hlow & Hrest).
    assert (HA' : (<[b := A']> t : heap T) !! b = Some A') by apply lookup_insert_eq.
    destruct (lookup_lt_is_Some_2 A (Z.to_nat (s + k))) as [x Hx]; [lia|].
    assert (Hx' : A' !! Z.to_nat (s + k) = Some x).
    { rewrite Hrest; [exact Hx | lia | lia]. }
    eexists. split.
    + rewrite (bind_Ok _ _ _ _ _ (ptr_add_Ptr _ b s k A' HA' ltac:(lia))).
      rewrite (bind_Ok _ _ _ _ _ (ptr_add_Ptr _ b d k A' HA' ltac:(lia))).
      apply (assign_elem_within moving _ b A' (s + k) (d + k) x); auto; lia.
    + eexists. split; [apply insert_insert_eq|].
      split; [|split; [|split]].
      * rewrite length_insert. destruct moving; [rewrite length_insert|]; exact HlA.
      * intros j Hj. destruct (decide (j = Z.to_nat (d + k))) as [->|Hjk].
        -- rewrite list_lookup_insert_eq
             by (destruct moving; [rewrite length_insert|]; lia).
           rewrite <- Hx. f_equal. lia.
        -- rewrite list_lookup_insert_ne by auto.
           destruct moving; [rewrite list_lookup_insert_ne by lia|]; apply Hnew; lia.
      * intros j Hj. rewrite list_lookup_insert_ne by lia.
        destruct moving; [rewrite list_lookup_insert_ne by lia|]; now apply Hlow.
      * intros j Hj Hout. rewrite list_lookup_insert_ne by lia.
        destruct moving; [rewrite list_lookup_insert_ne by lia|]; apply Hrest; lia.
  - exists t'. split; [|exact Hpost].
    rewrite (bind_Ok _ _ _ _ _ Hrun).
    destruct Hpost as (A' & -> & HlA & _).
    apply (ptr_add_Ptr _ b d (e - s) A'); [apply lookup_insert_eq | lia].
Qed.

Lemma transfer_up moving t b A s e delta :
  t !! b = Some A ->
  0 <= s <= e -> 0 < delta -> e + delta <= Z.of_nat (length A) ->
  exists t',
    transfer_backward moving (Ptr b s) (Ptr b e) (Ptr b (e + delta)) t
    = Ok (Ptr b (s + delta)) t'
    /\ shifted_up moving t b A e delta (e - s) t'.
Proof.
  intros HA Hse Hdelta He. unfold transfer_backward.
  assert (Hdiff : ptr_diff (Ptr b e) (Ptr b s) t = Ok (e - s) t).
  { unfold ptr_diff. now rewrite decide_True. }
  rewrite (bind_Ok _ _ _ _ _ Hdiff).
  rewrite (bind_Ok _ _ _ _ _ (assert_leb 0 (e - s) t ltac:(lia))).
  destruct (for_loop_invariant (shifted_up moving t b A e delta)
              (fun i => src <- ptr_add (Ptr b e) (- (i + 1)) ;;
                        dst <- ptr_add (Ptr b (e + delta)) (- (i + 1)) ;;
                        assign_elem moving dst src) 0 (e - s) t)
    as (t' & Hrun & Hpost).
  - lia.
  - exists A. split; [now rewrite insert_id|]. repeat split; auto. intros j Hj. lia.
  - intros k u Hk (A' & -> & HlA & Hnew & Hhigh & Hrest & Hkept).
    assert (HA' : (<[b := A']> t : heap T) !! b = Some A') by apply lookup_insert_eq.
    destruct (lookup_lt_is_Some_2 A (Z.to_nat (e - k - 1))) as [x Hx]; [lia|].
    assert (Hx' : A' !! Z.to_nat (e + - (k + 1)) = Some x).
    { replace (e + - (k + 1)) with (e - k - 1) by lia.
      rewrite Hrest; [exact Hx | lia | lia]. }
    eexists. split.
    + rewrite (bind_Ok _ _ _ _ _ (ptr_add_Ptr _ b e (- (k + 1)) A' HA' ltac:(lia))).
      rewrite (bind_Ok _ _ _ _ _ (ptr_add_Ptr _ b (e + delta) (- (k + 1)) A' HA' ltac:(lia))).
      apply (assign_elem_within moving _ b A' (e + - (k + 1)) (e + delta + - (k + 1)) x);
        auto; lia.
    + eexists. split; [apply insert_insert_eq|].
      split; [|split; [|split; [|split]]].
      * rewrite length_insert. destruct moving; [rewrite length_insert|]; exact HlA.
      * intros j Hj.
        destruct (decide (j = Z.to_nat (e + delta + - (k + 1)))) as [->|Hjk].
        -- rewrite list_lookup_insert_eq
             by (destruct moving; [rewrite length_insert|]; lia).
           rewrite <- Hx. f_equal. lia.
        -- rewrite list_lookup_insert_ne by auto.
           destruct moving; [rewrite list_lookup_insert_ne by lia|]; apply Hnew; lia.
      * intros j Hj. rewrite list_lookup_insert_ne by lia.
        destruct moving; [rewrite list_lookup_insert_ne by lia|]; now apply Hhigh.
      * intros j Hj Hout. rewrite list_lookup_insert_ne by lia.
        destruct moving; [rewrite list_lookup_insert_ne by lia|]; apply Hrest; lia.
      * intros -> j Hj. rewrite list_lookup_insert_ne by lia. apply Hkept; [reflexivity | lia].
  - exists t'. split; [|exact Hpost].
    rewrite (bind_Ok _ _ _ _ _ Hrun).
    destruct Hpost as (A' & -> & HlA & _).
    replace (s + delta) with (e + delta + - (e - s)) by lia.
    apply (ptr_add_Ptr _ b (e + delta) (- (e - s)) A'); [apply lookup_insert_eq | lia].
Qed.

(** A transfer of an empty range does nothing. *)
Lemma transfer_nothing moving (first d_first : pointer) t :
  ptr_diff first first t = Ok 0 t ->
  ptr_add d_first 0 t = Ok d_first t ->
  transfer moving first first d_first t = Ok d_first t.
Proof.
  intros Hdiff Hadd. unfold transfer.
  rewrite (bind_Ok _ _ _ _ _ Hdiff).
  rewrite (bind_Ok _ _ _ _ _ (assert_leb 0 0 t ltac:(lia))).
  rewrite (bind_Ok _ _ _ _ _ (for_loop_empty _ 0 0 t ltac:(lia))).
  exact Hadd.
Qed.

(** [std::fill] over cells of one array keeps its length and every
    other array. *)
Lemma std_fill_block t b A s e value :
  t !! b = Some A ->
  0 <= s <= e -> e <= Z.of_nat (length A) ->
  exists A',
    std_fill (Ptr b s) (Ptr b e) value t = Ok tt (<[b := A']> t)
    /\ length A' = length A
    /\ (forall j : nat, s <= Z.of_nat j < e -> A' !! j = Some value)
    /\ (forall j : nat, ~ s <= Z.of_nat j < e -> A' !! j = A !! j).
Proof.
  intros HA Hse He. unfold std_fill.
  assert (Hdiff : ptr_diff (Ptr b e) (Ptr b s) t = Ok (e - s) t).
  { unfold ptr_diff. now rewrite decide_True. }
  rewrite (bind_Ok _ _ _ _ _ Hdiff).
  rewrite (bind_Ok _ _ _ _ _ (assert_leb 0 (e - s) t ltac:(lia))).
  destruct (for_loop_invariant
              (fun k u => exists A', u = <[b := A']> t /\ length A' = length A
                 /\ (forall j : nat, s <= Z.of_nat j < s + k -> A' !! j = Some value)
                 /\ (forall j : nat, ~ s <= Z.of_nat j < s + k -> A' !! j = A !! j))
              (fun i => dst <- ptr_add (Ptr b s) i ;; store dst value) 0 (e - s) t)
    as (t' & Hrun & A' & -> & HlA & Hin & Hout).
  - lia.
  - exists A. split; [now rewrite insert_id|]. repeat split; auto. intros j Hj. lia.
  - intros k u Hk (A' & -> & HlA & Hin & Hout).
    assert (HA' : (<[b := A']> t : heap T) !! b = Some A') by apply lookup_insert_eq.
    eexists. split.
    + rewrite (bind_Ok _ _ _ _ _ (ptr_add_Ptr _ b s k A' HA' ltac:(lia))).
      apply (store_Ptr _ b (s + k) A'); [exact HA' | lia].
    + eexists. split; [apply insert_insert_eq|]. split; [|split].
      * rewrite length_insert. exact HlA.
      * intros j Hj. destruct (decide (j = Z.to_nat (s + k))) as [->|Hjk].
        -- apply list_lookup_insert_eq. lia.
        -- rewrite list_lookup_insert_ne by auto. apply Hin. lia.
      * intros j Hj. rewrite list_lookup_insert_ne by lia. apply Hout. lia.
  - exists A'. split; [exact Hrun|]. split; [exact HlA|]. split.
    + intros j Hj. apply Hin. lia.
    + intros j Hj. apply Hout. lia.
Qed.

End Shifts.

(** ** Lists read cell by cell *)

Lemma take_ext {A} (l l' : list A) (n : nat) :
  (forall j : nat, (j < n)%nat -> l !! j = l' !! j) -> take n l = take n l'.
Proof.
  intros Hj. apply list_eq. intros j.
  destruct (decide (j < n)%nat) as [Hlt|Hge].
  - rewrite !lookup_take_lt by exact Hlt. now apply Hj.
  - rewrite !lookup_take_ge by lia. reflexivity.
Qed.

(** ** Growing the buffer *)

Section Growth.
Context {T : Type} `{Element T} `{Allocator}.
Implicit Types (h t : heap T) (arr A D : list T) (b : block) (v : SimpleVector.t).

Lemma evolves_refl h a : evolves h a h a.
Proof. intros b arr Hb Hne. auto. Qed.

Lemma evolves_trans h a h1 a1 h2 a2 :
  evolves h a h1 a1 -> evolves h1 a1 h2 a2 -> evolves h a h2 a2.
Proof.
  intros H1 H2 b arr Hb Hne. destruct (H1 b arr Hb Hne) as [Hb1 Hne1].
  now apply H2.
Qed.

(** Writing into the array of the buffer is a step that keeps the rest. *)
Lemma evolves_insert h b A' :
  evolves h {| ArrayPtr.raw_ptr_ := Ptr b 0 |} (<[b := A']> h)
    {| ArrayPtr.raw_ptr_ := Ptr b 0 |}.
Proof.
  intros b' arr Hb' Hne. cbn in Hne. split; [|exact Hne].
  rewrite lookup_insert_ne by congruence. exact Hb'.
Qed.

(** [ReallocateAndMoveData] to a capacity that holds the elements: the
    vector gets a fresh array of that length whose first [size_] cells
    are the elements, and its old array is deleted. *)
Lemma ReallocateAndMoveData_spec h v new_capacity :
  wf h v ->
  SimpleVector.size_ v <= new_capacity ->
  0 < new_capacity <= max_len ->
  exists b' D h',
    SimpleVector.ReallocateAndMoveData new_capacity v h
    = Ok {| SimpleVector.size_ := SimpleVector.size_ v;
            SimpleVector.capacity_ := new_capacity;
            SimpleVector.data_ := {| ArrayPtr.raw_ptr_ := Ptr b' 0 |} |} h'
    /\ h !! b' = None
    /\ h' !! b' = Some D
    /\ Z.of_nat (length D) = new_capacity
    /\ take (Z.to_nat (SimpleVector.size_ v)) D = elements h v
    /\ evolves h (SimpleVector.data_ v) h' {| ArrayPtr.raw_ptr_ := Ptr b' 0 |}.
Proof.
  intros Hwf Hsize Hcap. destruct v as [size capacity data].
  apply wf_owns in Hwf as (arr & Ho & Hlen & Hsz & Hmax).
  cbn [SimpleVector.size_ SimpleVector.data_ SimpleVector.capacity_] in *.
  unfold SimpleVector.ReallocateAndMoveData.
  cbn [SimpleVector.size_ SimpleVector.data_ SimpleVector.capacity_].
  set (b' := fresh (dom h)).
  set (D0 := replicate (Z.to_nat new_capacity) default_init).
  set (h1 := <[b' := D0]> h).
  assert (Hfree : h !! b' = None) by apply fresh_block_free.
  assert (Hb'1 : h1 !! b' = Some D0) by apply lookup_insert_eq.
  assert (HlD0 : Z.of_nat (length D0) = new_capacity).
  { unfold D0. rewrite length_replicate. lia. }
  rewrite (bind_Ok _ _ _ _ _ (of_size_ok new_capacity h Hcap)).
  fold b' D0 h1.
  replace (Z.min size new_capacity) with size by lia.
  pose proof Ho as Hown. destruct Ho as [|b arr' Hb].
  - (* no old buffer: nothing to move *)
    cbn in Hlen. assert (size = 0) as -> by lia.
    rewrite (bind_Ok _ _ _ _ _ (for_loop_empty _ 0 0 h1 ltac:(lia))).
    exists b', D0, h1. split; [reflexivity|].
    split; [exact Hfree|]. split; [exact Hb'1|]. split; [exact HlD0|]. split.
    + unfold elements. cbn. now rewrite take_0.
    + intros b arr Hb Hne. split.
      * unfold h1. rewrite lookup_insert_ne; [exact Hb | congruence].
      * cbn. congruence.
  - (* an old array [b] *)
    assert (Hne : b <> b') by congruence.
    assert (Hb1 : h1 !! b = Some arr').
    { unfold h1. rewrite lookup_insert_ne by auto. exact Hb. }
    destruct (for_loop_invariant (transferred true h1 b b' arr' D0 0 0)
                (fun i => src <- ArrayPtr.index {| ArrayPtr.raw_ptr_ := Ptr b 0 |} i ;;
                          dst <- ArrayPtr.index {| ArrayPtr.raw_ptr_ := Ptr b' 0 |} i ;;
                          move_elem dst src) 0 size h1)
      as (u & Hrun & Hpost).
    + lia.
    + now apply transferred_start.
    + intros k t Hk Htr.
      destruct (transferred_cells _ _ _ _ _ _ _ _ _ _ Htr) as (A' & D' & HA' & HD' & HlA & HlD).
      destruct (transferred_step true _ _ _ _ _ _ _ _ _ Hne Htr) as (t' & Hstep & Htr');
        try lia.
      exists t'. split; [|exact Htr'].
      rewrite (bind_Ok _ _ _ _ _ (index_Ptr t b k A' HA' ltac:(lia))).
      rewrite (bind_Ok _ _ _ _ _ (index_Ptr t b' k D' HD' ltac:(lia))).
      exact Hstep.
    + rewrite (bind_Ok _ _ _ _ _ Hrun).
      destruct Hpost as (A' & D' & HA' & HD' & HlA & HlD & Hcopied & Hrest & Hsrc & Hother & _).
      cbn [ArrayPtr.swap this_of other_of SimpleVector.set_data_ SimpleVector.set_capacity_
           SimpleVector.size_ SimpleVector.capacity_ SimpleVector.data_ ArrayPtr.raw_ptr_].
      unfold ArrayPtr.dtor. cbn [ArrayPtr.raw_ptr_].
      rewrite (bind_Ok _ _ _ _ _ (delete_array_Ptr u b A' HA')).
      exists b', D', (delete b u). split; [reflexivity|].
      split; [exact Hfree|].
      split; [rewrite lookup_delete_ne by auto; exact HD'|].
      split; [lia|]. split.
      * unfold elements. cbn [SimpleVector.size_ SimpleVector.data_].
        rewrite (owns_buffer _ _ _ Hown).
        apply take_ext. intros j Hj. rewrite (Hcopied j) by lia. f_equal. lia.
      * intros b'' arr'' Hb'' Hne''. cbn in Hne''. split.
        -- rewrite lookup_delete_ne by congruence.
           rewrite Hother; [|congruence|congruence].
           unfold h1. rewrite lookup_insert_ne by congruence. exact Hb''.
        -- cbn. congruence.
Qed.

End Growth.

Section ReserveAndPushBack.
Context {T : Type} `{Element T} `{Allocator}.
Implicit Types (h t : heap T) (arr A D : list T) (b : block) (v : SimpleVector.t).

Lemma size_t_fits z : 0 <= z <= 2 * max_len + 1 -> wrap z = z.
Proof.
  intros Hz. apply wrap_small. pose proof max_len_ptrdiff.
  rewrite size_t_modulus_eq. lia.
Qed.

(** [data_[i] = x] *)
Lemma store_at h b D i x :
  h !! b = Some D ->
  0 <= i < Z.of_nat (length D) ->
  (dst <- ArrayPtr.index {| ArrayPtr.raw_ptr_ := Ptr b 0 |} i ;; store dst x) h
  = Ok tt (<[b := <[Z.to_nat i := x]> D]> h).
Proof.
  intros Hb Hi. rewrite (bind_Ok _ _ _ _ _ (index_Ptr h b i D Hb Hi)).
  now apply store_Ptr.
Qed.

Lemma take_push {X} (l : list X) (n : nat) (x : X) :
  (n < length l)%nat -> take (Datatypes.S n) (<[n := x]> l) = take n l ++ [x].
Proof.
  intros Hn. rewrite (take_S_r _ _ x) by now apply list_lookup_insert_eq.
  now rewrite take_insert_ge by lia.
Qed.

(** A vector whose buffer is the whole array [b]. *)
Lemma wf_block h b D size capacity :
  h !! b = Some D ->
  Z.of_nat (length D) = capacity ->
  0 <= size <= capacity -> capacity <= max_len ->
  wf h {| SimpleVector.size_ := size; SimpleVector.capacity_ := capacity;
          SimpleVector.data_ := {| ArrayPtr.raw_ptr_ := Ptr b 0 |} |}.
Proof.
  intros Hb Hlen Hsize Hmax. apply owns_wf with D; auto. now apply owns_block.
Qed.

Lemma elements_block h b D size capacity :
  h !! b = Some D ->
  elements h {| SimpleVector.size_ := size; SimpleVector.capacity_ := capacity;
                SimpleVector.data_ := {| ArrayPtr.raw_ptr_ := Ptr b 0 |} |}
  = take (Z.to_nat size) D.
Proof. intros Hb. unfold elements, buffer. cbn. now rewrite Hb. Qed.

(** The member [Reserve]: nothing to do up to the capacity; above it, a
    reallocation to exactly the requested capacity. *)
Lemma Reserve_within h v new_capacity :
  new_capacity <= SimpleVector.capacity_ v ->
  SimpleVector.Reserve new_capacity v h = Ok v h.
Proof.
  intros Hle. unfold SimpleVector.Reserve.
  replace (SimpleVector.capacity_ v <? new_capacity) with false by lia. reflexivity.
Qed.

Lemma Reserve_grow h v new_capacity :
  wf h v ->
  SimpleVector.capacity_ v < new_capacity <= max_len ->
  exists v' h',
    SimpleVector.Reserve new_capacity v h = Ok v' h'
    /\ SimpleVector.size_ v' = SimpleVector.size_ v
    /\ SimpleVector.capacity_ v' = new_capacity
    /\ wf h' v'
    /\ elements h' v' = elements h v
    /\ evolves h (SimpleVector.data_ v) h' (SimpleVector.data_ v').
Proof.
  intros Hwf Hcap. pose proof Hwf as [[_ Hsize] _].
  destruct (ReallocateAndMoveData_spec h v new_capacity Hwf)
    as (b' & D & h' & Hrun & Hfree & Hb' & Hlen & Hels & Hev); [lia | lia |].
  eexists _, h'. split.
  - unfold SimpleVector.Reserve.
    replace (SimpleVector.capacity_ v <? new_capacity) with true by lia. exact Hrun.
  - split; [reflexivity|]. split; [reflexivity|]. split; [|split].
    + apply wf_block with D; auto; lia.
    + rewrite (elements_block h' b' D _ _ Hb'). exact Hels.
    + exact Hev.
Qed.

Lemma Reserve_throw h v new_capacity :
  wf h v ->
  SimpleVector.capacity_ v < new_capacity -> max_len < new_capacity ->
  SimpleVector.Reserve new_capacity v h = Throw bad_alloc h.
Proof.
  intros [[_ Hsize] _] Hcap Hmax. unfold SimpleVector.Reserve.
  replace (SimpleVector.capacity_ v <? new_capacity) with true by lia.
  unfold SimpleVector.ReallocateAndMoveData. apply bind_Throw.
  apply of_size_throw; [exact Hmax | lia].
Qed.

(** [PushBack] below the capacity writes the cell at [size_] of the
    same buffer. *)
Lemma PushBack_within h v x :
  wf h v ->
  SimpleVector.size_ v < SimpleVector.capacity_ v ->
  exists h',
    SimpleVector.PushBack (Elsewhere x) v h
    = Ok (SimpleVector.set_size_ (SimpleVector.size_ v + 1) v) h'
    /\ wf h' (SimpleVector.set_size_ (SimpleVector.size_ v + 1) v)
    /\ elements h' (SimpleVector.set_size_ (SimpleVector.size_ v + 1) v)
       = elements h v ++ [x]
    /\ evolves h (SimpleVector.data_ v) h' (SimpleVector.data_ v).
Proof.
  intros Hwf Hlt. destruct v as [size capacity data].
  apply wf_owns in Hwf as (arr & Ho & Hlen & Hsz & Hmax).
  cbn [SimpleVector.size_ SimpleVector.data_ SimpleVector.capacity_] in *.
  pose proof Ho as Hown. destruct Ho as [|b arr Hb]; [cbn in Hlen; lia|].
  exists (<[b := <[Z.to_nat size := x]> arr]> h).
  assert (Hb' : (<[b := <[Z.to_nat size := x]> arr]> h : heap T) !! b
                = Some (<[Z.to_nat size := x]> arr)) by apply lookup_insert_eq.
  split; [|split; [|split]].
  - unfold SimpleVector.PushBack, SimpleVector.PushBack_with. cbn [assign_arg].
    cbn [SimpleVector.size_ SimpleVector.data_ SimpleVector.capacity_].
    rewrite (size_t_fits (size + 1)) by lia.
    replace (capacity <? size + 1) with false by lia.
    rewrite bind_ret. cbn [SimpleVector.size_ SimpleVector.data_].
    pose proof (store_at h b arr size x Hb ltac:(lia)) as Hstore.
    unfold bind in Hstore |- *.
    destruct (ArrayPtr.index {| ArrayPtr.raw_ptr_ := Ptr b 0 |} size h) as [p t| |];
      try discriminate.
    rewrite Hstore. reflexivity.
  - apply wf_block with (<[Z.to_nat size := x]> arr); fields;
      [exact Hb' | rewrite length_insert; lia | lia | lia].
  - fields. rewrite (elements_block _ b _ _ _ Hb').
    unfold elements. fields.
    rewrite (owns_buffer _ _ _ Hown).
    replace (Z.to_nat (size + 1)) with (Datatypes.S (Z.to_nat size)) by lia.
    apply take_push. lia.
  - apply evolves_insert.
Qed.

(** [PushBack] at full capacity reallocates: to capacity 1 from
    capacity 0, else to twice the capacity. *)
Lemma PushBack_grow h v x :
  wf h v ->
  SimpleVector.size_ v = SimpleVector.capacity_ v ->
  grown (SimpleVector.capacity_ v) <= max_len ->
  exists v' h',
    SimpleVector.PushBack (Elsewhere x) v h = Ok v' h'
    /\ SimpleVector.size_ v' = SimpleVector.size_ v + 1
    /\ SimpleVector.capacity_ v' = grown (SimpleVector.capacity_ v)
    /\ wf h' v'
    /\ elements h' v' = elements h v ++ [x]
    /\ evolves h (SimpleVector.data_ v) h' (SimpleVector.data_ v').
Proof.
  intros Hwf Hfull Hfit. pose proof Hwf as [[_ Hsize] Hmax].
  assert (Hnew : (if negb (SimpleVector.capacity_ v =? 0)
                  then Z.max (SimpleVector.size_ v + 1) (wrap (2 * SimpleVector.capacity_ v))
                  else 1) = grown (SimpleVector.capacity_ v)).
  { unfold grown. destruct (Z.eqb_spec (SimpleVector.capacity_ v) 0); cbn [negb]; [reflexivity|].
    rewrite size_t_fits by lia. lia. }
  assert (Hpos : SimpleVector.size_ v + 1 <= grown (SimpleVector.capacity_ v)).
  { unfold grown. destruct (Z.eqb_spec (SimpleVector.capacity_ v) 0); lia. }
  destruct (ReallocateAndMoveData_spec h v (grown (SimpleVector.capacity_ v)) Hwf)
    as (b' & D & h1 & Hrun & Hfree & Hb' & Hlen & Hels & Hev); [lia | lia |].
  set (size := SimpleVector.size_ v) in *.
  eexists _, (<[b' := <[Z.to_nat size := x]> D]> h1).
  assert (Hb2 : (<[b' := <[Z.to_nat size := x]> D]> h1 : heap T) !! b'
                = Some (<[Z.to_nat size := x]> D)) by apply lookup_insert_eq.
  split; [|split; [|split; [|split; [|split]]]].
  - unfold SimpleVector.PushBack, SimpleVector.PushBack_with. cbn [assign_arg]. fold size.
    rewrite (size_t_fits (size + 1)) by lia.
    replace (SimpleVector.capacity_ v <? size + 1) with true by lia.
    rewrite Hnew. rewrite (bind_Ok _ _ _ _ _ Hrun).
    cbn [SimpleVector.size_ SimpleVector.data_].
    pose proof (store_at h1 b' D size x Hb' ltac:(lia)) as Hstore.
    unfold bind in Hstore |- *.
    destruct (ArrayPtr.index {| ArrayPtr.raw_ptr_ := Ptr b' 0 |} size h1) as [p t| |];
      try discriminate.
    rewrite Hstore. reflexivity.
  - reflexivity.
  - reflexivity.
  - apply wf_block with (<[Z.to_nat size := x]> D); fields;
      [exact Hb2 | rewrite length_insert; lia | lia | lia].
  - fields. rewrite (elements_block _ b' _ _ _ Hb2).
    replace (Z.to_nat (size + 1)) with (Datatypes.S (Z.to_nat size)) by lia.
    rewrite take_push by lia. now rewrite Hels.
  - eapply evolves_trans; [exact Hev|]. apply evolves_insert.
Qed.

(** [PushBack] on a full vector whose grown capacity the allocator
    refuses: the allocation comes first, so the argument is not read. *)
Lemma PushBack_refused moving h v (value : reference T) :
  wf h v ->
  SimpleVector.size_ v = SimpleVector.capacity_ v ->
  max_len < grown (SimpleVector.capacity_ v) ->
  SimpleVector.PushBack_with moving value v h = Throw bad_alloc h.
Proof.
  intros Hwf Hfull Hfit. pose proof Hwf as [[_ Hsize] Hmax].
  unfold SimpleVector.PushBack_with.
  rewrite (size_t_fits (SimpleVector.size_ v + 1)) by lia.
  replace (SimpleVector.capacity_ v <? SimpleVector.size_ v + 1) with true by lia.
  apply bind_Throw. unfold SimpleVector.ReallocateAndMoveData. apply bind_Throw.
  unfold grown in Hfit.
  destruct (Z.eqb_spec (SimpleVector.capacity_ v) 0) as [Hz|Hnz]; cbn [negb].
  - apply of_size_throw; lia.
  - rewrite size_t_fits by lia. apply of_size_throw; lia.
Qed.

Lemma PushBack_throw h v x :
  wf h v ->
  SimpleVector.size_ v = SimpleVector.capacity_ v ->
  max_len < grown (SimpleVector.capacity_ v) ->
  SimpleVector.PushBack (Elsewhere x) v h = Throw bad_alloc h.
Proof. apply PushBack_refused. Qed.

(** Pushing a list of values that fits the capacity never reallocates:
    the vector keeps its buffer and its capacity. *)
Lemma push_all_within h v xs :
  wf h v ->
  SimpleVector.size_ v + Z.of_nat (length xs) <= SimpleVector.capacity_ v ->
  exists h',
    push_all xs v h
    = Ok (SimpleVector.set_size_ (SimpleVector.size_ v + Z.of_nat (length xs)) v) h'
    /\ wf h' (SimpleVector.set_size_ (SimpleVector.size_ v + Z.of_nat (length xs)) v)
    /\ elements h' (SimpleVector.set_size_ (SimpleVector.size_ v + Z.of_nat (length xs)) v)
       = elements h v ++ xs
    /\ evolves h (SimpleVector.data_ v) h' (SimpleVector.data_ v).
Proof.
  revert h v. induction xs as [|x xs IH]; intros h v Hwf Hfit.
  - exists h. cbn [push_all length Z.of_nat]. rewrite Z.add_0_r, app_nil_r.
    destruct v; cbn. split; [reflexivity|]. split; [exact Hwf|].
    split; [reflexivity|]. apply evolves_refl.
  - cbn [length] in Hfit. rewrite Nat2Z.inj_succ in Hfit.
    destruct (PushBack_within h v x Hwf) as (h1 & Hpush & Hwf1 & Hels1 & Hev1); [lia|].
    destruct (IH h1 _ Hwf1) as (h' & Hrest & Hwf' & Hels' & Hev').
    { destruct v; cbn in *. lia. }
    exists h'. cbn [push_all length]. rewrite Nat2Z.inj_succ.
    replace (SimpleVector.set_size_ (SimpleVector.size_ v + Z.succ (Z.of_nat (length xs))) v)
      with (SimpleVector.set_size_
              (SimpleVector.size_ (SimpleVector.set_size_ (SimpleVector.size_ v + 1) v)
               + Z.of_nat (length xs))
              (SimpleVector.set_size_ (SimpleVector.size_ v + 1) v)).
    2: { destruct v; unfold SimpleVector.set_size_; cbn. f_equal. lia. }
    split; [|split; [|split]].
    + rewrite (bind_Ok _ _ _ _ _ Hpush). exact Hrest.
    + exact Hwf'.
    + rewrite Hels', Hels1, <- app_assoc. reflexivity.
    + eapply evolves_trans; [exact Hev1|]. destruct v; exact Hev'.
Qed.

End ReserveAndPushBack.

(** Inserting into and erasing from a list, cell by cell. *)
Lemma insert_cells {X} (arr A' : list X) (p size : nat) (x : X) :
  (p <= size)%nat -> (size <= length arr)%nat ->
  (forall j : nat, (j < p)%nat -> A' !! j = arr !! j) ->
  A' !! p = Some x ->
  (forall j : nat, (p < j <= size)%nat -> A' !! j = arr !! (j - 1)%nat) ->
  take (Datatypes.S size) A'
  = take p (take size arr) ++ x :: drop p (take size arr).
Proof.
  intros Hp Hsize Hlow Hat Hhigh. apply list_eq. intros j.
  assert (Hlen : length (take p (take size arr)) = p).
  { rewrite length_take, length_take. lia. }
  destruct (decide (j < p)%nat) as [Hj|Hj].
  - rewrite lookup_take_lt by lia. rewrite lookup_app_l by lia.
    rewrite !lookup_take_lt by lia. now apply Hlow.
  - rewrite lookup_app_r by lia. rewrite Hlen.
    destruct (decide (j = p)) as [->|Hne].
    + rewrite lookup_take_lt by lia. rewrite Nat.sub_diag. exact Hat.
    + rewrite lookup_cons_ne_0 by lia. rewrite lookup_drop.
      replace (p + Nat.pred (j - p))%nat with (j - 1)%nat by lia.
      destruct (decide (j <= size)%nat) as [Hle|Hgt].
      * rewrite !lookup_take_lt by lia. apply Hhigh. lia.
      * rewrite !lookup_take_ge by lia. reflexivity.
Qed.

Lemma erase_cells {X} (arr A' : list X) (p size : nat) :
  (p < size)%nat -> (size <= length arr)%nat ->
  (forall j : nat, (j < p)%nat -> A' !! j = arr !! j) ->
  (forall j : nat, (p <= j < size - 1)%nat -> A' !! j = arr !! (j + 1)%nat) ->
  take (size - 1) A' = delete p (take size arr).
Proof.
  intros Hp Hsize Hlow Hhigh. apply list_eq. intros j.
  destruct (decide (j < p)%nat) as [Hj|Hj].
  - rewrite lookup_take_lt by lia. rewrite list_lookup_delete_lt by lia.
    rewrite lookup_take_lt by lia. now apply Hlow.
  - rewrite list_lookup_delete_ge by lia.
    destruct (decide (j < size - 1)%nat) as [Hlt|Hge].
    + rewrite !lookup_take_lt by lia. rewrite Hhigh by lia. f_equal. lia.
    + rewrite !lookup_take_ge by lia. reflexivity.
Qed.


(** ** Removing elements *)

Ltac step H := rewrite (bind_Ok _ _ _ _ _ H); cbv beta.

Section Removal.
Context {T : Type} `{Element T} `{Allocator}.
Implicit Types (h t : heap T) (arr A D : list T) (b : block) (v : SimpleVector.t).

Lemma ptr_diff_Ptr h b off off' : ptr_diff (Ptr b off) (Ptr b off') h = Ok (off - off') h.
Proof. unfold ptr_diff. now rewrite decide_True. Qed.

Lemma ptr_le_Ptr h b off off' :
  ptr_le (Ptr b off) (Ptr b off') h = Ok (0 <=? off' - off) h.
Proof. unfold ptr_le. now rewrite (bind_Ok _ _ _ _ _ (ptr_diff_Ptr h b off' off)). Qed.

Lemma ptr_lt_Ptr h b off off' :
  ptr_lt (Ptr b off) (Ptr b off') h = Ok (0 <? off' - off) h.
Proof. unfold ptr_lt. now rewrite (bind_Ok _ _ _ _ _ (ptr_diff_Ptr h b off' off)). Qed.

(** [PopBack] on a vector that is not empty takes one from the size
    and touches nothing else. *)
Lemma PopBack_spec h v :
  wf h v ->
  0 < SimpleVector.size_ v ->
  SimpleVector.PopBack v h
  = Ok (SimpleVector.set_size_ (SimpleVector.size_ v - 1) v) h
  /\ wf h (SimpleVector.set_size_ (SimpleVector.size_ v - 1) v)
  /\ elements h (SimpleVector.set_size_ (SimpleVector.size_ v - 1) v)
     = take (Z.to_nat (SimpleVector.size_ v - 1)) (elements h v).
Proof.
  intros Hwf Hpos. pose proof Hwf as [[Hext Hsize] Hmax]. split; [|split].
  - unfold SimpleVector.PopBack.
    replace (SimpleVector.size_ v =? 0) with false by lia.
    rewrite size_t_fits by lia. reflexivity.
  - destruct v as [size capacity data]. fields.
    split; [split|]; fields; auto. lia.
  - unfold elements. destruct v as [size capacity data]. fields.
    rewrite take_take. f_equal. lia.
Qed.

Lemma PopBack_empty h v : SimpleVector.size_ v = 0 -> SimpleVector.PopBack v h = UB.
Proof. intros Hz. unfold SimpleVector.PopBack. rewrite Hz. reflexivity. Qed.

(** [Erase] inside the array [b]: the cells after the erased one move
    down by one. *)
Lemma Erase_block h b arr size capacity p :
  h !! b = Some arr ->
  Z.of_nat (length arr) = capacity ->
  0 <= p < size -> size <= capacity -> capacity <= max_len ->
  exists A',
    SimpleVector.Erase (Ptr b p)
      {| SimpleVector.size_ := size; SimpleVector.capacity_ := capacity;
         SimpleVector.data_ := {| ArrayPtr.raw_ptr_ := Ptr b 0 |} |} h
    = Ok (Ptr b p,
          {| SimpleVector.size_ := size - 1; SimpleVector.capacity_ := capacity;
             SimpleVector.data_ := {| ArrayPtr.raw_ptr_ := Ptr b 0 |} |})
         (<[b := A']> h)
    /\ length A' = length arr
    /\ (forall j : nat, Z.of_nat j < p -> A' !! j = arr !! j)
    /\ (forall j : nat, p <= Z.of_nat j < size - 1 -> A' !! j = arr !! (j + 1)%nat)
    /\ (forall j : nat, size <= Z.of_nat j -> A' !! j = arr !! j).
Proof.
  intros Hb Hlen Hp Hsize Hmax.
  destruct (transfer_down true h b arr (p + 1) size p Hb)
    as (t' & Hmove & A' & -> & HlA & Hnew & Hlow & Hrest); [lia | lia | lia |].
  exists A'. split; [|split; [|split; [|split]]].
  - unfold SimpleVector.Erase, SimpleVector.begin_, SimpleVector.cbegin,
      SimpleVector.end_. fields.
    step (ptr_le_Ptr h b 0 p).
    replace (0 <=? p - 0) with true by lia. cbv iota.
    assert (Hlt : (e <- ptr_add (Ptr b 0) size ;; ptr_lt (Ptr b p) e) h = Ok true h).
    { step (ptr_add_Ptr h b 0 size arr Hb ltac:(lia)).
      rewrite ptr_lt_Ptr. f_equal. lia. }
    step Hlt. cbn [andb assert]. rewrite bind_ret.
    step (ptr_diff_Ptr h b p 0).
    rewrite Z.sub_0_r. rewrite (size_t_fits p) by lia.
    step (index_Ptr h b p arr Hb ltac:(lia)).
    step (ptr_add_Ptr h b 0 p arr Hb ltac:(lia)).
    step (ptr_add_Ptr h b (0 + p) 1 arr Hb ltac:(lia)).
    step (ptr_add_Ptr h b 0 size arr Hb ltac:(lia)).
    cbn [Z.add]. unfold std_move.
    replace (p + (size - (p + 1))) with (size - 1) in Hmove by lia.
    step Hmove.
    rewrite (size_t_fits (size - 1)) by lia.
    assert (HA' : (<[b := A']> h : heap T) !! b = Some A') by apply lookup_insert_eq.
    step (ptr_add_Ptr _ b 0 p A' HA' ltac:(lia)).
    reflexivity.
  - exact HlA.
  - exact Hlow.
  - intros j Hj. rewrite Hnew by lia. f_equal. lia.
  - intros j Hj. apply Hrest; lia.
Qed.

(** [Erase] at offset [p] of a well-formed vector keeps the buffer and
    the capacity, removes element [p] and returns the iterator it was
    given. *)
Lemma Erase_spec h v p :
  wf h v ->
  0 <= p < SimpleVector.size_ v ->
  exists pos h',
    ptr_add (SimpleVector.begin_ v) p h = Ok pos h
    /\ SimpleVector.Erase pos v h
       = Ok (pos, SimpleVector.set_size_ (SimpleVector.size_ v - 1) v) h'
    /\ ptr_add (SimpleVector.begin_ v) p h' = Ok pos h'
    /\ wf h' (SimpleVector.set_size_ (SimpleVector.size_ v - 1) v)
    /\ elements h' (SimpleVector.set_size_ (SimpleVector.size_ v - 1) v)
       = delete (Z.to_nat p) (elements h v)
    /\ evolves h (SimpleVector.data_ v) h' (SimpleVector.data_ v).
Proof.
  intros Hwf Hp. destruct v as [size capacity data].
  apply wf_owns in Hwf as (arr & Ho & Hlen & Hsz & Hmax). fields.
  destruct Ho as [|b arr Hb]; [cbn in Hlen; lia|].
  destruct (Erase_block h b arr size capacity p Hb Hlen Hp ltac:(lia) Hmax)
    as (A' & Hrun & HlA & Hlow & Hhigh & Hrest).
  assert (HA' : (<[b := A']> h : heap T) !! b = Some A') by apply lookup_insert_eq.
  exists (Ptr b p), (<[b := A']> h). unfold SimpleVector.begin_. fields.
  split; [|split; [|split; [|split; [|split]]]].
  - now rewrite (ptr_add_Ptr h b 0 p arr Hb) by lia.
  - exact Hrun.
  - now rewrite (ptr_add_Ptr _ b 0 p A' HA') by lia.
  - apply wf_block with A'; fields; auto; lia.
  - rewrite (elements_block _ b A' _ _ HA'), (elements_block _ b arr _ _ Hb).
    replace (Z.to_nat (size - 1)) with (Z.to_nat size - 1)%nat by lia.
    apply erase_cells; try lia.
    + intros j Hj. apply Hlow. lia.
    + intros j Hj. apply Hhigh. lia.
  - apply evolves_insert.
Qed.

End Removal.

(** ** Inserting elements *)

Section Insertion.
Context {T : Type} `{Element T} `{Allocator}.
Implicit Types (h t : heap T) (arr A D : list T) (b : block) (v : SimpleVector.t)
  (value : reference T).

(** *** Reference arguments *)

Lemma moved_out_copy value h : moved_out false value h = h.
Proof. destruct value as [x|[|b off]]; reflexivity. Qed.

Lemma moved_out_lookup_ext moving value t t0 k :
  t !! k = t0 !! k ->
  moved_out moving value t !! k = moved_out moving value t0 !! k.
Proof.
  intros Hk. destruct value as [x|[|b off]]; cbn [moved_out]; auto.
  destruct moving; auto.
  destruct (decide (b = k)) as [->|Hne].
  - rewrite !lookup_alter_eq. now rewrite Hk.
  - rewrite !lookup_alter_ne by auto. exact Hk.
Qed.

Lemma moved_out_lookup_apart moving value t k :
  (moving = true -> ~ refers_into k value) ->
  moved_out moving value t !! k = t !! k.
Proof.
  intros Hapart. destruct value as [x|[|b off]]; cbn [moved_out]; auto.
  destruct moving; auto.
  apply lookup_alter_ne. intros ->. now apply Hapart.
Qed.

Lemma insert_moved_out moving value h b X Y :
  (moving = true -> ~ refers_into b value) ->
  <[b := X]> (moved_out moving value (<[b := Y]> h))
  = <[b := X]> (moved_out moving value h).
Proof.
  intros Hapart. apply map_eq. intros k.
  destruct (decide (b = k)) as [->|Hne].
  - now rewrite !lookup_insert_eq.
  - rewrite !lookup_insert_ne by auto. apply moved_out_lookup_ext.
    now rewrite lookup_insert_ne.
Qed.

Lemma referent_ext value t t0 :
  (forall k, refers_into k value -> t !! k = t0 !! k) ->
  referent t value = referent t0 value.
Proof.
  intros Hsame. destruct value as [x|[|b off]]; cbn [referent]; auto.
  rewrite (Hsame b); [reflexivity|]. reflexivity.
Qed.

Lemma referent_cell h b off y :
  referent h (Cell (Ptr b off)) = Some y ->
  0 <= off /\ exists A, h !! b = Some A /\ A !! Z.to_nat off = Some y.
Proof.
  cbn [referent]. destruct (Z.leb_spec 0 off) as [Hoff|]; [|discriminate].
  destruct (h !! b) as [A|]; cbn [default]; [|discriminate].
  intros Hy. split; [exact Hoff|]. now exists A.
Qed.

Lemma referent_live h value y k :
  referent h value = Some y -> refers_into k value -> is_Some (h !! k).
Proof.
  destruct value as [x|[|b off]]; cbn [refers_into]; try contradiction.
  intros Hy <-. apply referent_cell in Hy as (_ & A & HA & _). now exists A.
Qed.

(** The assignment of the argument to a cell: the argument is read in
    the free store as it is when the assignment runs. *)
Lemma assign_arg_spec moving t bd D d value y :
  t !! bd = Some D ->
  0 <= d < Z.of_nat (length D) ->
  referent t value = Some y ->
  (moving = true -> ~ refers_into bd value) ->
  assign_arg moving (Ptr bd d) value t
  = Ok tt (<[bd := <[Z.to_nat d := y]> D]> (moved_out moving value t)).
Proof.
  intros HD Hd Hy Hapart. destruct value as [x|[|bs s]].
  - cbn in Hy. inversion Hy; subst. cbn [assign_arg moved_out]. now apply store_Ptr.
  - discriminate.
  - apply referent_cell in Hy as (Hs & A & HA & Hy). cbn [assign_arg moved_out].
    destruct (decide (bs = bd)) as [->|Hne].
    + destruct moving; [exfalso; now apply Hapart|].
      assert (A = D) as -> by congruence.
      apply (assign_elem_within false t bd D s d y HD Hs Hy Hd).
    + rewrite (assign_elem_blocks moving t bs bd A D s d y Hne HA HD Hs Hy Hd).
      destruct moving; [|reflexivity]. do 3 f_equal.
      apply map_eq. intros k. destruct (decide (bs = k)) as [->|Hk].
      * rewrite lookup_insert_eq, lookup_alter_eq, HA. cbn. f_equal.
        apply list_eq. intros j. destruct (decide (Z.to_nat s = j)) as [<-|Hj].
        -- rewrite list_lookup_insert_eq by (apply lookup_lt_Some in Hy; lia).
           now rewrite list_lookup_alter_eq, Hy.
        -- rewrite list_lookup_insert_ne by auto. now rewrite list_lookup_alter_ne.
      * rewrite lookup_insert_ne by auto. now rewrite lookup_alter_ne.
Qed.

(** The overload that moves is not given an element of the vector
    itself where [Insert_argument] has a value. *)
Lemma Insert_argument_apart moving h size capacity b p value y :
  Insert_argument moving h
    {| SimpleVector.size_ := size; SimpleVector.capacity_ := capacity;
       SimpleVector.data_ := {| ArrayPtr.raw_ptr_ := Ptr b 0 |} |} p value = Some y ->
  moving = true -> ~ refers_into b value.
Proof.
  intros Hval -> Hin. destruct value as [x|[|b' s]]; cbn in Hin; try contradiction.
  subst b'. unfold Insert_argument in Hval. cbn [block_of SimpleVector.data_ ArrayPtr.raw_ptr_] in Hval.
  rewrite decide_True in Hval by reflexivity. discriminate.
Qed.

(** The argument refers to a live array. *)
Lemma Insert_argument_live moving h v p value y k :
  Insert_argument moving h v p value = Some y ->
  refers_into k value -> is_Some (h !! k).
Proof.
  intros Hval Hin. destruct value as [x|[|b s]]; cbn in Hin; try contradiction.
  subst k. unfold Insert_argument in Hval.
  destruct (decide _); [destruct moving; [discriminate|]; destruct (_ && _)|];
    apply referent_cell in Hval as (_ & A & HA & _); now exists A.
Qed.

(** [Insert] below the capacity: the cells from the position on move up
    by one inside the array and the argument is assigned to the cell at
    the position. *)
Lemma Insert_within_block moving h b arr size capacity p value y :
  h !! b = Some arr ->
  Z.of_nat (length arr) = capacity ->
  0 <= p <= size -> size < capacity -> capacity <= max_len ->
  Insert_argument moving h
    {| SimpleVector.size_ := size; SimpleVector.capacity_ := capacity;
       SimpleVector.data_ := {| ArrayPtr.raw_ptr_ := Ptr b 0 |} |} p value = Some y ->
  exists A',
    SimpleVector.Insert_with moving (Ptr b p) value
      {| SimpleVector.size_ := size; SimpleVector.capacity_ := capacity;
         SimpleVector.data_ := {| ArrayPtr.raw_ptr_ := Ptr b 0 |} |} h
    = Ok (Ptr b p,
          {| SimpleVector.size_ := size + 1; SimpleVector.capacity_ := capacity;
             SimpleVector.data_ := {| ArrayPtr.raw_ptr_ := Ptr b 0 |} |})
         (<[b := A']> (moved_out moving value h))
    /\ length A' = length arr
    /\ (forall j : nat, Z.of_nat j < p -> A' !! j = arr !! j)
    /\ A' !! Z.to_nat p = Some y
    /\ (forall j : nat, p < Z.of_nat j <= size -> A' !! j = arr !! (j - 1)%nat).
Proof.
  intros Hb Hlen Hp Hsize Hmax Hval.
  destruct (transfer_up moving h b arr p size 1 Hb)
    as (t' & Hmove & A' & -> & HlA & Hnew & Hhigh & Hrest & Hkept); [lia | lia | lia |].
  assert (HA' : (<[b := A']> h : heap T) !! b = Some A') by apply lookup_insert_eq.
  pose proof (Insert_argument_apart _ _ _ _ _ _ _ _ Hval) as Hapart.
  assert (Hread : referent (<[b := A']> h) value = Some y).
  { destruct value as [x|[|b' s]]; [exact Hval | discriminate |].
    unfold Insert_argument in Hval.
    cbn [block_of SimpleVector.data_ SimpleVector.size_ SimpleVector.capacity_
         ArrayPtr.raw_ptr_] in Hval.
    destruct (decide (Some b = Some b')) as [[= <-]|Hout].
    - destruct moving; [discriminate|].
      replace (size <? capacity) with true in Hval by lia. cbn [andb] in Hval.
      cbn [referent]. rewrite HA'. cbn [default].
      destruct (Z.ltb_spec p s) as [Hps|Hps]; cbn [andb] in Hval.
      + destruct (Z.leb_spec s size) as [Hss|Hss].
        * apply referent_cell in Hval as (Hs & A & HA & Hy).
          assert (A = arr) as -> by congruence.
          replace (0 <=? s) with true by lia.
          rewrite Hnew by lia. rewrite <- Hy. f_equal. lia.
        * apply referent_cell in Hval as (Hs & A & HA & Hy).
          assert (A = arr) as -> by congruence.
          replace (0 <=? s) with true by lia.
          rewrite Hhigh by lia. exact Hy.
      + apply referent_cell in Hval as (Hs & A & HA & Hy).
        assert (A = arr) as -> by congruence.
        replace (0 <=? s) with true by lia.
        rewrite Hkept by (auto; lia). exact Hy.
    - rewrite <- Hval. apply referent_ext. intros k Hk. cbn in Hk. subst k.
      apply lookup_insert_ne. congruence. }
  pose proof (assign_arg_spec moving _ b A' p value y HA' ltac:(lia) Hread Hapart) as Hassign.
  rewrite insert_moved_out in Hassign by exact Hapart.
  exists (<[Z.to_nat p := y]> A'). split; [|split; [|split; [|split]]].
  - unfold SimpleVector.Insert_with. fields.
    step (ptr_diff_Ptr h b p 0).
    rewrite Z.sub_0_r. rewrite (size_t_fits p) by lia.
    step (assert_leb p size h ltac:(lia)).
    step (ptr_add_Ptr h b 0 p arr Hb ltac:(lia)).
    rewrite (size_t_fits (size + 1)) by lia.
    replace (size + 1 <=? capacity) with true by lia.
    assert (Hbranch :
      (last <- ptr_add (Ptr b 0) size ;;
       d_last <- ptr_add last 1 ;;
       transfer_backward moving (Ptr b (0 + p)) last d_last ;;
       dst <- ArrayPtr.index {| ArrayPtr.raw_ptr_ := Ptr b 0 |} p ;;
       assign_arg moving dst value ;;
       ret {| SimpleVector.size_ := size; SimpleVector.capacity_ := capacity;
              SimpleVector.data_ := {| ArrayPtr.raw_ptr_ := Ptr b 0 |} |}) h
      = Ok {| SimpleVector.size_ := size; SimpleVector.capacity_ := capacity;
              SimpleVector.data_ := {| ArrayPtr.raw_ptr_ := Ptr b 0 |} |}
           (<[b := <[Z.to_nat p := y]> A']> (moved_out moving value h))).
    { step (ptr_add_Ptr h b 0 size arr Hb ltac:(lia)).
      step (ptr_add_Ptr h b (0 + size) 1 arr Hb ltac:(lia)).
      cbn [Z.add]. step Hmove.
      step (index_Ptr _ b p A' HA' ltac:(lia)).
      step Hassign. reflexivity. }
    step Hbranch. fields.
    assert (HA'' : (<[b := <[Z.to_nat p := y]> A']> (moved_out moving value h) : heap T) !! b
                   = Some (<[Z.to_nat p := y]> A')) by apply lookup_insert_eq.
    step (ptr_add_Ptr _ b 0 p _ HA'' ltac:(rewrite length_insert; lia)).
    reflexivity.
  - rewrite length_insert. exact HlA.
  - intros j Hj. rewrite list_lookup_insert_ne by lia. apply Hrest; lia.
  - apply list_lookup_insert_eq. lia.
  - intros j Hj. rewrite list_lookup_insert_ne by lia. rewrite Hnew by lia. f_equal. lia.
Qed.

(** The capacity that a full vector grows to. *)
Lemma new_capacity_grown size capacity :
  0 <= size -> size = capacity -> capacity <= max_len ->
  (if negb (capacity =? 0) then Z.max (wrap (size + 1)) (wrap (2 * capacity)) else 1)
  = grown capacity.
Proof.
  intros Hsize Hfull Hmax. unfold grown.
  destruct (Z.eqb_spec capacity 0); cbn [negb]; [reflexivity|].
  rewrite !size_t_fits by lia. lia.
Qed.

Lemma grown_holds_one_more capacity : 0 <= capacity -> capacity + 1 <= grown capacity.
Proof. intros Hc. unfold grown. destruct (Z.eqb_spec capacity 0); lia. Qed.

(** [Insert] into a full array: the prefix, the argument and the suffix
    go to a fresh array of the grown capacity, and the old array is
    deleted. *)
Lemma Insert_grow_block moving h b arr size capacity p value y :
  h !! b = Some arr ->
  Z.of_nat (length arr) = capacity ->
  0 <= p <= size -> size = capacity -> grown capacity <= max_len ->
  Insert_argument moving h
    {| SimpleVector.size_ := size; SimpleVector.capacity_ := capacity;
       SimpleVector.data_ := {| ArrayPtr.raw_ptr_ := Ptr b 0 |} |} p value = Some y ->
  exists b' D h',
    SimpleVector.Insert_with moving (Ptr b p) value
      {| SimpleVector.size_ := size; SimpleVector.capacity_ := capacity;
         SimpleVector.data_ := {| ArrayPtr.raw_ptr_ := Ptr b 0 |} |} h
    = Ok (Ptr b' p,
          {| SimpleVector.size_ := size + 1; SimpleVector.capacity_ := grown capacity;
             SimpleVector.data_ := {| ArrayPtr.raw_ptr_ := Ptr b' 0 |} |}) h'
    /\ moved_out moving value h !! b' = None
    /\ h' !! b' = Some D
    /\ Z.of_nat (length D) = grown capacity
    /\ (forall j : nat, Z.of_nat j < p -> D !! j = arr !! j)
    /\ D !! Z.to_nat p = Some y
    /\ (forall j : nat, p < Z.of_nat j <= size -> D !! j = arr !! (j - 1)%nat)
    /\ (forall b'' arr'', moved_out moving value h !! b'' = Some arr'' -> b'' <> b ->
          h' !! b'' = Some arr'').
Proof.
  intros Hb Hlen Hp Hfull Hfit Hval.
  assert (Hcap0 : 0 <= capacity) by lia.
  pose proof (grown_holds_one_more capacity Hcap0) as Hroom.
  assert (Hmax : capacity <= max_len) by lia.
  set (b' := fresh (dom h)).
  set (D0 := replicate (Z.to_nat (grown capacity)) default_init).
  set (h1 := <[b' := D0]> h).
  assert (Hfree : h !! b' = None) by apply fresh_block_free.
  assert (Hne : b <> b') by congruence.
  assert (Hb'1 : h1 !! b' = Some D0) by apply lookup_insert_eq.
  assert (Hb1 : h1 !! b = Some arr).
  { unfold h1. rewrite lookup_insert_ne by auto. exact Hb. }
  assert (HlD0 : Z.of_nat (length D0) = grown capacity).
  { unfold D0. rewrite length_replicate. lia. }
  pose proof (Insert_argument_apart _ _ _ _ _ _ _ _ Hval) as Hapart.
  assert (Hfresh : ~ refers_into b' value).
  { intros Hin. destruct (Insert_argument_live _ _ _ _ _ _ _ Hval Hin) as [A HA]. congruence. }
  (* the prefix *)
  destruct (transfer_blocks moving h1 b b' arr D0 0 p 0 Hne Hb1 Hb'1)
    as (t1 & Hpre & Htr1); [lia | lia | lia | lia |].
  pose proof Htr1 as (A1 & D1 & HA1 & HD1 & HlA1 & HlD1 & Hcopied1 & Hrest1 & Hsrc1 & Hother1 & Hsame1).
  (* the argument *)
  assert (Hread : referent t1 value = Some y).
  { destruct value as [x|[|bs s]]; [exact Hval | discriminate |].
    unfold Insert_argument in Hval.
    cbn [block_of SimpleVector.data_ SimpleVector.size_ SimpleVector.capacity_
         ArrayPtr.raw_ptr_] in Hval.
    destruct (decide (Some b = Some bs)) as [[= <-]|Hout].
    - destruct moving; [discriminate|].
      replace (size <? capacity) with false in Hval by lia. cbn [andb] in Hval.
      rewrite <- Hval. cbn [referent]. rewrite HA1, Hb. now rewrite Hsame1.
    - rewrite <- Hval. apply referent_ext. intros k Hk. cbn in Hk. subst k.
      rewrite Hother1; [|congruence|intros ->; now apply Hfresh].
      unfold h1. apply lookup_insert_ne. intros ->. now apply Hfresh. }
  pose proof (assign_arg_spec moving t1 b' D1 p value y HD1 ltac:(lia) Hread
                (fun _ => Hfresh)) as Hassign.
  set (D2 := <[Z.to_nat p := y]> D1) in *.
  set (t2 := <[b' := D2]> (moved_out moving value t1)) in *.
  assert (HD2 : t2 !! b' = Some D2) by apply lookup_insert_eq.
  assert (HA2 : t2 !! b = Some A1).
  { unfold t2. rewrite lookup_insert_ne by auto.
    rewrite moved_out_lookup_apart by exact Hapart. exact HA1. }
  assert (HlD2 : length D2 = length D0).
  { unfold D2. rewrite length_insert. exact HlD1. }
  (* the suffix *)
  destruct (transfer_blocks moving t2 b b' A1 D2 p size (p + 1) Hne HA2 HD2)
    as (t3 & Hsuf & Htr3); [lia | lia | lia | lia |].
  pose proof Htr3 as (A3 & D3 & HA3 & HD3 & HlA3 & HlD3 & Hcopied3 & Hrest3 & Hsrc3 & Hother3 & _).
  exists b', D3, (delete b t3).
  assert (HD3' : (delete b t3 : heap T) !! b' = Some D3).
  { rewrite lookup_delete_ne by auto. exact HD3. }
  assert (Hfree' : moved_out moving value h !! b' = None).
  { rewrite moved_out_lookup_apart by (intros _; exact Hfresh). exact Hfree. }
  split; [|split; [|split; [|split; [|split; [|split; [|split]]]]]].
  - unfold SimpleVector.Insert_with. fields.
    step (ptr_diff_Ptr h b p 0).
    rewrite Z.sub_0_r. rewrite (size_t_fits p) by lia.
    step (assert_leb p size h ltac:(lia)).
    step (ptr_add_Ptr h b 0 p arr Hb ltac:(lia)).
    rewrite (new_capacity_grown size capacity) by lia.
    rewrite (size_t_fits (size + 1)) by lia.
    replace (size + 1 <=? capacity) with false by lia.
    assert (Hbranch :
      (new_data <- ArrayPtr.of_size (grown capacity) ;;
       transfer moving (Ptr b 0) (Ptr b (0 + p)) (ArrayPtr.raw_ptr_ new_data) ;;
       dst <- ArrayPtr.index new_data p ;;
       assign_arg moving dst value ;;
       last <- ptr_add (Ptr b 0) size ;;
       d_first <- ptr_add (ArrayPtr.raw_ptr_ new_data) p ;;
       d_first <- ptr_add d_first 1 ;;
       transfer moving (Ptr b (0 + p)) last d_first ;;
       ArrayPtr.dtor
         (other_of (ArrayPtr.swap (Distinct {| ArrayPtr.raw_ptr_ := Ptr b 0 |} new_data))) ;;
       ret {| SimpleVector.size_ := size; SimpleVector.capacity_ := grown capacity;
              SimpleVector.data_ :=
                this_of (ArrayPtr.swap
                           (Distinct {| ArrayPtr.raw_ptr_ := Ptr b 0 |} new_data)) |}) h
      = Ok {| SimpleVector.size_ := size; SimpleVector.capacity_ := grown capacity;
              SimpleVector.data_ := {| ArrayPtr.raw_ptr_ := Ptr b' 0 |} |}
           (delete b t3)).
    { assert (Hgrown : 0 < grown capacity <= max_len) by lia.
      step (of_size_ok (grown capacity) h Hgrown). fold b' D0 h1. fields.
      cbn [Z.add]. replace (0 + (p - 0)) with p in Hpre by lia.
      step Hpre.
      step (index_Ptr t1 b' p D1 HD1 ltac:(lia)).
      step Hassign.
      step (ptr_add_Ptr t2 b 0 size A1 HA2 ltac:(lia)).
      step (ptr_add_Ptr t2 b' 0 p D2 HD2 ltac:(lia)).
      step (ptr_add_Ptr t2 b' (0 + p) 1 D2 HD2 ltac:(lia)).
      cbn [Z.add]. step Hsuf.
      cbn [ArrayPtr.swap]. fields. unfold ArrayPtr.dtor. fields.
      step (delete_array_Ptr t3 b A3 HA3). reflexivity. }
    step Hbranch. fields.
    step (ptr_add_Ptr _ b' 0 p D3 HD3' ltac:(lia)).
    reflexivity.
  - exact Hfree'.
  - exact HD3'.
  - lia.
  - intros j Hj. rewrite Hrest3 by lia. unfold D2.
    rewrite list_lookup_insert_ne by lia. rewrite Hcopied1 by lia. f_equal. lia.
  - rewrite Hrest3 by lia. unfold D2. apply list_lookup_insert_eq. lia.
  - intros j Hj. rewrite Hcopied3 by lia.
    replace (Z.to_nat (Z.of_nat j - (p + 1) + p)) with (j - 1)%nat by lia.
    apply Hsrc1. lia.
  - intros b'' arr'' Hb'' Hne''.
    assert (b'' <> b') by congruence.
    rewrite lookup_delete_ne by auto. rewrite Hother3 by auto.
    unfold t2. rewrite lookup_insert_ne by auto.
    rewrite <- Hb''. apply moved_out_lookup_ext.
    rewrite Hother1 by auto. unfold h1. now rewrite lookup_insert_ne.
Qed.

(** [Insert] into a vector without a buffer. *)
Lemma Insert_grow_null moving h value y :
  1 <= max_len ->
  referent h value = Some y ->
  exists b' D h',
    SimpleVector.Insert_with moving nullptr value
      {| SimpleVector.size_ := 0; SimpleVector.capacity_ := 0;
         SimpleVector.data_ := {| ArrayPtr.raw_ptr_ := nullptr |} |} h
    = Ok (Ptr b' 0,
          {| SimpleVector.size_ := 1; SimpleVector.capacity_ := 1;
             SimpleVector.data_ := {| ArrayPtr.raw_ptr_ := Ptr b' 0 |} |}) h'
    /\ moved_out moving value h !! b' = None
    /\ h' !! b' = Some D
    /\ Z.of_nat (length D) = 1
    /\ D !! O = Some y
    /\ (forall b'' arr'', moved_out moving value h !! b'' = Some arr'' ->
          h' !! b'' = Some arr'').
Proof.
  intros Hfit Hval.
  set (b' := fresh (dom h)).
  set (D0 := replicate (Z.to_nat 1) default_init).
  set (h1 := <[b' := D0]> h).
  assert (Hfree : h !! b' = None) by apply fresh_block_free.
  assert (Hb'1 : h1 !! b' = Some D0) by apply lookup_insert_eq.
  assert (Hfresh : ~ refers_into b' value).
  { intros Hin. destruct (referent_live _ _ _ _ Hval Hin) as [A HA]. congruence. }
  assert (Hread : referent h1 value = Some y).
  { rewrite <- Hval. apply referent_ext. intros k Hk.
    unfold h1. apply lookup_insert_ne. intros ->. now apply Hfresh. }
  assert (HlD0 : Z.of_nat (length D0) = 1) by reflexivity.
  pose proof (assign_arg_spec moving h1 b' D0 0 value y Hb'1 ltac:(lia) Hread
                (fun _ => Hfresh)) as Hassign.
  change (Z.to_nat 0) with O in Hassign.
  set (D2 := <[O := y]> D0) in *.
  set (t2 := <[b' := D2]> (moved_out moving value h1)) in *.
  assert (HD2 : t2 !! b' = Some D2) by apply lookup_insert_eq.
  assert (HlD2 : Z.of_nat (length D2) = 1) by reflexivity.
  assert (Hfree' : moved_out moving value h !! b' = None).
  { rewrite moved_out_lookup_apart by (intros _; exact Hfresh). exact Hfree. }
  exists b', D2, t2. split; [|split; [|split; [|split; [|split]]]].
  - unfold SimpleVector.Insert_with. fields.
    change (ptr_diff nullptr nullptr) with (ret (S := heap T) 0).
    rewrite bind_ret. change (wrap 0) with 0. change (wrap (0 + 1)) with 1.
    cbn [Z.leb Z.compare assert]. rewrite bind_ret.
    change (ptr_add nullptr 0) with (ret (S := heap T) nullptr).
    rewrite bind_ret. cbn [Z.eqb negb].
    assert (Hbranch :
      (new_data <- ArrayPtr.of_size 1 ;;
       transfer moving nullptr nullptr (ArrayPtr.raw_ptr_ new_data) ;;
       dst <- ArrayPtr.index new_data 0 ;;
       assign_arg moving dst value ;;
       last <- ret nullptr ;;
       d_first <- ptr_add (ArrayPtr.raw_ptr_ new_data) 0 ;;
       d_first <- ptr_add d_first 1 ;;
       transfer moving nullptr last d_first ;;
       ArrayPtr.dtor
         (other_of (ArrayPtr.swap (Distinct {| ArrayPtr.raw_ptr_ := nullptr |} new_data))) ;;
       ret {| SimpleVector.size_ := 0; SimpleVector.capacity_ := 1;
              SimpleVector.data_ :=
                this_of (ArrayPtr.swap
                           (Distinct {| ArrayPtr.raw_ptr_ := nullptr |} new_data)) |}) h
      = Ok {| SimpleVector.size_ := 0; SimpleVector.capacity_ := 1;
              SimpleVector.data_ := {| ArrayPtr.raw_ptr_ := Ptr b' 0 |} |} t2).
    { assert (Hone : 0 < 1 <= max_len) by lia.
      step (of_size_ok 1 h Hone). fold b' D0 h1. fields.
      assert (Hadd0 : ptr_add (Ptr b' 0) 0 h1 = Ok (Ptr b' 0) h1).
      { apply (ptr_add_Ptr h1 b' 0 0 D0 Hb'1). lia. }
      step (transfer_nothing moving nullptr (Ptr b' 0) h1 eq_refl Hadd0).
      step (index_Ptr h1 b' 0 D0 Hb'1 ltac:(lia)).
      step Hassign. rewrite bind_ret.
      step (ptr_add_Ptr t2 b' 0 0 D2 HD2 ltac:(lia)).
      step (ptr_add_Ptr t2 b' (0 + 0) 1 D2 HD2 ltac:(lia)).
      cbn [Z.add Pos.add].
      assert (Hadd1 : ptr_add (Ptr b' 1) 0 t2 = Ok (Ptr b' 1) t2).
      { apply (ptr_add_Ptr t2 b' 1 0 D2 HD2). lia. }
      step (transfer_nothing moving nullptr (Ptr b' 1) t2 eq_refl Hadd1).
      reflexivity. }
    step Hbranch. fields.
    step (ptr_add_Ptr t2 b' 0 0 D2 HD2 ltac:(lia)).
    reflexivity.
  - exact Hfree'.
  - exact HD2.
  - reflexivity.
  - reflexivity.
  - intros b'' arr'' Hb''.
    assert (b'' <> b') by congruence.
    unfold t2. rewrite lookup_insert_ne by auto.
    rewrite <- Hb''. apply moved_out_lookup_ext.
    unfold h1. now rewrite lookup_insert_ne.
Qed.

End Insertion.

Section InsertErase.
Context {T : Type} `{Element T} `{Allocator}.
Implicit Types (h t : heap T) (arr A D : list T) (b : block) (v : SimpleVector.t)
  (value : reference T).

(** [Insert] at offset [p] of a well-formed vector, for both overloads
    and an argument that [Insert_argument] reads as [y]: below the
    capacity it keeps the capacity, at full capacity it grows it; the
    elements are the old ones with [y] put in at [p], and the iterator
    it returns is [begin() + p] of the new state. *)
Lemma Insert_by_reference moving h v p value y :
  wf h v ->
  0 <= p <= SimpleVector.size_ v ->
  (SimpleVector.size_ v = SimpleVector.capacity_ v ->
   grown (SimpleVector.capacity_ v) <= max_len) ->
  Insert_argument moving h v p value = Some y ->
  exists pos res v' h',
    ptr_add (SimpleVector.begin_ v) p h = Ok pos h
    /\ SimpleVector.Insert_with moving pos value v h = Ok (res, v') h'
    /\ ptr_add (SimpleVector.begin_ v') p h' = Ok res h'
    /\ SimpleVector.size_ v' = SimpleVector.size_ v + 1
    /\ SimpleVector.capacity_ v'
       = (if SimpleVector.size_ v <? SimpleVector.capacity_ v
          then SimpleVector.capacity_ v else grown (SimpleVector.capacity_ v))
    /\ wf h' v'
    /\ elements h' v'
       = take (Z.to_nat p) (elements h v) ++ y :: drop (Z.to_nat p) (elements h v)
    /\ evolves (moved_out moving value h) (SimpleVector.data_ v) h' (SimpleVector.data_ v').
Proof.
  intros Hwf Hp Hfit Hval. destruct v as [size capacity data].
  apply wf_owns in Hwf as (arr & Ho & Hlen & Hsz & Hmax). fields.
  unfold SimpleVector.begin_. fields.
  destruct Ho as [|b arr Hb].
  - (* no buffer *)
    cbn in Hlen. assert (capacity = 0) as -> by lia.
    assert (size = 0) as -> by lia. assert (p = 0) as -> by lia.
    assert (Hval' : referent h value = Some y).
    { destruct value as [x|[|b s]]; exact Hval. }
    destruct (Insert_grow_null moving h value y) as (b' & D & h' & Hrun & Hfree & HD & HlD & Hx & Hkeep);
      [apply Hfit; reflexivity | exact Hval' |].
    exists nullptr, (Ptr b' 0). eexists _, h'.
    split; [reflexivity|]. split; [exact Hrun|]. fields.
    split; [exact (ptr_add_Ptr h' b' 0 0 D HD ltac:(lia))|].
    split; [reflexivity|]. split; [reflexivity|]. split; [|split].
    + apply wf_block with D; fields; auto; try lia.
    + rewrite (elements_block _ b' D _ _ HD). unfold elements, buffer. cbn.
      destruct D as [|z D]; [discriminate|]. cbn in Hx. inversion Hx; subst. reflexivity.
    + intros b arr Hb _. split; [now apply Hkeep|]. cbn. congruence.
  - destruct (Z.ltb_spec size capacity) as [Hlt|Hge].
    + (* room in the array *)
      destruct (Insert_within_block moving h b arr size capacity p value y Hb Hlen Hp Hlt Hmax Hval)
        as (A' & Hrun & HlA & Hlow & Hat & Hhigh).
      set (hm := moved_out moving value h) in *.
      assert (HA' : (<[b := A']> hm : heap T) !! b = Some A') by apply lookup_insert_eq.
      exists (Ptr b p), (Ptr b p). eexists _, (<[b := A']> hm).
      split; [exact (ptr_add_Ptr h b 0 p arr Hb ltac:(lia))|].
      split; [exact Hrun|]. fields.
      split; [exact (ptr_add_Ptr _ b 0 p A' HA' ltac:(lia))|].
      split; [reflexivity|]. split; [reflexivity|]. split; [|split].
      * apply wf_block with A'; fields; auto; lia.
      * rewrite (elements_block _ b A' _ _ HA'), (elements_block _ b arr _ _ Hb).
        replace (Z.to_nat (size + 1)) with (Datatypes.S (Z.to_nat size)) by lia.
        apply insert_cells; try lia.
        -- intros j Hj. apply Hlow. lia.
        -- exact Hat.
        -- intros j Hj. apply Hhigh. lia.
      * apply evolves_insert.
    + (* a full array *)
      assert (Hfull : size = capacity) by lia.
      destruct (Insert_grow_block moving h b arr size capacity p value y Hb Hlen Hp Hfull
                  (Hfit Hfull) Hval)
        as (b' & D & h' & Hrun & Hfree & HD & HlD & Hlow & Hat & Hhigh & Hkeep).
      exists (Ptr b p), (Ptr b' p). eexists _, h'.
      split; [exact (ptr_add_Ptr h b 0 p arr Hb ltac:(lia))|].
      split; [exact Hrun|]. fields.
      pose proof (grown_holds_one_more capacity ltac:(lia)) as Hroom.
      split; [exact (ptr_add_Ptr _ b' 0 p D HD ltac:(lia))|].
      split; [reflexivity|]. split; [reflexivity|]. split; [|split].
      * apply wf_block with D; fields; auto; try lia.
      * rewrite (elements_block _ b' D _ _ HD), (elements_block _ b arr _ _ Hb).
        replace (Z.to_nat (size + 1)) with (Datatypes.S (Z.to_nat size)) by lia.
        apply insert_cells; try lia.
        -- intros j Hj. apply Hlow. lia.
        -- exact Hat.
        -- intros j Hj. apply Hhigh. lia.
      * intros b'' arr'' Hb'' Hne. cbn in Hne. split.
        -- apply Hkeep; [exact Hb'' | congruence].
        -- cbn. congruence.
Qed.

(** [Insert] of an object outside the free store. *)
Lemma Insert_spec moving h v p x :
  wf h v ->
  0 <= p <= SimpleVector.size_ v ->
  (SimpleVector.size_ v = SimpleVector.capacity_ v ->
   grown (SimpleVector.capacity_ v) <= max_len) ->
  exists pos res v' h',
    ptr_add (SimpleVector.begin_ v) p h = Ok pos h
    /\ SimpleVector.Insert_with moving pos (Elsewhere x) v h = Ok (res, v') h'
    /\ ptr_add (SimpleVector.begin_ v') p h' = Ok res h'
    /\ SimpleVector.size_ v' = SimpleVector.size_ v + 1
    /\ SimpleVector.capacity_ v'
       = (if SimpleVector.size_ v <? SimpleVector.capacity_ v
          then SimpleVector.capacity_ v else grown (SimpleVector.capacity_ v))
    /\ wf h' v'
    /\ elements h' v'
       = take (Z.to_nat p) (elements h v) ++ x :: drop (Z.to_nat p) (elements h v)
    /\ evolves h (SimpleVector.data_ v) h' (SimpleVector.data_ v').
Proof.
  intros Hwf Hp Hfit.
  exact (Insert_by_reference moving h v p (Elsewhere x) x Hwf Hp Hfit eq_refl).
Qed.




(** C10. On a well-formed vector that is not empty, [PopBack] leaves
    the capacity, the buffer and the free store as they are, so the
    elements at the indices up to [size - 2] are unchanged; and [Erase]
    at a position [begin() + p] with [0 <= p < size] leaves the
    capacity and the buffer pointer as they are and the elements at the
    indices below [p] unchanged. *)
Theorem PopBack_and_Erase_keep_the_rest h v p :
  wf h v ->
  0 <= p < SimpleVector.size_ v ->
  (exists v',
     SimpleVector.PopBack v h = Ok v' h
     /\ SimpleVector.capacity_ v' = SimpleVector.capacity_ v
     /\ SimpleVector.data_ v' = SimpleVector.data_ v
     /\ SimpleVector.size_ v' = SimpleVector.size_ v - 1
     /\ forall j : nat, Z.of_nat j <= SimpleVector.size_ v - 2 ->
          elements h v' !! j = elements h v !! j)
  /\ (exists pos v' h',
        ptr_add (SimpleVector.begin_ v) p h = Ok pos h
        /\ SimpleVector.Erase pos v h = Ok (pos, v') h'
        /\ SimpleVector.capacity_ v' = SimpleVector.capacity_ v
        /\ SimpleVector.data_ v' = SimpleVector.data_ v
        /\ SimpleVector.size_ v' = SimpleVector.size_ v - 1
        /\ extent h' (SimpleVector.data_ v') = Some (SimpleVector.capacity_ v)
        /\ forall j : nat, Z.of_nat j < p ->
             elements h' v' !! j = elements h v !! j).
Proof.
  intros Hwf Hp. split.
  - destruct (PopBack_spec h v Hwf) as (Hrun & Hwf' & Hels); [lia|].
    eexists. split; [exact Hrun|]. destruct v as [size capacity data]. fields.
    repeat split. intros j Hj. rewrite Hels. apply lookup_take_lt. lia.
  - destruct (Erase_spec h v p Hwf Hp) as (pos & h' & Hpos & Hrun & _ & Hwf' & Hels & _).
    exists pos. eexists _, h'. split; [exact Hpos|]. split; [exact Hrun|].
    destruct Hwf' as [[Hext _] _]. destruct v as [size capacity data]. fields.
    split; [reflexivity|]. split; [reflexivity|]. split; [reflexivity|].
    split; [exact Hext|].
    intros j Hj. rewrite Hels. apply list_lookup_delete_lt. lia.
Qed.

End InsertErase.

(** ** Reserving and then pushing *)

Section ReserveThenPush.
Context {T : Type} `{Element T} `{Allocator}.
Implicit Types (h t : heap T) (v : SimpleVector.t).

(** C3, as amended.  For a well-formed vector of size [s] and [k]
    values with [s + k <= max(capacity, k)], which holds for every
    empty vector, the member [Reserve(k)] followed by [PushBack] of the
    [k] values reallocates only in [Reserve]: after [Reserve(k)] the
    capacity is [max(capacity, k)], which is exactly [k] when [k] was
    above the capacity, and after each of the pushes the vector has
    that same capacity and the same buffer.  When [Reserve(k)] has to
    reallocate, the allocator has to grant [k] elements. *)
Theorem Reserve_then_PushBacks_keep_capacity h v (values : list T) :
  wf h v ->
  SimpleVector.size_ v + Z.of_nat (length values)
  <= Z.max (SimpleVector.capacity_ v) (Z.of_nat (length values)) ->
  (SimpleVector.capacity_ v < Z.of_nat (length values) ->
   Z.of_nat (length values) <= max_len) ->
  exists v1 h1,
    SimpleVector.Reserve (Z.of_nat (length values)) v h = Ok v1 h1
    /\ SimpleVector.size_ v1 = SimpleVector.size_ v
    /\ SimpleVector.capacity_ v1
       = Z.max (SimpleVector.capacity_ v) (Z.of_nat (length values))
    /\ (SimpleVector.capacity_ v < Z.of_nat (length values) ->
        SimpleVector.capacity_ v1 = Z.of_nat (length values))
    /\ elements h1 v1 = elements h v
    /\ forall j : nat, (j <= length values)%nat ->
         exists vj hj,
           push_all (take j values) v1 h1 = Ok vj hj
           /\ SimpleVector.capacity_ vj = SimpleVector.capacity_ v1
           /\ SimpleVector.data_ vj = SimpleVector.data_ v1
           /\ SimpleVector.size_ vj = SimpleVector.size_ v + Z.of_nat j
           /\ elements hj vj = elements h v ++ take j values.
Proof.
  intros Hwf Hroom Hfit. set (k := Z.of_nat (length values)) in *.
  assert (Hreserve : exists v1 h1,
    SimpleVector.Reserve k v h = Ok v1 h1
    /\ SimpleVector.size_ v1 = SimpleVector.size_ v
    /\ SimpleVector.capacity_ v1 = Z.max (SimpleVector.capacity_ v) k
    /\ wf h1 v1
    /\ elements h1 v1 = elements h v).
  { destruct (Z.lt_ge_cases (SimpleVector.capacity_ v) k) as [Hlt|Hge].
    - destruct (Reserve_grow h v k Hwf) as (v1 & h1 & Hrun & Hsize & Hcap & Hwf1 & Hels & _);
        [split; [exact Hlt | now apply Hfit]|].
      exists v1, h1. split; [exact Hrun|]. split; [exact Hsize|]. split; [lia|].
      split; [exact Hwf1 | exact Hels].
    - exists v, h. rewrite (Reserve_within h v k Hge). split; [reflexivity|].
      split; [reflexivity|]. split; [lia|]. split; [exact Hwf | reflexivity]. }
  destruct Hreserve as (v1 & h1 & Hrun & Hsize & Hcap & Hwf1 & Hels).
  exists v1, h1. split; [exact Hrun|]. split; [exact Hsize|]. split; [exact Hcap|].
  split; [lia|]. split; [exact Hels|].
  intros j Hj.
  assert (Hlen : length (take j values) = j) by (rewrite length_take; lia).
  destruct (push_all_within h1 v1 (take j values) Hwf1) as (hj & Hpush & _ & Helsj & _).
  { rewrite Hlen. subst k. lia. }
  rewrite Hlen in Hpush, Helsj.
  eexists _, hj. split; [exact Hpush|].
  destruct v1 as [size1 capacity1 data1]. fields.
  split; [reflexivity|]. split; [reflexivity|]. split; [lia|].
  rewrite Helsj, Hels. reflexivity.
Qed.

End ReserveThenPush.

(** ** Construction by size and by copy *)

Section Copies.
Context {T : Type} `{Element T} `{Allocator}.
Implicit Types (h t : heap T) (arr A D : list T) (b : block) (v : SimpleVector.t).

Lemma std_fill_nothing h (p : pointer) value :
  ptr_diff p p h = Ok 0 h -> std_fill p p value h = Ok tt h.
Proof.
  intros Hdiff. unfold std_fill. step Hdiff.
  step (assert_leb 0 0 h ltac:(lia)).
  apply for_loop_empty. lia.
Qed.

Lemma SimpleVector_of_size_zero h :
  SimpleVector.of_size 0 h = Ok SimpleVector.default h.
Proof.
  unfold SimpleVector.of_size. step (of_size_zero h). fields.
  cbn [ArrayPtr.default ArrayPtr.raw_ptr_]. step (ptr_add_null h).
  step (std_fill_nothing h nullptr value_init eq_refl).
  reflexivity.
Qed.

Lemma SimpleVector_of_size_pos h size :
  0 < size <= max_len ->
  exists F,
    SimpleVector.of_size size h
    = Ok {| SimpleVector.size_ := size; SimpleVector.capacity_ := size;
            SimpleVector.data_ := {| ArrayPtr.raw_ptr_ := Ptr (fresh (dom h)) 0 |} |}
         (<[fresh (dom h) := F]> h)
    /\ Z.of_nat (length F) = size
    /\ F = replicate (Z.to_nat size) value_init.
Proof.
  intros Hsize.
  set (b' := fresh (dom h)).
  set (D0 := replicate (Z.to_nat size) default_init).
  set (h1 := <[b' := D0]> h).
  assert (Hb'1 : h1 !! b' = Some D0) by apply lookup_insert_eq.
  assert (HlD0 : Z.of_nat (length D0) = size).
  { unfold D0. rewrite length_replicate. lia. }
  destruct (std_fill_block h1 b' D0 0 size value_init Hb'1) as (F & Hfill & HlF & Hin & _);
    [lia | lia |].
  exists F. split; [|split].
  - unfold SimpleVector.of_size. step (of_size_ok size h Hsize). fold b' D0 h1. fields.
    step (ptr_add_Ptr h1 b' 0 size D0 Hb'1 ltac:(lia)). cbn [Z.add].
    step Hfill. unfold h1. rewrite insert_insert_eq. reflexivity.
  - lia.
  - apply list_eq. intros j. destruct (decide (j < Z.to_nat size)%nat) as [Hj|Hj].
    + rewrite Hin by lia. symmetry. now apply lookup_replicate_2.
    + rewrite lookup_ge_None_2 by lia. symmetry. apply lookup_replicate_None. lia.
Qed.

(** The copy constructor of a well-formed vector gives a vector with
    the size of the source, a capacity equal to that size and the same
    elements, in a buffer that is none of the arrays there were; those
    arrays, the one of the source among them, are as they were. *)
Lemma copy_ctor_spec h other :
  wf h other ->
  exists cp h',
    SimpleVector.copy_ctor other h = Ok cp h'
    /\ SimpleVector.size_ cp = SimpleVector.size_ other
    /\ SimpleVector.capacity_ cp = SimpleVector.size_ other
    /\ wf h' cp
    /\ elements h' cp = elements h other
    /\ (forall b arr, h !! b = Some arr ->
          h' !! b = Some arr /\ block_of (SimpleVector.data_ cp) <> Some b).
Proof.
  intros Hwf. destruct other as [size capacity data].
  apply wf_owns in Hwf as (arr & Ho & Hlen & Hsz & Hmax). fields.
  destruct (Z.eq_dec size 0) as [->|Hpos].
  - (* nothing to copy *)
    exists SimpleVector.default, h.
    split; [|split; [|split; [|split; [|split]]]]; try reflexivity.
    + unfold SimpleVector.copy_ctor, SimpleVector.end_, SimpleVector.begin_,
        SimpleVector.dtor. fields.
      step (SimpleVector_of_size_zero h).
      unfold std_copy. cbn [SimpleVector.default ArrayPtr.default]. fields.
      destruct Ho as [|b arr Hb]; fields.
      * step (ptr_add_null h).
        step (transfer_nothing false nullptr nullptr h eq_refl eq_refl).
        reflexivity.
      * step (ptr_add_Ptr h b 0 0 arr Hb ltac:(lia)). cbn [Z.add].
        step (transfer_nothing false (Ptr b 0) nullptr h (ptr_diff_Ptr h b 0 0) eq_refl).
        reflexivity.
    + apply owns_wf with []; fields; try (cbn; lia). apply owns_null.
    + intros b arr' Hb. split; [exact Hb | discriminate].
  - (* an array of [size] elements *)
    destruct Ho as [|b arr Hb]; [cbn in Hlen; lia|].
    destruct (SimpleVector_of_size_pos h size ltac:(lia)) as (F & Hcp & HlF & _).
    set (b' := fresh (dom h)) in *.
    set (h1 := <[b' := F]> h) in *.
    assert (Hne : b <> b').
    { intros ->. unfold b' in Hb. rewrite fresh_block_free in Hb. discriminate. }
    assert (HF : h1 !! b' = Some F) by apply lookup_insert_eq.
    assert (Hb1 : h1 !! b = Some arr).
    { unfold h1. rewrite lookup_insert_ne by auto. exact Hb. }
    destruct (transfer_blocks false h1 b b' arr F 0 size 0 Hne Hb1 HF)
      as (h' & Hcopy & A' & D' & HA' & HD' & HlA & HlD & Hcopied & Hrest & Hsrc & Hother & Hsame);
      [lia | lia | lia | lia |].
    rewrite (Hsame eq_refl) in HA'.
    eexists _, h'.
    split; [|split; [|split; [|split; [|split]]]].
    + unfold SimpleVector.copy_ctor, SimpleVector.end_, SimpleVector.begin_,
        SimpleVector.dtor. fields.
      step Hcp. fields.
      step (ptr_add_Ptr h1 b 0 size arr Hb1 ltac:(lia)). cbn [Z.add].
      unfold std_copy. step Hcopy.
      cbn [ArrayPtr.swap SimpleVector.default ArrayPtr.default]. fields.
      reflexivity.
    + reflexivity.
    + reflexivity.
    + apply wf_block with D'; fields; auto; lia.
    + rewrite (elements_block _ b' D' _ _ HD').
      unfold elements, buffer. fields. rewrite Hb. cbn [default].
      apply take_ext. intros j Hj. rewrite Hcopied by lia. f_equal. lia.
    + intros b'' arr'' Hb''. fields.
      assert (b'' <> b') by (intros ->; unfold b' in Hb''; rewrite fresh_block_free in Hb''; discriminate).
      split; [|cbn; congruence].
      destruct (decide (b'' = b)) as [->|Hneb].
      * rewrite HA'. congruence.
      * rewrite Hother by auto. unfold h1. rewrite lookup_insert_ne by auto. exact Hb''.
Qed.

End Copies.

(** ** Resizing *)

Lemma append_cells {X} (arr A' : list X) (size n : nat) (x : X) :
  (size <= n)%nat -> (size <= length arr)%nat -> (n <= length A')%nat ->
  (forall j : nat, (j < size)%nat -> A' !! j = arr !! j) ->
  (forall j : nat, (size <= j < n)%nat -> A' !! j = Some x) ->
  take n A' = take size arr ++ replicate (n - size) x.
Proof.
  intros Hn Hsize Hlen Hlow Hhigh. apply list_eq. intros j.
  assert (Hl : length (take size arr) = size) by (rewrite length_take; lia).
  destruct (decide (j < size)%nat) as [Hj|Hj].
  - rewrite lookup_take_lt by lia. rewrite lookup_app_l by lia.
    rewrite lookup_take_lt by lia. now apply Hlow.
  - rewrite lookup_app_r by lia. rewrite Hl.
    destruct (decide (j < n)%nat) as [Hjn|Hjn].
    + rewrite lookup_take_lt by lia. rewrite Hhigh by lia.
      symmetry. apply lookup_replicate_2. lia.
    + rewrite lookup_take_ge by lia. symmetry. apply lookup_replicate_None. lia.
Qed.

Section Resizing.
Context {T : Type} `{Element T} `{Allocator}.
Implicit Types (h t : heap T) (arr A D : list T) (b : block) (v : SimpleVector.t).

(** The loop [for (i = lo; i < hi; ++i) data[i] = Type();] over cells
    of one array. *)
Lemma fill_loop t b A lo hi :
  t !! b = Some A ->
  0 <= lo <= hi -> hi <= Z.of_nat (length A) ->
  exists A',
    for_loop lo hi (fun i =>
      dst <- ArrayPtr.index {| ArrayPtr.raw_ptr_ := Ptr b 0 |} i ;;
      store dst value_init) t
    = Ok tt (<[b := A']> t)
    /\ length A' = length A
    /\ (forall j : nat, lo <= Z.of_nat j < hi -> A' !! j = Some value_init)
    /\ (forall j : nat, ~ lo <= Z.of_nat j < hi -> A' !! j = A !! j).
Proof.
  intros HA Hlo Hhi.
  destruct (for_loop_invariant
              (fun k u => exists A', u = <[b := A']> t /\ length A' = length A
                 /\ (forall j : nat, lo <= Z.of_nat j < k -> A' !! j = Some value_init)
                 /\ (forall j : nat, ~ lo <= Z.of_nat j < k -> A' !! j = A !! j))
              (fun i => dst <- ArrayPtr.index {| ArrayPtr.raw_ptr_ := Ptr b 0 |} i ;;
                        store dst value_init) lo hi t)
    as (t' & Hrun & A' & -> & HlA & Hin & Hout).
  - lia.
  - exists A. split; [now rewrite insert_id|]. repeat split; auto. intros j Hj. lia.
  - intros k u Hk (A' & -> & HlA & Hin & Hout).
    assert (HA' : (<[b := A']> t : heap T) !! b = Some A') by apply lookup_insert_eq.
    eexists. split.
    + apply (store_at _ b A' k value_init HA'). lia.
    + eexists. split; [apply insert_insert_eq|]. split; [|split].
      * rewrite length_insert. exact HlA.
      * intros j Hj. destruct (decide (j = Z.to_nat k)) as [->|Hjk].
        -- apply list_lookup_insert_eq. lia.
        -- rewrite list_lookup_insert_ne by auto. apply Hin. lia.
      * intros j Hj. rewrite list_lookup_insert_ne by lia. apply Hout. lia.
  - exists A'. auto.
Qed.

(** The loop [for (i = 0; i < n; ++i) new_data[i] = std::move(data[i]);] *)
Lemma move_loop t b b' A D n :
  b <> b' ->
  t !! b = Some A -> t !! b' = Some D ->
  0 <= n -> n <= Z.of_nat (length A) -> n <= Z.of_nat (length D) ->
  exists t',
    for_loop 0 n (fun i =>
      src <- ArrayPtr.index {| ArrayPtr.raw_ptr_ := Ptr b 0 |} i ;;
      dst <- ArrayPtr.index {| ArrayPtr.raw_ptr_ := Ptr b' 0 |} i ;;
      move_elem dst src) t
    = Ok tt t'
    /\ transferred true t b b' A D 0 0 n t'.
Proof.
  intros Hne HA HD Hn HnA HnD.
  apply (for_loop_invariant (transferred true t b b' A D 0 0)).
  - lia.
  - now apply transferred_start.
  - intros k u Hk Htr.
    destruct (transferred_cells _ _ _ _ _ _ _ _ _ _ Htr) as (A' & D' & HA' & HD' & HlA & HlD).
    destruct (transferred_step true _ _ _ _ _ _ _ _ _ Hne Htr) as (t' & Hstep & Htr');
      try lia.
    exists t'. split; [|exact Htr'].
    step (index_Ptr u b k A' HA' ltac:(lia)).
    step (index_Ptr u b' k D' HD' ltac:(lia)).
    exact Hstep.
Qed.

(** [Resize] to at most the size only sets the size. *)
Lemma Resize_shrink h v new_size :
  new_size <= SimpleVector.size_ v ->
  SimpleVector.Resize new_size v h = Ok (SimpleVector.set_size_ new_size v) h.
Proof.
  intros Hle. unfold SimpleVector.Resize.
  replace (new_size <=? SimpleVector.size_ v) with true by lia. reflexivity.
Qed.

(** [Resize] above the size and within the capacity fills the new
    cells of the same buffer with [Type()]. *)
Lemma Resize_within h v new_size :
  wf h v ->
  SimpleVector.size_ v < new_size <= SimpleVector.capacity_ v ->
  exists h',
    SimpleVector.Resize new_size v h = Ok (SimpleVector.set_size_ new_size v) h'
    /\ wf h' (SimpleVector.set_size_ new_size v)
    /\ elements h' (SimpleVector.set_size_ new_size v)
       = elements h v
         ++ replicate (Z.to_nat (new_size - SimpleVector.size_ v)) value_init
    /\ evolves h (SimpleVector.data_ v) h' (SimpleVector.data_ v).
Proof.
  intros Hwf Hn. destruct v as [size capacity data].
  apply wf_owns in Hwf as (arr & Ho & Hlen & Hsz & Hmax). fields.
  destruct Ho as [|b arr Hb]; [cbn in Hlen; lia|].
  destruct (fill_loop h b arr size new_size Hb) as (A' & Hfill & HlA & Hin & Hout);
    [lia | lia |].
  assert (HA' : (<[b := A']> h : heap T) !! b = Some A') by apply lookup_insert_eq.
  exists (<[b := A']> h). split; [|split; [|split]].
  - unfold SimpleVector.Resize. fields.
    replace (new_size <=? size) with false by lia.
    replace (new_size <=? capacity) with true by lia.
    step Hfill. reflexivity.
  - apply wf_block with A'; fields; auto; lia.
  - rewrite (elements_block _ b A' _ _ HA'), (elements_block _ b arr _ _ Hb).
    replace (Z.to_nat (new_size - size)) with (Z.to_nat new_size - Z.to_nat size)%nat by lia.
    apply append_cells; try lia.
    + intros j Hj. apply Hout. lia.
    + intros j Hj. apply Hin. lia.
  - apply evolves_insert.
Qed.

(** [Resize] above the capacity, when the new capacity
    [max(new_size, 2 * capacity)] is below [2^31] and so survives the
    [int] it goes through, and the allocator grants it: the vector gets
    a fresh array of that capacity with the old elements followed by
    [Type()] up to the new size. *)
Lemma Resize_grow h v new_size :
  wf h v ->
  SimpleVector.capacity_ v < new_size ->
  Z.max new_size (2 * SimpleVector.capacity_ v) < 2 ^ 31 ->
  Z.max new_size (2 * SimpleVector.capacity_ v) <= max_len ->
  exists v' h',
    SimpleVector.Resize new_size v h = Ok v' h'
    /\ SimpleVector.size_ v' = new_size
    /\ SimpleVector.capacity_ v' = Z.max new_size (2 * SimpleVector.capacity_ v)
    /\ wf h' v'
    /\ elements h' v'
       = elements h v
         ++ replicate (Z.to_nat (new_size - SimpleVector.size_ v)) value_init
    /\ evolves h (SimpleVector.data_ v) h' (SimpleVector.data_ v').
Proof.
  intros Hwf Hn Hint Hfit. destruct v as [size capacity data].
  apply wf_owns in Hwf as (arr & Ho & Hlen & Hsz & Hmax). fields.
  set (new_capacity := Z.max new_size (2 * capacity)) in *.
  assert (Hnarrow : of_int (to_int (Z.max new_size (wrap (capacity * 2)))) = new_capacity).
  { rewrite (size_t_fits (capacity * 2)) by lia.
    replace (capacity * 2) with (2 * capacity) by lia.
    fold new_capacity. rewrite to_int_small by lia.
    unfold of_int. apply wrap_small. rewrite size_t_modulus_eq. lia. }
  set (b' := fresh (dom h)).
  set (D0 := replicate (Z.to_nat new_capacity) default_init).
  set (h1 := <[b' := D0]> h).
  assert (Hfree : h !! b' = None) by apply fresh_block_free.
  assert (Hb'1 : h1 !! b' = Some D0) by apply lookup_insert_eq.
  assert (HlD0 : Z.of_nat (length D0) = new_capacity).
  { unfold D0. rewrite length_replicate. lia. }
  assert (Hpos : 0 < new_capacity <= max_len) by lia.
  unfold SimpleVector.Resize. fields.
  replace (new_size <=? size) with false by lia.
  replace (new_size <=? capacity) with false by lia.
  rewrite Hnarrow.
  pose proof Ho as Hown. destruct Ho as [|b arr Hb].
  - (* no old buffer *)
    cbn in Hlen. assert (size = 0) as -> by lia.
    destruct (fill_loop h1 b' D0 0 new_size Hb'1) as (D' & Hfill & HlD & Hin & Hout);
      [lia | lia |].
    assert (HD' : (<[b' := D']> h1 : heap T) !! b' = Some D') by apply lookup_insert_eq.
    eexists _, (<[b' := D']> h1).
    split; [|split; [|split; [|split; [|split]]]].
    + step (of_size_ok new_capacity h Hpos). fold b' D0 h1.
      step (for_loop_empty
              (fun i => src <- ArrayPtr.index {| ArrayPtr.raw_ptr_ := nullptr |} i ;;
                        dst <- ArrayPtr.index {| ArrayPtr.raw_ptr_ := Ptr b' 0 |} i ;;
                        move_elem dst src) 0 0 h1 ltac:(lia)).
      step Hfill. reflexivity.
    + reflexivity.
    + reflexivity.
    + apply wf_block with D'; fields; auto; lia.
    + rewrite (elements_block _ b' D' _ _ HD'). unfold elements. fields.
      cbn [buffer ArrayPtr.raw_ptr_]. change (Z.to_nat 0) with O. rewrite take_0, app_nil_l.
      rewrite Z.sub_0_r. symmetry. apply list_eq. intros j.
      destruct (decide (j < Z.to_nat new_size)%nat) as [Hj|Hj].
      * rewrite lookup_take_lt by lia. rewrite Hin by lia. now apply lookup_replicate_2.
      * rewrite lookup_take_ge by lia. apply lookup_replicate_None. lia.
    + intros b arr Hb _. split; [|cbn; congruence].
      assert (b <> b') by congruence.
      unfold h1. rewrite !lookup_insert_ne by auto. exact Hb.
  - (* an old array [b] *)
    assert (Hne : b <> b') by congruence.
    assert (Hb1 : h1 !! b = Some arr).
    { unfold h1. rewrite lookup_insert_ne by auto. exact Hb. }
    destruct (move_loop h1 b b' arr D0 size Hne Hb1 Hb'1) as (t1 & Hmove & Htr);
      [lia | lia | lia |].
    destruct Htr as (A1 & D1 & HA1 & HD1 & HlA1 & HlD1 & Hcopied & Hrest & Hsrc & Hother & _).
    destruct (fill_loop t1 b' D1 size new_size HD1) as (D' & Hfill & HlD & Hin & Hout);
      [lia | lia |].
    assert (HD' : (<[b' := D']> t1 : heap T) !! b' = Some D') by apply lookup_insert_eq.
    assert (HA' : (<[b' := D']> t1 : heap T) !! b = Some A1).
    { rewrite lookup_insert_ne by auto. exact HA1. }
    eexists _, (delete b (<[b' := D']> t1)).
    split; [|split; [|split; [|split; [|split]]]].
    + step (of_size_ok new_capacity h Hpos). fold b' D0 h1.
      step Hmove. step Hfill.
      cbn [ArrayPtr.swap]. fields. unfold ArrayPtr.dtor. fields.
      step (delete_array_Ptr _ b A1 HA'). reflexivity.
    + reflexivity.
    + reflexivity.
    + apply wf_block with D'; fields; try lia.
      rewrite lookup_delete_ne by auto. exact HD'.
    + rewrite (elements_block _ b' D').
      2: { rewrite lookup_delete_ne by auto. exact HD'. }
      unfold elements. fields. rewrite (owns_buffer _ _ _ Hown).
      replace (Z.to_nat (new_size - size)) with (Z.to_nat new_size - Z.to_nat size)%nat by lia.
      apply append_cells; try lia.
      * intros j Hj. rewrite Hout by lia. rewrite Hcopied by lia. f_equal. lia.
      * intros j Hj. apply Hin. lia.
    + intros b'' arr'' Hb'' Hne''. cbn in Hne''. split; [|cbn; congruence].
      assert (b'' <> b') by congruence. assert (b'' <> b) by congruence.
      rewrite lookup_delete_ne by auto. rewrite lookup_insert_ne by auto.
      rewrite Hother by auto. unfold h1. rewrite lookup_insert_ne by auto. exact Hb''.
Qed.

End Resizing.

(** ** Calls that do not return *)

Lemma for_count_app {S} (body : Z -> M S unit) n m i s :
  for_count (n + m) i body s
  = (for_count n i body ;; for_count m (i + Z.of_nat n) body) s.
Proof.
  revert i s. induction n as [|n IH]; intros i s.
  - cbn [for_count Nat.add]. rewrite bind_ret. now rewrite Z.add_0_r.
  - cbn [for_count Nat.add]. unfold bind.
    destruct (body i s) as [[] t|e t|]; [|reflexivity|reflexivity].
    rewrite IH. unfold bind.
    replace (i + 1 + Z.of_nat n) with (i + Z.of_nat (Datatypes.S n)) by lia.
    reflexivity.
Qed.

(** A loop stops being defined at the first index at which its body
    is undefined. *)
Lemma for_loop_undefined {S} (body : Z -> M S unit) lo k hi s t :
  lo <= k < hi ->
  for_loop lo k body s = Ok tt t ->
  body k t = UB ->
  for_loop lo hi body s = UB.
Proof.
  intros Hk Hrun Hbody. unfold for_loop in *.
  replace (Z.to_nat (hi - lo))
    with (Z.to_nat (k - lo) + Datatypes.S (Z.to_nat (hi - k - 1)))%nat by lia.
  rewrite for_count_app. rewrite (bind_Ok _ _ _ _ _ Hrun).
  cbn [for_count]. apply bind_UB.
  replace (lo + Z.of_nat (Z.to_nat (k - lo))) with k by lia. exact Hbody.
Qed.

Section Undefined.
Context {T : Type} `{Element T} `{Allocator}.
Implicit Types (h t : heap T) (arr A D : list T) (b : block) (v : SimpleVector.t).

Lemma index_null_undefined h i :
  ArrayPtr.index {| ArrayPtr.raw_ptr_ := nullptr |} i h = UB.
Proof.
  unfold ArrayPtr.index, bind, ptr_add. cbn [ArrayPtr.raw_ptr_].
  destruct (i =? 0); reflexivity.
Qed.

Lemma index_past_the_end h b arr i :
  h !! b = Some arr -> Z.of_nat (length arr) <= i ->
  ArrayPtr.index {| ArrayPtr.raw_ptr_ := Ptr b 0 |} i h = UB.
Proof.
  intros Hb Hi. unfold ArrayPtr.index, bind, ptr_add, lvalue. cbn [ArrayPtr.raw_ptr_].
  rewrite Hb. destruct ((0 <=? 0 + i) && (0 + i <=? Z.of_nat (length arr))); [|reflexivity].
  rewrite Hb. replace (0 + i <? Z.of_nat (length arr)) with false by lia.
  now rewrite andb_false_r.
Qed.

(** [Resize] above the capacity throws when the allocator does not
    grant the new capacity. *)
Lemma Resize_throw h v new_size :
  wf h v ->
  SimpleVector.capacity_ v < new_size ->
  Z.max new_size (2 * SimpleVector.capacity_ v) < 2 ^ 31 ->
  max_len < Z.max new_size (2 * SimpleVector.capacity_ v) ->
  SimpleVector.Resize new_size v h = Throw bad_alloc h.
Proof.
  intros [[_ Hsz] Hmax] Hn Hint Hfit. destruct v as [size capacity data]. fields.
  unfold SimpleVector.Resize. fields.
  replace (new_size <=? size) with false by lia.
  replace (new_size <=? capacity) with false by lia.
  rewrite (size_t_fits (capacity * 2)) by lia.
  replace (capacity * 2) with (2 * capacity) by lia.
  rewrite to_int_small by lia.
  unfold of_int. rewrite wrap_small by (rewrite size_t_modulus_eq; lia).
  apply bind_Throw. apply of_size_throw; lia.
Qed.

(** What the [int] does to a new capacity of [2^31] or more: read back
    as a [size_t] it is larger than any array, or it is less than the
    new size. *)
Lemma narrowed_capacity new_size capacity :
  0 <= capacity <= max_len ->
  capacity < new_size < size_t_modulus ->
  2 ^ 31 <= Z.max new_size (2 * capacity) ->
  let n' := of_int (to_int (Z.max new_size (wrap (capacity * 2)))) in
  (max_len < n' /\ n' <> 0) \/ (0 <= n' < new_size).
Proof.
  intros Hcap Hn Hbig. pose proof max_len_ptrdiff as Hptr. cbv zeta.
  rewrite (size_t_fits (capacity * 2)) by lia.
  replace (capacity * 2) with (2 * capacity) by lia.
  set (x := Z.max new_size (2 * capacity)) in *.
  assert (Hx : x < 2 ^ 64) by (rewrite size_t_modulus_eq in Hn; lia).
  unfold of_int, to_int, wrap. rewrite size_t_modulus_eq.
  change (2 ^ 31) with 2147483648 in *. change (2 ^ 32) with 4294967296.
  change (2 ^ 63) with 9223372036854775808 in *.
  change (2 ^ 64) with 18446744073709551616 in *.
  pose proof (Z.mod_pos_bound (x + 2147483648) 4294967296 ltac:(lia)) as Hr.
  pose proof (Z.div_mod (x + 2147483648) 4294967296 ltac:(lia)) as Hq.
  set (r := (x + 2147483648) mod 4294967296) in *.
  set (q := (x + 2147483648) / 4294967296) in *.
  destruct (Z.lt_ge_cases (r - 2147483648) 0) as [Hneg|Hpos].
  - left.
    replace ((r - 2147483648) mod 18446744073709551616)
      with (r - 2147483648 + 18446744073709551616).
    + lia.
    + apply Z.mod_unique with (-1); lia.
  - right. rewrite Z.mod_small by lia. lia.
Qed.

End Undefined.

Section Narrowed.
Context {T : Type} `{Element T} `{Allocator}.
Implicit Types (h t : heap T) (arr A D : list T) (b : block) (v : SimpleVector.t).

(** Moving into a cell that the new array does not have. *)
Lemma move_body_null h (data : ArrayPtr.t) i :
  (src <- ArrayPtr.index data i ;;
   dst <- ArrayPtr.index {| ArrayPtr.raw_ptr_ := nullptr |} i ;;
   move_elem dst src) h = UB.
Proof.
  unfold bind at 1. destruct (ArrayPtr.index data i h) as [p t|e t|] eqn:Hsrc.
  - apply bind_UB. apply index_null_undefined.
  - exfalso. exact (index_no_throw _ _ _ _ _ Hsrc).
  - reflexivity.
Qed.

Lemma move_body_past_the_end h b b' A D i :
  h !! b = Some A -> h !! b' = Some D ->
  0 <= i < Z.of_nat (length A) -> Z.of_nat (length D) <= i ->
  (src <- ArrayPtr.index {| ArrayPtr.raw_ptr_ := Ptr b 0 |} i ;;
   dst <- ArrayPtr.index {| ArrayPtr.raw_ptr_ := Ptr b' 0 |} i ;;
   move_elem dst src) h = UB.
Proof.
  intros HA HD Hi HiD. step (index_Ptr h b i A HA Hi).
  apply bind_UB. now apply index_past_the_end with D.
Qed.

Lemma fill_body_past_the_end h b D i :
  h !! b = Some D -> Z.of_nat (length D) <= i ->
  (dst <- ArrayPtr.index {| ArrayPtr.raw_ptr_ := Ptr b 0 |} i ;;
   store dst value_init) h = UB.
Proof. intros HD Hi. apply bind_UB. now apply index_past_the_end with D. Qed.

(** [Resize] above the capacity, when the new capacity
    [max(new_size, 2 * capacity)] is [2^31] or more and so does not
    survive the [int]: the call throws before it changed anything, or it
    leaves the bounds of the array it allocated. *)
Lemma Resize_narrowed h v new_size :
  wf h v ->
  SimpleVector.capacity_ v < new_size < size_t_modulus ->
  2 ^ 31 <= Z.max new_size (2 * SimpleVector.capacity_ v) ->
  SimpleVector.Resize new_size v h = Throw bad_alloc h
  \/ SimpleVector.Resize new_size v h = UB.
Proof.
  intros Hwf Hn Hbig. destruct v as [size capacity data].
  apply wf_owns in Hwf as (arr & Ho & Hlen & Hsz & Hmax). fields.
  assert (Hcap : 0 <= capacity <= max_len) by lia.
  destruct (narrowed_capacity new_size capacity Hcap Hn Hbig) as [[Hhuge Hnz]|Hless];
    cbv zeta in *.
  all: unfold SimpleVector.Resize; fields.
  all: replace (new_size <=? size) with false by lia.
  all: replace (new_size <=? capacity) with false by lia.
  all: set (n' := of_int (to_int (Z.max new_size (wrap (capacity * 2))))) in *.
  - left. apply bind_Throw. now apply of_size_throw.
  - destruct (Z.eq_dec n' 0) as [Hz|Hnz].
    + (* no array at all *)
      right. rewrite Hz. step (of_size_zero h). cbn [ArrayPtr.default].
      destruct (Z.eq_dec size 0) as [->|Hsize].
      * step (for_loop_empty
                (fun i => src <- ArrayPtr.index data i ;;
                          dst <- ArrayPtr.index {| ArrayPtr.raw_ptr_ := nullptr |} i ;;
                          move_elem dst src) 0 0 h ltac:(lia)).
        apply bind_UB. apply (for_loop_undefined _ 0 0 new_size h h); [lia | |].
        -- apply for_loop_empty. lia.
        -- apply bind_UB. apply index_null_undefined.
      * apply bind_UB. apply (for_loop_undefined _ 0 0 size h h); [lia | |].
        -- apply for_loop_empty. lia.
        -- apply move_body_null.
    + destruct (Z.lt_ge_cases max_len n') as [Hhuge|Hfit].
      { left. apply bind_Throw. now apply of_size_throw. }
      right.
      set (b' := fresh (dom h)).
      set (D0 := replicate (Z.to_nat n') default_init).
      set (h1 := <[b' := D0]> h).
      assert (Hb'1 : h1 !! b' = Some D0) by apply lookup_insert_eq.
      assert (HlD0 : Z.of_nat (length D0) = n').
      { unfold D0. rewrite length_replicate. lia. }
      assert (Hpos : 0 < n' <= max_len) by lia.
      step (of_size_ok n' h Hpos). fold b' D0 h1.
      destruct Ho as [|b arr Hb].
      * (* no old buffer: the fill runs off the new array *)
        cbn in Hlen. assert (size = 0) as -> by lia.
        step (for_loop_empty
                (fun i => src <- ArrayPtr.index {| ArrayPtr.raw_ptr_ := nullptr |} i ;;
                          dst <- ArrayPtr.index {| ArrayPtr.raw_ptr_ := Ptr b' 0 |} i ;;
                          move_elem dst src) 0 0 h1 ltac:(lia)).
        apply bind_UB.
        destruct (fill_loop h1 b' D0 0 n' Hb'1) as (D' & Hfill & HlD & _); [lia | lia |].
        apply (for_loop_undefined _ 0 n' new_size h1 _ ltac:(lia) Hfill).
        apply fill_body_past_the_end with D'; [apply lookup_insert_eq | lia].
      * assert (Hne : b <> b').
        { intros ->. unfold b' in Hb. rewrite fresh_block_free in Hb. discriminate. }
        assert (Hb1 : h1 !! b = Some arr).
        { unfold h1. rewrite lookup_insert_ne by auto. exact Hb. }
        destruct (Z.le_gt_cases size n') as [Hle|Hgt].
        -- (* the elements fit, the fill runs off the new array *)
           destruct (move_loop h1 b b' arr D0 size Hne Hb1 Hb'1) as (t1 & Hmove & Htr);
             [lia | lia | lia |].
           destruct Htr as (A1 & D1 & HA1 & HD1 & HlA1 & HlD1 & _).
           step Hmove. apply bind_UB.
           destruct (fill_loop t1 b' D1 size n' HD1) as (D' & Hfill & HlD & _); [lia | lia |].
           apply (for_loop_undefined _ size n' new_size t1 _ ltac:(lia) Hfill).
           apply fill_body_past_the_end with D'; [apply lookup_insert_eq | lia].
        -- (* the elements do not fit *)
           apply bind_UB.
           destruct (move_loop h1 b b' arr D0 n' Hne Hb1 Hb'1) as (t1 & Hmove & Htr);
             [lia | lia | lia |].
           destruct Htr as (A1 & D1 & HA1 & HD1 & HlA1 & HlD1 & _).
           apply (for_loop_undefined _ 0 n' size h1 _ ltac:(lia) Hmove).
           apply move_body_past_the_end with A1 D1; auto; lia.
Qed.

End Narrowed.

(** ** Every call keeps the rest of the free store *)

Section Contained.
Context {T : Type} `{Element T} `{Allocator}.
Implicit Types (h t : heap T) (arr A D : list T) (b : block) (v : SimpleVector.t).

(** [Insert] into a full vector throws when the allocator does not
    grant the grown capacity. *)
Lemma Insert_refused moving h v p (value : reference T) :
  wf h v ->
  0 <= p <= SimpleVector.size_ v ->
  SimpleVector.size_ v = SimpleVector.capacity_ v ->
  max_len < grown (SimpleVector.capacity_ v) ->
  exists pos,
    ptr_add (SimpleVector.begin_ v) p h = Ok pos h
    /\ SimpleVector.Insert_with moving pos value v h = Throw bad_alloc h.
Proof.
  intros Hwf Hp Hfull Hfit. destruct v as [size capacity data].
  apply wf_owns in Hwf as (arr & Ho & Hlen & Hsz & Hmax). fields.
  destruct (owns_ptr_add h data arr p Ho ltac:(lia)) as (pos & Hpos & Hdiff).
  exists pos. unfold SimpleVector.begin_. split; [exact Hpos|].
  unfold SimpleVector.Insert_with. fields. unfold ArrayPtr.Get in *.
  step Hdiff. rewrite (size_t_fits p) by lia.
  step (assert_leb p size h ltac:(lia)).
  step Hpos.
  rewrite (new_capacity_grown size capacity) by lia.
  rewrite (size_t_fits (size + 1)) by lia.
  replace (size + 1 <=? capacity) with false by lia.
  apply bind_Throw. apply bind_Throw.
  apply of_size_throw; [exact Hfit|]. pose proof (grown_holds_one_more capacity). lia.
Qed.

Lemma Insert_throw moving h v p x :
  wf h v ->
  0 <= p <= SimpleVector.size_ v ->
  SimpleVector.size_ v = SimpleVector.capacity_ v ->
  max_len < grown (SimpleVector.capacity_ v) ->
  exists pos,
    ptr_add (SimpleVector.begin_ v) p h = Ok pos h
    /\ SimpleVector.Insert_with moving pos (Elsewhere x) v h = Throw bad_alloc h.
Proof. apply Insert_refused. Qed.

(** [Insert] at an offset that is no position of the vector. *)
Lemma Insert_out_of_range moving h v offset x :
  wf h v ->
  ~ 0 <= offset <= SimpleVector.size_ v ->
  mutate (MInsert moving offset x) v h = UB.
Proof.
  intros Hwf Hout. destruct v as [size capacity data].
  apply wf_owns in Hwf as (arr & Ho & Hlen & Hsz & Hmax). fields.
  unfold mutate, SimpleVector.begin_. fields.
  destruct Ho as [|b arr Hb]; fields.
  - cbn in Hlen. apply bind_UB. unfold ptr_add.
    replace (offset =? 0) with false by lia. reflexivity.
  - destruct (decide (0 <= offset <= Z.of_nat (length arr))) as [Hin|Hnot].
    + step (ptr_add_Ptr h b 0 offset arr Hb ltac:(lia)). cbn [Z.add].
      apply bind_UB. unfold SimpleVector.Insert_with. fields.
      step (ptr_diff_Ptr h b offset 0).
      rewrite Z.sub_0_r. rewrite (size_t_fits offset) by lia.
      replace (offset <=? size) with false by lia. reflexivity.
    + apply bind_UB. unfold ptr_add. rewrite Hb.
      destruct (Z.leb_spec 0 (0 + offset)); destruct (Z.leb_spec (0 + offset) (Z.of_nat (length arr)));
        cbn [andb]; try reflexivity. lia.
Qed.

(** [Erase] at an offset that designates no element. *)
Lemma Erase_out_of_range h v offset :
  wf h v ->
  ~ 0 <= offset < SimpleVector.size_ v ->
  mutate (MErase offset) v h = UB.
Proof.
  intros Hwf Hout. destruct v as [size capacity data].
  apply wf_owns in Hwf as (arr & Ho & Hlen & Hsz & Hmax). fields.
  unfold mutate, SimpleVector.begin_. fields.
  destruct Ho as [|b arr Hb]; fields.
  - cbn in Hlen. assert (size = 0) as -> by lia.
    unfold ptr_add at 1. unfold bind at 1.
    destruct (Z.eqb_spec offset 0) as [->|Hne]; [|reflexivity].
    reflexivity.
  - destruct (decide (0 <= offset <= Z.of_nat (length arr))) as [Hin|Hnot].
    + step (ptr_add_Ptr h b 0 offset arr Hb ltac:(lia)). cbn [Z.add].
      apply bind_UB. unfold SimpleVector.Erase, SimpleVector.begin_, SimpleVector.end_. fields.
      step (ptr_le_Ptr h b 0 offset).
      replace (0 <=? offset - 0) with true by lia. cbv iota.
      assert (Hlt : (e <- ptr_add (Ptr b 0) size ;; ptr_lt (Ptr b offset) e) h = Ok false h).
      { step (ptr_add_Ptr h b 0 size arr Hb ltac:(lia)).
        rewrite ptr_lt_Ptr. f_equal. lia. }
      step Hlt. reflexivity.
    + apply bind_UB. unfold ptr_add. rewrite Hb.
      destruct (Z.leb_spec 0 (0 + offset)); destruct (Z.leb_spec (0 + offset) (Z.of_nat (length arr)));
        cbn [andb]; try reflexivity. lia.
Qed.

(** Assigning through [operator[]] writes one cell of the buffer, or is
    undefined. *)
Lemma Assign_contained h v index value :
  wf h v ->
  contained h (SimpleVector.data_ v) (mutate (MAssign index value) v h).
Proof.
  intros Hwf. pose proof Hwf as Hwf0. destruct v as [size capacity data].
  apply wf_owns in Hwf as (arr & Ho & Hlen & Hsz & Hmax). fields.
  unfold mutate, SimpleVector.index. fields.
  destruct Ho as [|b arr Hb]; fields.
  - rewrite (bind_UB _ _ _ (index_null_undefined h index)). exact I.
  - destruct (decide (0 <= index < Z.of_nat (length arr))) as [Hin|Hnot].
    + step (index_Ptr h b index arr Hb Hin).
      step (store_Ptr h b index arr value Hb Hin). cbn [ret contained]. split.
      * apply wf_block with (<[Z.to_nat index := value]> arr); fields;
          [apply lookup_insert_eq | rewrite length_insert; lia | lia | lia].
      * apply evolves_insert.
    + assert (Hub : ArrayPtr.index {| ArrayPtr.raw_ptr_ := Ptr b 0 |} index h = UB).
      { unfold ArrayPtr.index, bind, ptr_add, lvalue. fields. rewrite Hb.
        destruct (Z.leb_spec 0 (0 + index));
          destruct (Z.leb_spec (0 + index) (Z.of_nat (length arr)));
          cbn [andb]; try reflexivity.
        rewrite Hb. destruct (Z.ltb_spec (0 + index) (Z.of_nat (length arr)));
          [lia | now rewrite andb_false_r]. }
      rewrite (bind_UB _ _ _ Hub). exact I.
Qed.

(** On a well-formed vector, every call with arguments of its types
    returns a well-formed vector and keeps the rest of the free store,
    or throws before it changed anything, or is outside its contract. *)
Lemma mutate_contained h v m :
  wf h v -> well_typed m ->
  contained h (SimpleVector.data_ v) (mutate m v h).
Proof.
  intros Hwf Hm. pose proof Hwf as [[Hext Hsz] Hmax].
  destruct m as [index value| |new_size|new_capacity|value|moving offset value| |offset];
    cbn [well_typed] in Hm.
  - now apply Assign_contained.
  - cbn [mutate ret contained]. split; [|apply evolves_refl].
    destruct v as [size capacity data]. unfold SimpleVector.Clear. fields.
    split; [split|]; fields; auto. lia.
  - cbn [mutate]. destruct Hm as [Hm0 Hm1].
    destruct (Z.le_gt_cases new_size (SimpleVector.size_ v)) as [Hshrink|Hgrow].
    { rewrite Resize_shrink by exact Hshrink. cbn [contained]. split; [|apply evolves_refl].
      destruct v as [size capacity data]. fields. split; [split|]; fields; auto. lia. }
    destruct (Z.le_gt_cases new_size (SimpleVector.capacity_ v)) as [Hwithin|Habove].
    { destruct (Resize_within h v new_size Hwf) as (h' & Hrun & Hwf' & _ & Hev); [lia|].
      rewrite Hrun. cbn [contained]. split; [exact Hwf'|].
      destruct v; exact Hev. }
    destruct (Z.lt_ge_cases (Z.max new_size (2 * SimpleVector.capacity_ v)) (2 ^ 31))
      as [Hint|Hbig].
    + destruct (Z.le_gt_cases (Z.max new_size (2 * SimpleVector.capacity_ v)) max_len)
        as [Hfit|Hnofit].
      * destruct (Resize_grow h v new_size Hwf) as (v' & h' & Hrun & _ & _ & Hwf' & _ & Hev);
          [lia | exact Hint | exact Hfit |].
        rewrite Hrun. split; assumption.
      * rewrite (Resize_throw h v new_size Hwf) by lia. reflexivity.
    + destruct (Resize_narrowed h v new_size Hwf) as [Hrun|Hrun]; [lia | exact Hbig | |];
        rewrite Hrun; [reflexivity | exact I].
  - cbn [mutate]. destruct Hm as [Hm0 Hm1].
    destruct (Z.le_gt_cases new_capacity (SimpleVector.capacity_ v)) as [Hwithin|Habove].
    { rewrite Reserve_within by exact Hwithin. split; [exact Hwf | apply evolves_refl]. }
    destruct (Z.le_gt_cases new_capacity max_len) as [Hfit|Hnofit].
    + destruct (Reserve_grow h v new_capacity Hwf) as (v' & h' & Hrun & _ & _ & Hwf' & _ & Hev);
        [lia|].
      rewrite Hrun. split; assumption.
    + rewrite (Reserve_throw h v new_capacity Hwf) by lia. reflexivity.
  - cbn [mutate].
    destruct (Z.lt_ge_cases (SimpleVector.size_ v) (SimpleVector.capacity_ v)) as [Hroom|Hfull].
    { destruct (PushBack_within h v value Hwf Hroom) as (h' & Hrun & Hwf' & _ & Hev).
      rewrite Hrun. split; [exact Hwf'|]. destruct v; exact Hev. }
    destruct (Z.le_gt_cases (grown (SimpleVector.capacity_ v)) max_len) as [Hfit|Hnofit].
    + destruct (PushBack_grow h v value Hwf) as (v' & h' & Hrun & _ & _ & Hwf' & _ & Hev);
        [lia | exact Hfit |].
      rewrite Hrun. split; assumption.
    + rewrite (PushBack_throw h v value Hwf) by lia. reflexivity.
  - destruct (decide (0 <= offset <= SimpleVector.size_ v)) as [Hin|Hout].
    2: { rewrite (Insert_out_of_range moving h v offset value Hwf Hout). exact I. }
    destruct (decide (SimpleVector.size_ v = SimpleVector.capacity_ v
                      /\ max_len < grown (SimpleVector.capacity_ v))) as [[Hfull Hnofit]|Hfit].
    + destruct (Insert_throw moving h v offset value Hwf Hin Hfull Hnofit) as (pos & Hpos & Hrun).
      cbn [mutate]. step Hpos. rewrite (bind_Throw _ _ _ _ _ Hrun). reflexivity.
    + destruct (Insert_spec moving h v offset value Hwf Hin)
        as (pos & res & v' & h' & Hpos & Hrun & _ & _ & _ & Hwf' & _ & Hev); [lia|].
      cbn [mutate]. step Hpos. step Hrun. cbn [ret snd contained]. split; assumption.
  - cbn [mutate]. destruct (Z.eq_dec (SimpleVector.size_ v) 0) as [Hempty|Hne].
    + rewrite (PopBack_empty h v Hempty). exact I.
    + destruct (PopBack_spec h v Hwf) as (Hrun & Hwf' & _); [lia|].
      rewrite Hrun. split; [exact Hwf'|]. destruct v; apply evolves_refl.
  - destruct (decide (0 <= offset < SimpleVector.size_ v)) as [Hin|Hout].
    2: { rewrite (Erase_out_of_range h v offset Hwf Hout). exact I. }
    destruct (Erase_spec h v offset Hwf Hin) as (pos & h' & Hpos & Hrun & _ & Hwf' & _ & Hev).
    cbn [mutate]. step Hpos. step Hrun. cbn [ret snd contained].
    split; [exact Hwf'|]. destruct v; exact Hev.
Qed.

End Contained.

(** ** Copies are independent *)

Section Independence.
Context {T : Type} `{Element T} `{Allocator}.
Implicit Types (h t : heap T) (arr A D : list T) (b : block) (v : SimpleVector.t).

(** A sequence of calls is contained as each call is. *)
Lemma mutate_all_contained ms h v :
  wf h v -> Forall well_typed ms ->
  match mutate_all ms v h with
  | Ok v' h' => wf h' v' /\ evolves h (SimpleVector.data_ v) h' (SimpleVector.data_ v')
  | Throw _ h' => exists a', evolves h (SimpleVector.data_ v) h' a'
  | UB => True
  end.
Proof.
  revert h v. induction ms as [|m ms IH]; intros h v Hwf Hms.
  - cbn. split; [exact Hwf | apply evolves_refl].
  - inversion Hms as [|? ? Hm Hms']; subst.
    pose proof (mutate_contained h v m Hwf Hm) as Hstep.
    cbn [mutate_all]. unfold bind.
    destruct (mutate m v h) as [v1 h1|e h1|]; cbn [contained] in Hstep.
    + destruct Hstep as [Hwf1 Hev1]. specialize (IH h1 v1 Hwf1 Hms').
      destruct (mutate_all ms v1 h1) as [v' h'|e h'|].
      * destruct IH as [Hwf' Hev']. split; [exact Hwf'|].
        eapply evolves_trans; eassumption.
      * destruct IH as (a' & Hev'). exists a'. eapply evolves_trans; eassumption.
      * exact I.
    + subst h1. exists (SimpleVector.data_ v). apply evolves_refl.
    + exact I.
Qed.

(** A vector whose buffer is not the one that a step works on is
    untouched by the step. *)
Lemma evolves_keeps h a h' a' v :
  wf h v ->
  (forall b, block_of (SimpleVector.data_ v) = Some b -> block_of a <> Some b) ->
  evolves h a h' a' ->
  wf h' v /\ elements h' v = elements h v
  /\ (forall b, block_of (SimpleVector.data_ v) = Some b -> block_of a' <> Some b).
Proof.
  intros Hwf Hsep Hev. pose proof Hwf as Hwf0.
  apply wf_owns in Hwf as (arr & Ho & Hlen & Hsz & Hmax).
  destruct v as [size capacity data]. fields.
  destruct Ho as [|b arr Hb].
  - split; [exact Hwf0|]. split; [reflexivity|]. intros b Hb. discriminate.
  - destruct (Hev b arr Hb (Hsep b eq_refl)) as [Hb' Hne].
    split; [|split].
    + now apply wf_block with arr.
    + now rewrite (elements_block h' b arr), (elements_block h b arr).
    + intros b0 Hb0. cbn in Hb0. inversion Hb0; subst. exact Hne.
Qed.

(** C8. Copy-construction from a well-formed vector returns a vector
    with the size of the source, a capacity equal to that size (not
    to the capacity of the source) and the same elements index by
    index, and leaves the source as it was.  The copy is independent:
    whatever sequence of calls with arguments of their types then
    changes the copy, when the sequence returns or throws the source
    is still well-formed with the elements it had; its size is a member
    of the source, which no call on the copy is given. *)
Theorem copy_ctor_gives_an_independent_copy h other :
  wf h other ->
  exists cp h',
    SimpleVector.copy_ctor other h = Ok cp h'
    /\ SimpleVector.size_ cp = SimpleVector.size_ other
    /\ SimpleVector.capacity_ cp = SimpleVector.size_ other
    /\ elements h' cp = elements h other
    /\ (forall i : nat, elements h' cp !! i = elements h other !! i)
    /\ wf h' cp
    /\ wf h' other
    /\ elements h' other = elements h other
    /\ forall ms : list mutation,
         Forall well_typed ms ->
         match mutate_all ms cp h' with
         | Ok cp' h'' =>
             wf h'' cp' /\ wf h'' other /\ elements h'' other = elements h other
         | Throw _ h'' => wf h'' other /\ elements h'' other = elements h other
         | UB => True
         end.
Proof.
  intros Hwf.
  destruct (copy_ctor_spec h other Hwf) as (cp & h' & Hrun & Hsize & Hcap & Hwfcp & Hels & Hkeep).
  assert (Hsep : forall b, block_of (SimpleVector.data_ other) = Some b ->
                           block_of (SimpleVector.data_ cp) <> Some b).
  { intros b Hb. pose proof Hwf as Hw. apply wf_owns in Hw as (arr & Ho & _).
    destruct Ho as [|b0 arr Hb0]; cbn in Hb; [discriminate|]. inversion Hb; subst.
    exact (proj2 (Hkeep b arr Hb0)). }
  assert (Hother : wf h' other /\ elements h' other = elements h other).
  { pose proof Hwf as Hw. apply wf_owns in Hw as (arr & Ho & Hlen & Hsz & Hmax).
    destruct other as [size capacity data]. fields.
    destruct Ho as [|b arr Hb]; [split; [exact Hwf | reflexivity]|].
    destruct (Hkeep b arr Hb) as [Hb' _]. split.
    - now apply wf_block with arr.
    - now rewrite (elements_block h' b arr), (elements_block h b arr). }
  destruct Hother as [Hwfo Helso].
  exists cp, h'. split; [exact Hrun|]. split; [exact Hsize|]. split; [exact Hcap|].
  split; [exact Hels|]. split; [intros i; now rewrite Hels|].
  split; [exact Hwfcp|]. split; [exact Hwfo|]. split; [exact Helso|].
  intros ms Hms. pose proof (mutate_all_contained ms h' cp Hwfcp Hms) as Hall.
  destruct (mutate_all ms cp h') as [cp' h''|e h''|]; [| |exact I].
  - destruct Hall as [Hwf' Hev].
    destruct (evolves_keeps h' _ h'' _ other Hwfo Hsep Hev) as (Hwfo' & Helso' & _).
    split; [exact Hwf'|]. split; [exact Hwfo'|]. now rewrite Helso'.
  - destruct Hall as (a' & Hev).
    destruct (evolves_keeps h' _ h'' _ other Hwfo Hsep Hev) as (Hwfo' & Helso' & _).
    split; [exact Hwfo'|]. now rewrite Helso'.
Qed.

End Independence.

(** ** The other constructors establish the invariant *)

Section Constructors.
Context {T : Type} `{Element T} `{Allocator}.
Implicit Types (h t : heap T) (arr A D : list T) (b : block) (v : SimpleVector.t).

Lemma default_wf h : 0 <= max_len -> wf h SimpleVector.default.
Proof.
  intros Hmax. split; [split|]; cbn; [reflexivity | lia | exact Hmax].
Qed.

(** Copying an initializer list into cells of one array. *)
Lemma copy_init_block init t b A i :
  t !! b = Some A ->
  0 <= i -> i + Z.of_nat (length init) <= Z.of_nat (length A) ->
  exists A',
    copy_init init (Ptr b 0) i t = Ok tt (<[b := A']> t)
    /\ length A' = length A
    /\ (forall j : nat, (j < length init)%nat -> A' !! (Z.to_nat i + j)%nat = init !! j)
    /\ (forall j : nat, Z.of_nat j < i -> A' !! j = A !! j).
Proof.
  revert t A i. induction init as [|x init IH]; intros t A i HA Hi Hfit.
  - exists A. cbn [copy_init]. rewrite insert_id by exact HA.
    repeat split; auto. intros j Hj. cbn in Hj. lia.
  - cbn [length] in Hfit. rewrite Nat2Z.inj_succ in Hfit.
    set (A1 := <[Z.to_nat i := x]> A).
    assert (HA1 : (<[b := A1]> t : heap T) !! b = Some A1) by apply lookup_insert_eq.
    destruct (IH (<[b := A1]> t) A1 (i + 1) HA1) as (A' & Hrun & HlA & Hin & Hout);
      [lia | unfold A1; rewrite length_insert; lia |].
    exists A'. split; [|split; [|split]].
    + cbn [copy_init].
      step (ptr_add_Ptr t b 0 i A HA ltac:(lia)). cbn [Z.add].
      step (store_Ptr t b i A x HA ltac:(lia)). fold A1.
      rewrite Hrun. now rewrite insert_insert_eq.
    + rewrite HlA. unfold A1. now rewrite length_insert.
    + intros [|j] Hj.
      * rewrite Nat.add_0_r. rewrite Hout by lia. unfold A1.
        cbn [lookup list_lookup]. apply list_lookup_insert_eq. lia.
      * cbn [length] in Hj. replace (Z.to_nat i + Datatypes.S j)%nat
          with (Z.to_nat (i + 1) + j)%nat by lia.
        rewrite Hin by lia. reflexivity.
    + intros j Hj. rewrite Hout by lia. unfold A1.
      apply list_lookup_insert_ne. lia.
Qed.

(** Construction from an initializer list the allocator grants: the
    size and the capacity are its length and the elements are its
    values in order. *)
Lemma of_list_spec h init :
  Z.of_nat (length init) <= max_len ->
  exists v h',
    SimpleVector.of_list init h = Ok v h'
    /\ SimpleVector.size_ v = Z.of_nat (length init)
    /\ SimpleVector.capacity_ v = Z.of_nat (length init)
    /\ wf h' v
    /\ elements h' v = init.
Proof.
  intros Hfit. destruct init as [|x init].
  - exists SimpleVector.default, h. split; [reflexivity|].
    split; [reflexivity|]. split; [reflexivity|]. split; [|reflexivity].
    apply default_wf. cbn in Hfit. lia.
  - set (n := Z.of_nat (length (x :: init))) in *.
    assert (Hpos : 0 < n <= max_len) by (unfold n in *; cbn [length] in *; lia).
    set (b' := fresh (dom h)).
    set (D0 := replicate (Z.to_nat n) default_init).
    set (h1 := <[b' := D0]> h).
    assert (Hb'1 : h1 !! b' = Some D0) by apply lookup_insert_eq.
    assert (HlD0 : Z.of_nat (length D0) = n).
    { unfold D0. rewrite length_replicate. lia. }
    destruct (copy_init_block (x :: init) h1 b' D0 0 Hb'1) as (D' & Hrun & HlD & Hin & _);
      [lia | fold n; lia |].
    assert (HD' : (<[b' := D']> h1 : heap T) !! b' = Some D') by apply lookup_insert_eq.
    eexists _, (<[b' := D']> h1). split; [|split; [|split; [|split]]].
    + unfold SimpleVector.of_list. fold n.
      step (of_size_ok n h Hpos). fold b' D0 h1. fields.
      step Hrun. reflexivity.
    + reflexivity.
    + reflexivity.
    + apply wf_block with D'; fields; auto; lia.
    + rewrite (elements_block _ b' D' _ _ HD'). apply list_eq. intros j.
      destruct (decide (j < length (x :: init))%nat) as [Hj|Hj].
      * rewrite lookup_take_lt by (unfold n; lia).
        rewrite <- (Hin j Hj). reflexivity.
      * rewrite lookup_take_ge by (unfold n; lia).
        symmetry. apply lookup_ge_None_2. lia.
Qed.

(** Construction of [size] copies of a value. *)
Lemma of_size_value_spec h size value :
  0 <= size <= max_len ->
  exists v h',
    SimpleVector.of_size_value size value h = Ok v h'
    /\ SimpleVector.size_ v = size
    /\ SimpleVector.capacity_ v = size
    /\ wf h' v
    /\ elements h' v = replicate (Z.to_nat size) value.
Proof.
  intros Hsize. destruct (Z.eq_dec size 0) as [->|Hnz].
  - exists SimpleVector.default, h. split; [|split; [|split; [|split]]]; try reflexivity.
    apply default_wf. lia.
  - assert (Hpos : 0 < size <= max_len) by lia.
    set (b' := fresh (dom h)).
    set (D0 := replicate (Z.to_nat size) default_init).
    set (h1 := <[b' := D0]> h).
    assert (Hb'1 : h1 !! b' = Some D0) by apply lookup_insert_eq.
    assert (HlD0 : Z.of_nat (length D0) = size).
    { unfold D0. rewrite length_replicate. lia. }
    destruct (std_fill_block h1 b' D0 0 size value Hb'1) as (F & Hfill & HlF & Hin & _);
      [lia | lia |].
    assert (HF : (<[b' := F]> h1 : heap T) !! b' = Some F) by apply lookup_insert_eq.
    eexists _, (<[b' := F]> h1). split; [|split; [|split; [|split]]].
    + unfold SimpleVector.of_size_value. step (of_size_ok size h Hpos). fold b' D0 h1. fields.
      step (ptr_add_Ptr h1 b' 0 size D0 Hb'1 ltac:(lia)). cbn [Z.add].
      step Hfill. reflexivity.
    + reflexivity.
    + reflexivity.
    + apply wf_block with F; fields; auto; lia.
    + rewrite (elements_block _ b' F _ _ HF). apply list_eq. intros j.
      destruct (decide (j < Z.to_nat size)%nat) as [Hj|Hj].
      * rewrite lookup_take_lt by lia. rewrite Hin by lia.
        symmetry. now apply lookup_replicate_2.
      * rewrite lookup_take_ge by lia. symmetry. apply lookup_replicate_None. lia.
Qed.

(** Construction of [size] value-initialised elements. *)
Lemma of_size_spec h size :
  0 <= size <= max_len ->
  exists v h',
    SimpleVector.of_size size h = Ok v h'
    /\ SimpleVector.size_ v = size
    /\ SimpleVector.capacity_ v = size
    /\ wf h' v
    /\ elements h' v = replicate (Z.to_nat size) value_init.
Proof. apply of_size_value_spec. Qed.

(** Moving keeps the invariant on both sides. *)
Lemma move_ctor_wf h other :
  wf h other ->
  wf h (fst (SimpleVector.move_ctor other)) /\ wf h (snd (SimpleVector.move_ctor other)).
Proof.
  intros Hwf. pose proof Hwf as [[_ Hsz] Hmax]. destruct other as [size capacity [raw]].
  split; [exact Hwf|]. apply default_wf. fields. lia.
Qed.

End Constructors.

(** ** The vector as a sequence *)

Section Refinement.
Context {T : Type} `{Element T} `{Allocator}.
Implicit Types (h t : heap T) (arr A D : list T) (b : block) (v : SimpleVector.t).

Lemma elements_length h v :
  wf h v -> length (elements h v) = Z.to_nat (SimpleVector.size_ v).
Proof.
  intros Hwf. apply wf_owns in Hwf as (arr & Ho & Hlen & Hsz & Hmax).
  rewrite (owns_elements h v arr Ho). rewrite length_take. lia.
Qed.

(** Assignment through [operator[]] replaces one element; below the
    capacity but not below the size it writes a spare cell and the
    elements stay. *)
Lemma Assign_elements h v index value :
  wf h v ->
  match mutate (MAssign index value) v h with
  | Ok v' h' =>
      v' = v /\ elements h' v = <[Z.to_nat index := value]> (elements h v)
  | Throw _ _ => False
  | UB => True
  end.
Proof.
  intros Hwf. destruct v as [size capacity data].
  apply wf_owns in Hwf as (arr & Ho & Hlen & Hsz & Hmax). fields.
  unfold mutate, SimpleVector.index. fields.
  destruct Ho as [|b arr Hb]; fields.
  - rewrite (bind_UB _ _ _ (index_null_undefined h index)). exact I.
  - destruct (decide (0 <= index < Z.of_nat (length arr))) as [Hin|Hnot].
    + step (index_Ptr h b index arr Hb Hin).
      step (store_Ptr h b index arr value Hb Hin). cbn [ret]. split; [reflexivity|].
      rewrite (elements_block _ b (<[Z.to_nat index := value]> arr))
        by apply lookup_insert_eq.
      rewrite (elements_block h b arr) by exact Hb.
      destruct (Z.lt_ge_cases index size) as [Hlt|Hge].
      * apply take_insert_lt. lia.
      * rewrite take_insert_ge by lia. symmetry. apply list_insert_ge.
        rewrite length_take. lia.
    + assert (Hub : ArrayPtr.index {| ArrayPtr.raw_ptr_ := Ptr b 0 |} index h = UB).
      { destruct (Z.lt_ge_cases index 0) as [Hneg|Hpos].
        - unfold ArrayPtr.index, bind, ptr_add. fields. rewrite Hb.
          replace (0 <=? 0 + index) with false by lia. reflexivity.
        - apply (index_past_the_end h b arr index Hb). lia. }
      rewrite (bind_UB _ _ _ Hub). exact I.
Qed.

(** One call on a well-formed vector, with arguments of its types: when
    it returns, the vector is well-formed, its elements are those of
    the list operation, its capacity follows the growth policy and the
    rest of the free store is kept; when it throws, it throws
    [std::bad_alloc] and the free store is as it was. *)
Lemma mutate_step h v m :
  wf h v -> well_typed m ->
  match mutate m v h with
  | Ok v' h' =>
      wf h' v'
      /\ elements h' v' = on_elements m (elements h v)
      /\ SimpleVector.capacity_ v'
         = capacity_after m (SimpleVector.size_ v) (SimpleVector.capacity_ v)
      /\ evolves h (SimpleVector.data_ v) h' (SimpleVector.data_ v')
  | Throw e h' => e = bad_alloc /\ h' = h
  | UB => True
  end.
Proof.
  intros Hwf Hm. pose proof Hwf as [[Hext Hsz] Hmax].
  pose proof (elements_length h v Hwf) as Hlen.
  pose proof (mutate_contained h v m Hwf Hm) as Hc.
  destruct m as [index value| |new_size|new_capacity|value|moving offset value| |offset];
    cbn [well_typed] in Hm.
  - pose proof (Assign_elements h v index value Hwf) as Hst.
    destruct (mutate (MAssign index value) v h) as [v' h'|e h'|]; [|contradiction|exact I].
    destruct Hst as [-> Hels]. destruct Hc as [Hwf' Hev].
    split; [exact Hwf'|]. split; [exact Hels|]. split; [reflexivity | exact Hev].
  - cbn [mutate ret contained] in *. destruct Hc as [Hwf' Hev].
    split; [exact Hwf'|]. split; [|split; [reflexivity | exact Hev]].
    unfold elements at 1. reflexivity.
  - cbn [mutate] in *. destruct Hm as [Hm0 Hm1]. cbn [on_elements capacity_after].
    destruct (Z.le_gt_cases new_size (SimpleVector.size_ v)) as [Hshrink|Hgrow].
    { rewrite Resize_shrink in * by exact Hshrink. destruct Hc as [Hwf' Hev].
      split; [exact Hwf'|]. split; [|split; [|exact Hev]].
      - replace (Z.to_nat new_size - length (elements h v))%nat with O by lia.
        cbn [replicate]. rewrite app_nil_r. unfold elements.
        destruct v as [size capacity data]. fields.
        rewrite take_take. f_equal. lia.
      - destruct v as [size capacity data]. fields.
        replace (new_size <=? capacity) with true by lia. reflexivity. }
    destruct (Z.le_gt_cases new_size (SimpleVector.capacity_ v)) as [Hwithin|Habove].
    { destruct (Resize_within h v new_size Hwf) as (h' & Hrun & Hwf' & Hels & Hev); [lia|].
      rewrite Hrun. split; [exact Hwf'|]. split; [|split].
      - rewrite Hels. rewrite take_ge by lia. f_equal. f_equal. lia.
      - destruct v as [size capacity data]. fields.
        replace (new_size <=? capacity) with true by lia. reflexivity.
      - destruct v; exact Hev. }
    replace (new_size <=? SimpleVector.capacity_ v) with false by lia.
    destruct (Z.lt_ge_cases (Z.max new_size (2 * SimpleVector.capacity_ v)) (2 ^ 31))
      as [Hint|Hbig].
    + destruct (Z.le_gt_cases (Z.max new_size (2 * SimpleVector.capacity_ v)) max_len)
        as [Hfit|Hnofit].
      * destruct (Resize_grow h v new_size Hwf)
          as (v' & h' & Hrun & _ & Hcap & Hwf' & Hels & Hev);
          [lia | exact Hint | exact Hfit |].
        rewrite Hrun. split; [exact Hwf'|]. split; [|split; assumption].
        rewrite Hels. rewrite take_ge by lia. f_equal. f_equal. lia.
      * rewrite (Resize_throw h v new_size Hwf) by lia. split; reflexivity.
    + destruct (Resize_narrowed h v new_size Hwf) as [Hrun|Hrun]; [lia | exact Hbig | |];
        rewrite Hrun; [split; reflexivity | exact I].
  - cbn [mutate] in *. destruct Hm as [Hm0 Hm1]. cbn [on_elements capacity_after].
    destruct (Z.le_gt_cases new_capacity (SimpleVector.capacity_ v)) as [Hwithin|Habove].
    { rewrite Reserve_within by exact Hwithin.
      split; [exact Hwf|]. split; [reflexivity|]. split; [lia | apply evolves_refl]. }
    destruct (Z.le_gt_cases new_capacity max_len) as [Hfit|Hnofit].
    + destruct (Reserve_grow h v new_capacity Hwf)
        as (v' & h' & Hrun & _ & Hcap & Hwf' & Hels & Hev); [lia|].
      rewrite Hrun. split; [exact Hwf'|]. split; [exact Hels|].
      split; [lia | exact Hev].
    + rewrite (Reserve_throw h v new_capacity Hwf) by lia. split; reflexivity.
  - cbn [mutate] in *. cbn [on_elements capacity_after].
    destruct (Z.lt_ge_cases (SimpleVector.size_ v) (SimpleVector.capacity_ v)) as [Hroom|Hfull].
    { destruct (PushBack_within h v value Hwf Hroom) as (h' & Hrun & Hwf' & Hels & Hev).
      rewrite Hrun. split; [exact Hwf'|]. split; [exact Hels|]. split.
      - destruct v as [size capacity data]. fields.
        replace (size <? capacity) with true by lia. reflexivity.
      - destruct v; exact Hev. }
    replace (SimpleVector.size_ v <? SimpleVector.capacity_ v) with false by lia.
    destruct (Z.le_gt_cases (grown (SimpleVector.capacity_ v)) max_len) as [Hfit|Hnofit].
    + destruct (PushBack_grow h v value Hwf)
        as (v' & h' & Hrun & _ & Hcap & Hwf' & Hels & Hev); [lia | exact Hfit |].
      rewrite Hrun. split; [exact Hwf'|]. split; [exact Hels|]. split; [exact Hcap | exact Hev].
    + rewrite (PushBack_throw h v value Hwf) by lia. split; reflexivity.
  - destruct (decide (0 <= offset <= SimpleVector.size_ v)) as [Hin|Hout].
    2: { rewrite (Insert_out_of_range moving h v offset value Hwf Hout). exact I. }
    destruct (decide (SimpleVector.size_ v = SimpleVector.capacity_ v
                      /\ max_len < grown (SimpleVector.capacity_ v))) as [[Hfull Hnofit]|Hfit].
    + destruct (Insert_throw moving h v offset value Hwf Hin Hfull Hnofit) as (pos & Hpos & Hrun).
      cbn [mutate]. step Hpos. rewrite (bind_Throw _ _ _ _ _ Hrun). split; reflexivity.
    + destruct (Insert_spec moving h v offset value Hwf Hin)
        as (pos & res & v' & h' & Hpos & Hrun & _ & _ & Hcap & Hwf' & Hels & Hev); [lia|].
      cbn [mutate]. step Hpos. step Hrun. cbn [ret snd on_elements capacity_after].
      split; [exact Hwf'|]. split; [exact Hels|]. split; [exact Hcap | exact Hev].
  - cbn [mutate] in *. cbn [on_elements capacity_after].
    destruct (Z.eq_dec (SimpleVector.size_ v) 0) as [Hempty|Hne].
    + rewrite (PopBack_empty h v Hempty). exact I.
    + destruct (PopBack_spec h v Hwf) as (Hrun & Hwf' & Hels); [lia|].
      rewrite Hrun. split; [exact Hwf'|]. split; [|split].
      * rewrite Hels. f_equal. lia.
      * destruct v; reflexivity.
      * destruct v; apply evolves_refl.
  - destruct (decide (0 <= offset < SimpleVector.size_ v)) as [Hin|Hout].
    2: { rewrite (Erase_out_of_range h v offset Hwf Hout). exact I. }
    destruct (Erase_spec h v offset Hwf Hin) as (pos & h' & Hpos & Hrun & _ & Hwf' & Hels & Hev).
    cbn [mutate]. step Hpos. step Hrun. cbn [ret snd on_elements capacity_after].
    split; [exact Hwf'|]. split; [exact Hels|]. split.
    + destruct v; reflexivity.
    + destruct v; exact Hev.
Qed.

End Refinement.

(** ** The logic of the free store *)

Section StoreLogicRules.
Context {T : Type} `{Element T} `{Allocator}.
Implicit Types (h t R : heap T) (p q : pointer) (a : ArrayPtr.t) (b : block).

Lemma blocks_array_of a : blocks a = array_of (ArrayPtr.raw_ptr_ a).
Proof. destruct a as [[|b off]]; reflexivity. Qed.

Lemma lookup_rest h a k :
  rest h a !! k = if decide (k ∈ blocks a) then None else h !! k.
Proof.
  destruct a as [[|b off]]; cbn.
  - rewrite decide_False by set_solver. reflexivity.
  - change (blocks {| ArrayPtr.raw_ptr_ := Ptr b off |}) with ({[ b ]} : gset block).
    destruct (decide (k = b)) as [->|Hne].
    + rewrite decide_True by set_solver. apply lookup_delete_eq.
    + rewrite decide_False by set_solver. apply lookup_delete_ne. congruence.
Qed.

Lemma rest_null h : rest h {| ArrayPtr.raw_ptr_ := nullptr |} = h.
Proof. reflexivity. Qed.

Lemma rest_rest h a a' : rest (rest h a) a' = rest (rest h a') a.
Proof.
  apply map_eq. intros k. rewrite !lookup_rest.
  destruct (decide (k ∈ blocks a)); destruct (decide (k ∈ blocks a')); reflexivity.
Qed.

(** Two free stores that differ in the two buffers only are the same
    outside them. *)
Lemma outside_ext a a' h h' :
  (forall k, k ∉ blocks a ∪ blocks a' -> h' !! k = h !! k) ->
  rest (rest h' a) a' = rest (rest h a) a'.
Proof.
  intros Hk. apply map_eq. intros k. rewrite !lookup_rest.
  destruct (decide (k ∈ blocks a')); [reflexivity|].
  destruct (decide (k ∈ blocks a)); [reflexivity|].
  apply Hk. intros [?|?]%elem_of_union; contradiction.
Qed.

(** *** Computations that read *)

Lemma reads_ret {A} (x : A) : reads (ret x : M (heap T) A) (fun r => r = x).
Proof. intros h. cbn. auto. Qed.

Lemma reads_weaken {A} (m : M (heap T) A) (phi psi : A -> Prop) :
  reads m phi -> (forall r, phi r -> psi r) -> reads m psi.
Proof.
  intros Hm Himp h. specialize (Hm h). destruct (m h); auto.
  destruct Hm. auto.
Qed.

Lemma reads_bind {A B} (m : M (heap T) A) (k : A -> M (heap T) B) phi psi :
  reads m phi -> (forall r, phi r -> reads (k r) psi) -> reads (bind m k) psi.
Proof.
  intros Hm Hk h. specialize (Hm h). unfold bind.
  destruct (m h) as [r h'|e h'|]; auto.
  destruct Hm as [-> Hr]. apply (Hk r Hr).
Qed.

Lemma reads_assert (c : bool) : reads (assert c : M (heap T) unit) (fun _ => c = true).
Proof. intros h. destruct c; cbn; auto. Qed.

Lemma reads_ptr_add p n : reads (ptr_add (T:=T) p n) (fun r => array_of r = array_of p).
Proof.
  intros h. unfold ptr_add. destruct p as [|b off].
  - destruct (n =? 0); auto.
  - destruct (h !! b); auto.
    destruct ((0 <=? off + n) && (off + n <=? Z.of_nat (length l))); auto.
Qed.

Lemma reads_ptr_diff p q : reads (ptr_diff (T:=T) p q) (fun _ => True).
Proof.
  intros h. unfold ptr_diff. destruct p, q; auto. destruct (decide (b = b0)); auto.
Qed.

Lemma reads_ptr_le p q : reads (ptr_le (T:=T) p q) (fun _ => True).
Proof.
  unfold ptr_le. eapply reads_bind; [apply reads_ptr_diff|]. intros d _.
  eapply reads_weaken; [apply reads_ret | auto].
Qed.

Lemma reads_ptr_lt p q : reads (ptr_lt (T:=T) p q) (fun _ => True).
Proof.
  unfold ptr_lt. eapply reads_bind; [apply reads_ptr_diff|]. intros d _.
  eapply reads_weaken; [apply reads_ret | auto].
Qed.

Lemma reads_lvalue p : reads (lvalue (T:=T) p) (fun r => r = p).
Proof.
  intros h. unfold lvalue. destruct p as [|b off]; auto.
  destruct (h !! b); auto.
  destruct ((0 <=? off) && (off <? Z.of_nat (length l))); auto.
Qed.

Lemma reads_load p : reads (load (T:=T) p) (fun _ => True).
Proof.
  intros h. unfold load. destruct p as [|b off]; auto.
  destruct (h !! b); auto. destruct (0 <=? off); auto.
  destruct (l !! Z.to_nat off); auto.
Qed.

Lemma reads_index a i :
  reads (ArrayPtr.index (T:=T) a i) (fun r => array_of r = blocks a).
Proof.
  unfold ArrayPtr.index. eapply reads_bind; [apply reads_ptr_add|]. intros r Hr.
  eapply reads_weaken; [apply reads_lvalue|]. intros ? ->.
  now rewrite blocks_array_of.
Qed.

(** *** Triples *)

Lemma triple_ret {A} (P : heap T -> Prop) (x : A) Q E :
  (forall h, P h -> Q x h) -> triple P (ret x) Q E.
Proof. intros HQ h HP. cbn. auto. Qed.

Lemma triple_bind {A B} P (m : M (heap T) A) (k : A -> M (heap T) B) Q Q' E :
  triple P m Q E -> (forall r, triple (Q r) (k r) Q' E) -> triple P (bind m k) Q' E.
Proof.
  intros Hm Hk h HP. specialize (Hm h HP). unfold bind.
  destruct (m h) as [r h'|e h'|]; auto. apply (Hk r h' Hm).
Qed.

(** A reading step leaves the precondition to what follows. *)
Lemma triple_reads {A B} P (m : M (heap T) A) (k : A -> M (heap T) B) phi Q E :
  reads m phi -> (forall r, phi r -> triple P (k r) Q E) -> triple P (bind m k) Q E.
Proof.
  intros Hm Hk h HP. specialize (Hm h). unfold bind.
  destruct (m h) as [r h'|e h'|]; auto; [|contradiction].
  destruct Hm as [-> Hr]. apply (Hk r Hr h HP).
Qed.

(** A reading computation keeps what holds of the free store. *)
Lemma triple_read {A} P (m : M (heap T) A) phi E :
  reads m phi -> triple P m (fun _ => P) E.
Proof.
  intros Hm h HP. specialize (Hm h).
  destruct (m h) as [r h'|e h'|]; auto; [|contradiction].
  destruct Hm as [-> _]. exact HP.
Qed.

Lemma triple_pre {A} (P P' : heap T -> Prop) (m : M (heap T) A) Q E :
  (forall h, P' h -> P h) -> triple P m Q E -> triple P' m Q E.
Proof. intros Himp Hm h HP. apply Hm. auto. Qed.

Lemma triple_post {A} (P : heap T -> Prop) (m : M (heap T) A) (Q Q' : A -> heap T -> Prop) E :
  (forall r h, Q r h -> Q' r h) -> triple P m Q E -> triple P m Q' E.
Proof.
  intros Himp Hm h HP. specialize (Hm h HP). destruct (m h); auto.
Qed.

Lemma triple_for_count (P : heap T -> Prop) (body : Z -> M (heap T) unit) E n i :
  (forall j, triple P (body j) (fun _ => P) E) ->
  triple P (for_count n i body) (fun _ => P) E.
Proof.
  intros Hbody. revert i. induction n as [|n IH]; intros i.
  - apply triple_ret. auto.
  - cbn [for_count]. eapply triple_bind; [apply Hbody|]. intros ?. apply IH.
Qed.

Lemma triple_for_loop (P : heap T -> Prop) (body : Z -> M (heap T) unit) E lo hi :
  (forall j, triple P (body j) (fun _ => P) E) ->
  triple P (for_loop lo hi body) (fun _ => P) E.
Proof. apply triple_for_count. Qed.

(** *** Writes stay inside the buffers *)

Lemma store_outside a a' R p (x : T) E :
  array_of p ⊆ blocks a ∪ blocks a' ->
  triple (outside a a' R) (store p x) (fun _ => outside a a' R) E.
Proof.
  intros Hp h HR. unfold store. destruct p as [|b off]; auto.
  destruct (h !! b) as [arr|] eqn:Hb; auto.
  destruct ((0 <=? off) && (off <? Z.of_nat (length arr))); auto.
  unfold outside in *. rewrite <- HR. apply outside_ext.
  intros k Hk. apply lookup_insert_ne. cbn in Hp. set_solver.
Qed.

Lemma copy_elem_outside a a' R dst src E :
  array_of dst ⊆ blocks a ∪ blocks a' ->
  triple (outside a a' R) (copy_elem dst src) (fun _ => outside a a' R) E.
Proof.
  intros Hd. unfold copy_elem.
  eapply triple_reads; [apply reads_load|]. intros x _. now apply store_outside.
Qed.

Lemma move_elem_outside a a' R dst src E :
  array_of dst ⊆ blocks a ∪ blocks a' ->
  array_of src ⊆ blocks a ∪ blocks a' ->
  triple (outside a a' R) (move_elem dst src) (fun _ => outside a a' R) E.
Proof.
  intros Hd Hs. unfold move_elem.
  eapply triple_reads; [apply reads_load|]. intros x _.
  eapply triple_bind; [now apply store_outside|]. intros ?. now apply store_outside.
Qed.

Lemma assign_elem_outside moving a a' R dst src E :
  array_of dst ⊆ blocks a ∪ blocks a' ->
  (moving = true -> array_of src ⊆ blocks a ∪ blocks a') ->
  triple (outside a a' R) (assign_elem moving dst src) (fun _ => outside a a' R) E.
Proof.
  intros Hd Hs. destruct moving; cbn [assign_elem].
  - apply move_elem_outside; auto.
  - now apply copy_elem_outside.
Qed.

Lemma transfer_outside moving a a' R first last d_first E :
  array_of d_first ⊆ blocks a ∪ blocks a' ->
  (moving = true -> array_of first ⊆ blocks a ∪ blocks a') ->
  triple (outside a a' R) (transfer moving first last d_first)
    (fun _ => outside a a' R) E.
Proof.
  intros Hd Hs. unfold transfer.
  eapply triple_reads; [apply reads_ptr_diff|]. intros n _.
  eapply triple_reads; [apply reads_assert|]. intros _ _.
  eapply triple_bind.
  - apply triple_for_loop. intros j.
    eapply triple_reads; [apply reads_ptr_add|]. intros src Hsrc.
    eapply triple_reads; [apply reads_ptr_add|]. intros dst Hdst.
    apply assign_elem_outside; [now rewrite Hdst | intros Hm; rewrite Hsrc; auto].
  - intros ?. eapply triple_read. apply reads_ptr_add.
Qed.

Lemma transfer_backward_outside moving a a' R first last d_last E :
  array_of d_last ⊆ blocks a ∪ blocks a' ->
  (moving = true -> array_of last ⊆ blocks a ∪ blocks a') ->
  triple (outside a a' R) (transfer_backward moving first last d_last)
    (fun _ => outside a a' R) E.
Proof.
  intros Hd Hs. unfold transfer_backward.
  eapply triple_reads; [apply reads_ptr_diff|]. intros n _.
  eapply triple_reads; [apply reads_assert|]. intros _ _.
  eapply triple_bind.
  - apply triple_for_loop. intros j.
    eapply triple_reads; [apply reads_ptr_add|]. intros src Hsrc.
    eapply triple_reads; [apply reads_ptr_add|]. intros dst Hdst.
    apply assign_elem_outside; [now rewrite Hdst | intros Hm; rewrite Hsrc; auto].
  - intros ?. eapply triple_read. apply reads_ptr_add.
Qed.

Lemma std_fill_outside a a' R first last (value : T) E :
  array_of first ⊆ blocks a ∪ blocks a' ->
  triple (outside a a' R) (std_fill first last value) (fun _ => outside a a' R) E.
Proof.
  intros Hf. unfold std_fill.
  eapply triple_reads; [apply reads_ptr_diff|]. intros n _.
  eapply triple_reads; [apply reads_assert|]. intros _ _.
  apply triple_for_loop. intros j.
  eapply triple_reads; [apply reads_ptr_add|]. intros dst Hdst.
  apply store_outside. now rewrite Hdst.
Qed.

Lemma copy_init_outside a a' R init d_first i E :
  array_of d_first ⊆ blocks a ∪ blocks a' ->
  triple (outside a a' R) (copy_init init d_first i) (fun _ => outside a a' R) E.
Proof.
  intros Hd. revert i. induction init as [|x init IH]; intros i; cbn [copy_init].
  - apply triple_ret. auto.
  - eapply triple_reads; [apply reads_ptr_add|]. intros dst Hdst.
    eapply triple_bind; [apply store_outside; now rewrite Hdst|]. intros ?. apply IH.
Qed.

(** *** Allocation and deallocation *)

(** [new Type[size]] adds the new buffer and nothing else, or throws
    before it changed anything. *)
Lemma of_size_triple h0 size :
  triple (fun h => h = h0) (ArrayPtr.of_size size)
    (fun new_data h => rest h new_data = h0)
    (fun e h => e = bad_alloc /\ h = h0).
Proof.
  intros h ->. unfold ArrayPtr.of_size.
  destruct (size =? 0); [reflexivity|].
  unfold bind, new_array. destruct (max_len <? size); [auto|].
  cbn. apply delete_insert_id. apply fresh_block_free.
Qed.

(** [delete[]] of a buffer removes it and nothing else. *)
Lemma dtor_triple a a' R E :
  triple (outside a' a R) (ArrayPtr.dtor a) (fun _ h => rest h a' = R) E.
Proof.
  intros h HR. unfold ArrayPtr.dtor, delete_array. unfold outside in HR.
  destruct a as [[|b off]]; cbn [ArrayPtr.raw_ptr_].
  - exact HR.
  - destruct (h !! b); auto. destruct (off =? 0); auto.
    rewrite <- HR. rewrite rest_rest. reflexivity.
Qed.

End StoreLogicRules.

(** The pointer at hand points into one of the two buffers. *)
Ltac in_buffer :=
  repeat match goal with
         | Hp : array_of ?p = _ |- context [array_of ?p] => rewrite Hp
         end;
  rewrite ?blocks_array_of; cbn [ArrayPtr.raw_ptr_];
  first [ apply union_subseteq_l | apply union_subseteq_r ].

Ltac reading :=
  eapply triple_reads;
  [ first [ apply reads_ptr_add | apply reads_ptr_diff | apply reads_index
          | apply reads_assert | apply reads_ptr_le | apply reads_ptr_lt
          | apply reads_load | apply reads_lvalue ]
  | cbv beta; intros ? ? ].

Section Frames.
Context {T : Type} `{Element T} `{Allocator}.
Implicit Types (h t R : heap T) (p q : pointer) (a : ArrayPtr.t) (b : block)
  (v : SimpleVector.t).

Lemma triple_exn {A} (P : heap T -> Prop) (m : M (heap T) A) Q (E E' : exn -> heap T -> Prop) :
  (forall e h, E e h -> E' e h) -> triple P m Q E -> triple P m Q E'.
Proof.
  intros Himp Hm h HP. specialize (Hm h HP). destruct (m h); auto.
Qed.

(** Work inside the buffer of the vector. *)
Lemma inside_buffer {A} a R (m : M (heap T) A) Q E :
  triple (outside a ArrayPtr.default R) m Q E ->
  triple (fun h => rest h a = R) m Q E.
Proof. intros Hm. exact Hm. Qed.

Lemma from_start {A} a h0 (m : M (heap T) A) Q E :
  triple (outside a ArrayPtr.default (rest h0 a)) m Q E ->
  triple (fun h => h = h0) m Q E.
Proof. intros Hm h ->. apply Hm. reflexivity. Qed.

(** The loop that moves the elements to a new buffer. *)
Lemma move_loop_outside a a' R lo hi E :
  triple (outside a' a R)
    (for_loop lo hi (fun i =>
       src <- ArrayPtr.index a i ;;
       dst <- ArrayPtr.index a' i ;;
       move_elem dst src))
    (fun _ => outside a' a R) E.
Proof.
  apply triple_for_loop. intros j.
  reading. reading.
  apply move_elem_outside; in_buffer.
Qed.

(** The loop that value-initialises cells. *)
Lemma fill_loop_outside a a' R lo hi E :
  triple (outside a a' R)
    (for_loop lo hi (fun i =>
       dst <- ArrayPtr.index a i ;;
       store dst value_init))
    (fun _ => outside a a' R) E.
Proof.
  apply triple_for_loop. intros j.
  reading. apply store_outside; in_buffer.
Qed.

Lemma ReallocateAndMoveData_frames h0 new_capacity v :
  frames h0 (SimpleVector.data_ v) SimpleVector.data_
    (SimpleVector.ReallocateAndMoveData new_capacity v).
Proof.
  destruct v as [size capacity data]. unfold frames, SimpleVector.ReallocateAndMoveData.
  fields. cbn [ArrayPtr.swap this_of other_of].
  eapply triple_bind; [apply of_size_triple|]. intros new_data.
  apply triple_pre with (P := outside new_data data (rest h0 data)).
  { intros h Hh. unfold outside. now rewrite Hh. }
  eapply triple_bind; [apply move_loop_outside|]. intros ?.
  eapply triple_bind; [destruct data; apply dtor_triple|].
  intros ?. apply triple_ret. intros h Hh. destruct new_data. exact Hh.
Qed.

Lemma Reserve_frames h0 new_capacity v :
  frames h0 (SimpleVector.data_ v) SimpleVector.data_
    (SimpleVector.Reserve new_capacity v).
Proof.
  unfold SimpleVector.Reserve. destruct (SimpleVector.capacity_ v <? new_capacity).
  - apply ReallocateAndMoveData_frames.
  - apply triple_ret. now intros h ->.
Qed.

Lemma Resize_frames h0 new_size v :
  frames h0 (SimpleVector.data_ v) SimpleVector.data_
    (SimpleVector.Resize new_size v).
Proof.
  destruct v as [size capacity data]. unfold frames, SimpleVector.Resize. fields.
  destruct (new_size <=? size); [apply triple_ret; now intros h ->|].
  destruct (new_size <=? capacity).
  - apply (from_start data).
    eapply triple_bind; [apply fill_loop_outside|]. intros ?.
    apply triple_ret. intros h Hh. exact Hh.
  - cbn [ArrayPtr.swap this_of other_of].
    eapply triple_bind; [apply of_size_triple|]. intros new_array.
    apply triple_pre with (P := outside new_array data (rest h0 data)).
    { intros h Hh. unfold outside. now rewrite Hh. }
    eapply triple_bind; [apply move_loop_outside|]. intros ?.
    eapply triple_bind; [apply fill_loop_outside|]. intros ?.
    eapply triple_bind; [destruct data; apply dtor_triple|].
    intros ?. apply triple_ret. intros h Hh. destruct new_array. exact Hh.
Qed.

Lemma PushBack_frames h0 value v :
  frames h0 (SimpleVector.data_ v) SimpleVector.data_
    (SimpleVector.PushBack (Elsewhere value) v).
Proof.
  unfold frames, SimpleVector.PushBack, SimpleVector.PushBack_with. cbn [assign_arg].
  eapply triple_bind.
  { destruct (SimpleVector.capacity_ v <? wrap (SimpleVector.size_ v + 1)).
    - apply ReallocateAndMoveData_frames.
    - apply triple_ret. intros h ->. reflexivity. }
  intros this. apply inside_buffer.
  reading.
  eapply triple_bind; [apply store_outside; in_buffer|]. intros ?.
  apply triple_ret. intros h Hh. exact Hh.
Qed.

Lemma Insert_with_frames h0 moving position value v :
  frames h0 (SimpleVector.data_ v) (fun r => SimpleVector.data_ (snd r))
    (SimpleVector.Insert_with moving position (Elsewhere value) v).
Proof.
  destruct v as [size capacity [raw]]. unfold frames, SimpleVector.Insert_with. fields.
  reading. reading.
  reading.
  eapply triple_bind with
    (Q := fun this h => rest h (SimpleVector.data_ this)
                        = rest h0 {| ArrayPtr.raw_ptr_ := raw |}).
  { destruct (wrap (size + 1) <=? capacity).
    - apply (from_start {| ArrayPtr.raw_ptr_ := raw |}).
      reading. reading.
      eapply triple_bind.
      { apply transfer_backward_outside; [|intros _]; in_buffer. }
      intros ?. reading.
      eapply triple_bind; [apply store_outside; in_buffer|]. intros ?.
      apply triple_ret. intros h Hh. exact Hh.
    - cbn [ArrayPtr.swap this_of other_of].
      eapply triple_bind; [apply of_size_triple|]. intros [new_raw]. fields.
      apply triple_pre with
        (P := outside {| ArrayPtr.raw_ptr_ := new_raw |} {| ArrayPtr.raw_ptr_ := raw |}
                (rest h0 {| ArrayPtr.raw_ptr_ := raw |})).
      { intros h Hh. unfold outside. now rewrite Hh. }
      eapply triple_bind.
      { apply transfer_outside; [|intros _]; in_buffer. }
      intros ?. reading.
      eapply triple_bind; [apply store_outside; in_buffer|]. intros ?.
      reading. reading.
      reading.
      eapply triple_bind.
      { apply transfer_outside; [|intros _]; in_buffer. }
      intros ?. eapply triple_bind; [apply dtor_triple|].
      intros ?. apply triple_ret. intros h Hh. exact Hh. }
  intros this. apply inside_buffer.
  reading.
  apply triple_ret. intros h Hh. exact Hh.
Qed.

Lemma PopBack_frames h0 v :
  frames h0 (SimpleVector.data_ v) SimpleVector.data_ (SimpleVector.PopBack v).
Proof.
  unfold frames, SimpleVector.PopBack.
  reading. apply triple_ret. now intros h ->.
Qed.

Lemma Erase_frames h0 pos v :
  frames h0 (SimpleVector.data_ v) (fun r => SimpleVector.data_ (snd r))
    (SimpleVector.Erase pos v).
Proof.
  destruct v as [size capacity [raw]].
  unfold frames, SimpleVector.Erase, SimpleVector.begin_, SimpleVector.cbegin,
    SimpleVector.end_. fields.
  eapply triple_reads; [apply reads_ptr_le|]. intros ge_begin _.
  eapply triple_reads with (phi := fun _ => True).
  { destruct ge_begin.
    - eapply reads_bind; [apply reads_ptr_add|]. intros e _. apply reads_ptr_lt.
    - eapply reads_weaken; [apply reads_ret | auto]. }
  intros lt_end _. reading. reading.
  apply (from_start {| ArrayPtr.raw_ptr_ := raw |}).
  reading. reading. reading. reading.
  eapply triple_bind.
  { apply transfer_outside; [|intros _]; in_buffer. }
  intros ?. reading.
  apply triple_ret. intros h Hh. exact Hh.
Qed.

(** Every call works on the buffer of its vector only, leaves no array
    behind, and throws before it changed anything. *)
Lemma mutate_frames h0 m v :
  frames h0 (SimpleVector.data_ v) SimpleVector.data_ (mutate m v).
Proof.
  destruct m as [index value| |new_size|new_capacity|value|moving offset value| |offset];
    cbn [mutate].
  - unfold frames, SimpleVector.index. apply (from_start (SimpleVector.data_ v)).
    reading.
    eapply triple_bind; [apply store_outside; in_buffer|]. intros ?.
    apply triple_ret. intros h Hh. exact Hh.
  - apply triple_ret. now intros h ->.
  - apply Resize_frames.
  - apply Reserve_frames.
  - apply PushBack_frames.
  - unfold frames. reading.
    eapply triple_bind; [apply Insert_with_frames|]. intros [res this].
    apply triple_ret. intros h Hh. exact Hh.
  - apply PopBack_frames.
  - unfold frames. reading.
    eapply triple_bind; [apply Erase_frames|]. intros [res this].
    apply triple_ret. intros h Hh. exact Hh.
Qed.

(** A sequence of calls: when one of them throws, the free store is as
    the calls before it left it. *)
Lemma mutate_all_frames ms h0 v :
  triple (fun h => h = h0) (mutate_all ms v)
    (fun v' h' => rest h' (SimpleVector.data_ v') = rest h0 (SimpleVector.data_ v))
    (fun e h' => e = bad_alloc
                 /\ exists a', rest h' a' = rest h0 (SimpleVector.data_ v)).
Proof.
  revert h0 v. induction ms as [|m ms IH]; intros h0 v; cbn [mutate_all].
  - apply triple_ret. now intros h ->.
  - eapply triple_bind.
    + eapply triple_exn; [|apply mutate_frames].
      intros e h [-> ->]. split; [reflexivity|]. now exists (SimpleVector.data_ v).
    + intros v1 h1 Hh1. cbv beta in Hh1. rewrite <- Hh1.
      now apply (IH h1 v1 h1).
Qed.

(** The constructors add the buffer of the new vector and nothing else. *)
Lemma of_size_value_frames h0 size value :
  frames h0 ArrayPtr.default SimpleVector.data_ (SimpleVector.of_size_value size value).
Proof.
  unfold frames, SimpleVector.of_size_value.
  eapply triple_bind; [apply of_size_triple|]. intros data. fields.
  apply inside_buffer. reading.
  eapply triple_bind; [apply std_fill_outside; in_buffer|]. intros ?.
  apply triple_ret. intros h Hh. exact Hh.
Qed.

Lemma of_list_frames h0 init :
  frames h0 ArrayPtr.default SimpleVector.data_ (SimpleVector.of_list init).
Proof.
  unfold frames, SimpleVector.of_list.
  eapply triple_bind; [apply of_size_triple|]. intros data. fields.
  apply inside_buffer.
  eapply triple_bind; [apply copy_init_outside; in_buffer|]. intros ?.
  apply triple_ret. intros h Hh. exact Hh.
Qed.

Lemma copy_ctor_frames h0 other :
  frames h0 ArrayPtr.default SimpleVector.data_ (SimpleVector.copy_ctor other).
Proof.
  unfold frames, SimpleVector.copy_ctor, SimpleVector.begin_, SimpleVector.end_,
    SimpleVector.dtor.
  eapply triple_bind; [apply (of_size_value_frames h0 _ value_init)|].
  intros [size capacity [raw]]. fields. cbn [SimpleVector.default ArrayPtr.default
    ArrayPtr.swap this_of other_of]. fields.
  apply inside_buffer. reading.
  eapply triple_bind.
  { apply transfer_outside; [in_buffer | discriminate]. }
  intros ?. eapply triple_bind; [apply dtor_triple|]. intros ?.
  apply triple_ret. intros h Hh. exact Hh.
Qed.

Lemma copy_assign_frames h0 (r : refs2 SimpleVector.t) :
  frames h0 (SimpleVector.data_ (this_of r))
    (fun r' => SimpleVector.data_ (this_of r')) (SimpleVector.copy_assign r).
Proof.
  unfold frames. destruct r as [o|this rhs]; cbn [SimpleVector.copy_assign this_of].
  - apply triple_ret. now intros h ->.
  - destruct this as [size capacity [raw]]. fields.
    eapply triple_bind; [apply copy_ctor_frames|].
    intros [size' capacity' [raw']]. unfold SimpleVector.dtor.
    cbn [SimpleVector.swap ArrayPtr.swap this_of other_of]. fields.
    apply triple_pre with
      (P := outside {| ArrayPtr.raw_ptr_ := raw' |} {| ArrayPtr.raw_ptr_ := raw |}
              (rest h0 {| ArrayPtr.raw_ptr_ := raw |})).
    { intros h Hh. unfold outside. cbn [rest block_of ArrayPtr.default ArrayPtr.raw_ptr_] in Hh.
      now rewrite Hh. }
    eapply triple_bind; [apply dtor_triple|]. intros ?.
    apply triple_ret. intros h Hh. exact Hh.
Qed.

(** The destructor removes the buffer and nothing else. *)
Lemma dtor_frames a R :
  triple (fun h => rest h a = R) (ArrayPtr.dtor a) (fun _ h => h = R)
    (fun _ _ => False).
Proof. apply (dtor_triple a ArrayPtr.default R). Qed.

End Frames.

(** ** Comparisons *)

Section Comparisons.
Context {T : Type} `{Element T} `{Allocator} `{Ordered T}.
Implicit Types (h t : heap T) (arr A B : list T) (b : block) (v lhs rhs : SimpleVector.t).

(** The loop of [std::equal] walks the second range as far as the first
    range is long, and leaves it when the second array ends first. *)
Lemma equal_count_spec h b1 A a2 B n (i : nat) :
  h !! b1 = Some A -> owns h a2 B -> (i + n <= length A)%nat ->
  equal_count n (Z.of_nat i) (Ptr b1 0) (ArrayPtr.Get a2) h
  = match equal_along (take n (drop i A)) (drop i B) with
    | Some r => Ok r h
    | None => UB
    end.
Proof.
  intros HA Ho. revert i. induction n as [|n IH]; intros i Hfit.
  - reflexivity.
  - destruct (lookup_lt_is_Some_2 A i) as [x Hx]; [lia|].
    rewrite (drop_S A x i Hx). cbn [take firstn equal_along equal_count].
    step (ptr_add_Ptr h b1 0 (Z.of_nat i) A HA ltac:(lia)). cbn [Z.add].
    assert (Hload1 : load (Ptr b1 (Z.of_nat i)) h = Ok x h).
    { apply (load_Ptr h b1 (Z.of_nat i) A x HA); [lia|]. now rewrite Nat2Z.id. }
    destruct (B !! i) as [y|] eqn:Hy.
    + rewrite (drop_S B y i Hy).
      pose proof (lookup_lt_Some B i y Hy) as Hi.
      destruct Ho as [|b2 B Hb2]; [discriminate|]. unfold ArrayPtr.Get. fields.
      step (ptr_add_Ptr h b2 0 (Z.of_nat i) B Hb2 ltac:(lia)). cbn [Z.add].
      step Hload1.
      assert (Hload2 : load (Ptr b2 (Z.of_nat i)) h = Ok y h).
      { apply (load_Ptr h b2 (Z.of_nat i) B y Hb2); [lia|]. now rewrite Nat2Z.id. }
      step Hload2.
      destruct (elem_eqb x y); [|reflexivity].
      replace (Z.of_nat i + 1) with (Z.of_nat (Datatypes.S i)) by lia.
      apply (IH (Datatypes.S i)). lia.
    + apply lookup_ge_None in Hy. rewrite (drop_ge B i) by exact Hy.
      destruct Ho as [|b2 B Hb2]; unfold ArrayPtr.Get; fields.
      * destruct i as [|i].
        -- step (ptr_add_null h). step Hload1. reflexivity.
        -- apply bind_UB. unfold ptr_add.
           destruct (Z.eqb_spec (Z.of_nat (Datatypes.S i)) 0); [lia | reflexivity].
      * destruct (decide (i = length B)) as [->|Hne].
        -- step (ptr_add_Ptr h b2 0 (Z.of_nat (length B)) B Hb2 ltac:(lia)). cbn [Z.add].
           step Hload1. apply bind_UB. unfold load. rewrite Hb2, ?Z.add_0_l.
           replace (0 <=? Z.of_nat (length B)) with true by lia.
           rewrite Nat2Z.id. now rewrite lookup_ge_None_2.
        -- apply bind_UB. unfold ptr_add. rewrite Hb2.
           destruct (Z.leb_spec (0 + Z.of_nat i) (Z.of_nat (length B))); [lia|].
           now rewrite andb_false_r.
Qed.

(** No pointer lies beyond the end of an array. *)
Lemma owns_ptr_add_beyond h a arr n :
  owns h a arr -> Z.of_nat (length arr) < n ->
  ptr_add (T:=T) (ArrayPtr.Get a) n h = UB.
Proof.
  intros [|b arr' Hb] Hn; unfold ArrayPtr.Get, ptr_add; cbn [ArrayPtr.raw_ptr_].
  - cbn [length] in Hn. destruct (Z.eqb_spec n 0); [lia | reflexivity].
  - rewrite Hb. destruct (Z.leb_spec (0 + n) (Z.of_nat (length arr'))); [lia|].
    now rewrite andb_false_r.
Qed.

(** [operator==] needs the array of the right operand to be as long as
    the left operand; it then compares the elements of the left operand
    with the cells of the right operand at the same indices, whatever
    the size of the right operand is. *)
Lemma operator_eq_spec h lhs rhs :
  wf h lhs -> wf h rhs ->
  SimpleVector.operator_eq lhs rhs h
  = if SimpleVector.size_ lhs <=? SimpleVector.capacity_ rhs then
      match equal_along (elements h lhs) (buffer h (SimpleVector.data_ rhs)) with
      | Some r => Ok r h
      | None => UB
      end
    else UB.
Proof.
  intros Hl Hr.
  apply wf_owns in Hl as (A & HoA & HlA & HszA & _).
  apply wf_owns in Hr as (B & HoB & HlB & HszB & _).
  rewrite (owns_elements h lhs A HoA), (owns_buffer h _ B HoB).
  destruct lhs as [size capacity data]. fields.
  unfold SimpleVector.operator_eq, SimpleVector.end_, SimpleVector.begin_, std_equal. fields.
  destruct (owns_ptr_add h data A size HoA ltac:(lia)) as (last & Hlast & Hdiff).
  step Hlast. step Hdiff.
  step (assert_leb 0 size h ltac:(lia)).
  destruct (Z.leb_spec size (SimpleVector.capacity_ rhs)) as [Hfit|Hbeyond].
  - destruct (owns_ptr_add h _ B size HoB ltac:(lia)) as (last' & Hlast' & _).
    step Hlast'.
    destruct HoA as [|b1 A Hb1].
    + cbn in HlA. replace size with 0 by lia. reflexivity.
    + fields.
      pose proof (equal_count_spec h b1 A _ B (Z.to_nat size) 0 Hb1 HoB ltac:(lia)) as Hrun.
      rewrite !drop_0 in Hrun. exact Hrun.
  - apply bind_UB. apply (owns_ptr_add_beyond h _ B size HoB). lia.
Qed.

(** The length of the first list is all that [equal_along] sees of the
    second. *)
Lemma equal_along_take (l1 l2 : list T) (n : nat) :
  (length l1 <= n)%nat -> equal_along l1 (take n l2) = equal_along l1 l2.
Proof.
  revert l2 n. induction l1 as [|x l1 IH]; intros l2 n Hn; [reflexivity|].
  cbn [length] in Hn. destruct n as [|n]; [lia|].
  destruct l2 as [|y l2]; [reflexivity|]. cbn [take firstn equal_along].
  destruct (elem_eqb x y); [|reflexivity]. apply IH. lia.
Qed.

(** With an [operator==] of the elements that decides equality, lists
    of one length compare equal exactly when they are equal. *)
Lemma equal_along_decides (l1 l2 : list T) :
  (forall x y, elem_eqb x y = true <-> x = y) ->
  length l1 = length l2 ->
  exists r, equal_along l1 l2 = Some r /\ (r = true <-> l1 = l2).
Proof.
  intros Heq. revert l2. induction l1 as [|x l1 IH]; intros [|y l2] Hlen;
    try discriminate.
  - exists true. split; [reflexivity|]. split; reflexivity.
  - cbn [equal_along]. destruct (elem_eqb x y) eqn:Hxy.
    + apply Heq in Hxy as ->. destruct (IH l2) as (r & Hr & Hiff); [cbn in Hlen; lia|].
      exists r. split; [exact Hr|]. rewrite Hiff. split; [now intros ->|now intros [= ->]].
    + exists false. split; [reflexivity|]. split; [discriminate|].
      intros [= -> _]. assert (elem_eqb y y = true) by now apply Heq. congruence.
Qed.

(** The loop of [std::lexicographical_compare] on two ranges inside
    their arrays. *)
Lemma lexicographical_count_spec h b1 b2 A B n1 n2 (i : nat) :
  h !! b1 = Some A -> h !! b2 = Some B ->
  (i + n1 <= length A)%nat -> (i + n2 <= length B)%nat ->
  lexicographical_count n1 n2 (Z.of_nat i) (Ptr b1 0) (Ptr b2 0) h
  = Ok (lexicographic (take n1 (drop i A)) (take n2 (drop i B))) h.
Proof.
  intros HA HB. revert n2 i. induction n1 as [|n1 IH]; intros [|n2] i Hfit1 Hfit2.
  - reflexivity.
  - destruct (lookup_lt_is_Some_2 B i) as [y Hy]; [lia|].
    rewrite (drop_S B y i Hy). reflexivity.
  - destruct (drop i A); reflexivity.
  - destruct (lookup_lt_is_Some_2 A i) as [x Hx]; [lia|].
    destruct (lookup_lt_is_Some_2 B i) as [y Hy]; [lia|].
    rewrite (drop_S A x i Hx), (drop_S B y i Hy).
    cbn [take firstn lexicographic lexicographical_count].
    step (ptr_add_Ptr h b1 0 (Z.of_nat i) A HA ltac:(lia)).
    step (ptr_add_Ptr h b2 0 (Z.of_nat i) B HB ltac:(lia)). cbn [Z.add].
    assert (Hload1 : load (Ptr b1 (Z.of_nat i)) h = Ok x h).
    { apply (load_Ptr h b1 (Z.of_nat i) A x HA); [lia|]. now rewrite Nat2Z.id. }
    assert (Hload2 : load (Ptr b2 (Z.of_nat i)) h = Ok y h).
    { apply (load_Ptr h b2 (Z.of_nat i) B y HB); [lia|]. now rewrite Nat2Z.id. }
    step Hload1. step Hload2.
    destruct (elem_ltb x y); [reflexivity|]. destruct (elem_ltb y x); [reflexivity|].
    replace (Z.of_nat i + 1) with (Z.of_nat (Datatypes.S i)) by lia.
    apply (IH n2 (Datatypes.S i)); lia.
Qed.

(** [operator<] is the lexicographic order of the elements. *)
Lemma operator_lt_spec h lhs rhs :
  wf h lhs -> wf h rhs ->
  SimpleVector.operator_lt lhs rhs h
  = Ok (lexicographic (elements h lhs) (elements h rhs)) h.
Proof.
  intros Hl Hr.
  apply wf_owns in Hl as (A & HoA & HlA & HszA & _).
  apply wf_owns in Hr as (B & HoB & HlB & HszB & _).
  rewrite (owns_elements h lhs A HoA), (owns_elements h rhs B HoB).
  destruct lhs as [size1 capacity1 data1], rhs as [size2 capacity2 data2]. fields.
  unfold SimpleVector.operator_lt, SimpleVector.end_, SimpleVector.begin_,
    std_lexicographical_compare. fields.
  destruct (owns_ptr_add h data1 A size1 HoA ltac:(lia)) as (last1 & Hlast1 & Hdiff1).
  destruct (owns_ptr_add h data2 B size2 HoB ltac:(lia)) as (last2 & Hlast2 & Hdiff2).
  unfold ArrayPtr.Get in *. step Hlast1. step Hlast2. step Hdiff1.
  step (assert_leb 0 size1 h ltac:(lia)). step Hdiff2.
  step (assert_leb 0 size2 h ltac:(lia)).
  destruct (Z.to_nat size1) as [|n1] eqn:Hn1.
  { destruct (Z.to_nat size2) as [|n2] eqn:Hn2; [reflexivity|].
    cbn [lexicographical_count take firstn].
    destruct B as [|y B]; [cbn in HlB; lia|]. reflexivity. }
  destruct (Z.to_nat size2) as [|n2] eqn:Hn2.
  { cbn [lexicographical_count take firstn].
    destruct A as [|x A]; [cbn in HlA; lia|]. reflexivity. }
  destruct HoA as [|b1 A Hb1]; [cbn in HlA; lia|].
  destruct HoB as [|b2 B Hb2]; [cbn in HlB; lia|]. fields.
  pose proof (lexicographical_count_spec h b1 b2 A B (Datatypes.S n1) (Datatypes.S n2) 0
                Hb1 Hb2 ltac:(lia) ltac:(lia)) as Hrun.
  rewrite !drop_0 in Hrun. exact Hrun.
Qed.

(** For an order of the elements that is irreflexive and in which two
    elements of which neither is less are equal, two lists of which
    neither is less are equal. *)
Lemma lexicographic_neither (l1 l2 : list T) :
  (forall x, elem_ltb x x = false) ->
  (forall x y, elem_ltb x y = false -> elem_ltb y x = false -> x = y) ->
  (lexicographic l1 l2 = false /\ lexicographic l2 l1 = false) <-> l1 = l2.
Proof.
  intros Hirr Htri. revert l2. induction l1 as [|x l1 IH]; intros [|y l2];
    cbn [lexicographic].
  - tauto.
  - split; [intros [? _]; discriminate | discriminate].
  - split; [intros [_ ?]; discriminate | discriminate].
  - destruct (elem_ltb x y) eqn:Hxy.
    { split; [intros [? _]; discriminate|]. intros [= -> _].
      rewrite Hirr in Hxy. discriminate. }
    destruct (elem_ltb y x) eqn:Hyx.
    { split; [intros [_ ?]; discriminate|]. intros [= -> _].
      rewrite Hirr in Hyx. discriminate. }
    rewrite (Htri x y Hxy Hyx) in *. rewrite IH.
    split; [now intros ->|now intros [= ->]].
Qed.

End Comparisons.

(** ** Sequences of calls *)

Section Sequences.
Context {T : Type} `{Element T} `{Allocator}.
Implicit Types (h t : heap T) (arr A D : list T) (b : block) (v : SimpleVector.t).

Lemma capacity_after_ge (m : @mutation T) size capacity :
  0 <= capacity -> capacity <= capacity_after m size capacity.
Proof.
  intros Hc. destruct m; cbn [capacity_after]; try lia.
  - destruct (new_size <=? capacity); lia.
  - destruct (size <? capacity); [lia|]. unfold grown.
    destruct (Z.eqb_spec capacity 0); lia.
  - destruct (size <? capacity); [lia|]. unfold grown.
    destruct (Z.eqb_spec capacity 0); lia.
Qed.

(** A sequence of calls acts on the elements as the sequence of the
    list operations, and never lowers the capacity. *)
Lemma mutate_all_step ms h v :
  wf h v -> Forall well_typed ms ->
  match mutate_all ms v h with
  | Ok v' h' =>
      wf h' v'
      /\ elements h' v' = foldl (fun l m => on_elements m l) (elements h v) ms
      /\ SimpleVector.capacity_ v <= SimpleVector.capacity_ v'
  | Throw _ _ | UB => True
  end.
Proof.
  revert h v. induction ms as [|m ms IH]; intros h v Hwf Hms.
  - cbn. split; [exact Hwf|]. split; [reflexivity | lia].
  - inversion Hms as [|? ? Hm Hms']; subst.
    pose proof (mutate_step h v m Hwf Hm) as Hstep.
    cbn [mutate_all foldl]. unfold bind.
    destruct (mutate m v h) as [v1 h1|e h1|]; [|exact I ..].
    destruct Hstep as (Hwf1 & Hels1 & Hcap1 & _).
    specialize (IH h1 v1 Hwf1 Hms').
    destruct (mutate_all ms v1 h1) as [v' h'|e h'|]; [|exact I ..].
    destruct IH as (Hwf' & Hels' & Hcap').
    split; [exact Hwf'|]. split; [now rewrite Hels', Hels1|].
    pose proof Hwf as [[_ Hsz] _].
    pose proof (capacity_after_ge m (SimpleVector.size_ v) (SimpleVector.capacity_ v)).
    lia.
Qed.

(** X1. A call on a well-formed vector, with arguments of its types,
    where the argument of [PushBack] and [Insert] is an object outside
    the free store, that returns: the vector is well-formed again, its
    elements are
    those that the corresponding list operation gives, its size is
    their number, and its capacity is the one that the growth policy
    gives: unchanged while the elements fit, else the requested size or
    twice the capacity for [Resize], the requested capacity for
    [Reserve], and 1 or twice the capacity for [PushBack] and
    [Insert]. *)
Theorem call_refines_its_list_operation h v m v' h' :
  wf h v -> well_typed m ->
  mutate m v h = Ok v' h' ->
  wf h' v'
  /\ elements h' v' = on_elements m (elements h v)
  /\ SimpleVector.size_ v' = Z.of_nat (length (on_elements m (elements h v)))
  /\ SimpleVector.capacity_ v'
     = capacity_after m (SimpleVector.size_ v) (SimpleVector.capacity_ v).
Proof.
  intros Hwf Hm Hrun. pose proof (mutate_step h v m Hwf Hm) as Hstep.
  rewrite Hrun in Hstep. destruct Hstep as (Hwf' & Hels & Hcap & _).
  split; [exact Hwf'|]. split; [exact Hels|]. split; [|exact Hcap].
  rewrite <- Hels, (elements_length h' v' Hwf').
  pose proof Hwf' as [[_ Hsz] _]. lia.
Qed.

(** X2. A sequence of calls on a well-formed vector, with arguments of
    their types, where the argument of [PushBack] and [Insert] is an
    object outside the free store, that returns: the invariant holds at
    the end, the
    elements are those that the list operations give in sequence, and
    the capacity is not below the one at the start: no call gives
    capacity back. *)
Theorem calls_keep_the_invariant h v ms v' h' :
  wf h v -> Forall well_typed ms ->
  mutate_all ms v h = Ok v' h' ->
  wf h' v'
  /\ elements h' v' = foldl (fun l m => on_elements m l) (elements h v) ms
  /\ SimpleVector.size_ v' <= SimpleVector.capacity_ v'
  /\ SimpleVector.capacity_ v <= SimpleVector.capacity_ v'.
Proof.
  intros Hwf Hms Hrun. pose proof (mutate_all_step ms h v Hwf Hms) as Hall.
  rewrite Hrun in Hall. destruct Hall as (Hwf' & Hels & Hcap).
  split; [exact Hwf'|]. split; [exact Hels|]. split; [|exact Hcap].
  pose proof Hwf' as [[_ Hsz] _]. lia.
Qed.

(** X3. [PushBack] and [Insert], copying or moving, on a full
    well-formed vector whose grown capacity the allocator refuses: the
    call throws [std::bad_alloc] and the free store is as it was before
    the call, whatever the argument is.  The allocation is the first
    thing that a growing call does: the argument was not read and no
    element was assigned when it throws. *)
Theorem refused_growth_changes_nothing moving h v p (value : reference T) :
  wf h v ->
  0 <= p <= SimpleVector.size_ v ->
  SimpleVector.size_ v = SimpleVector.capacity_ v ->
  max_len < grown (SimpleVector.capacity_ v) ->
  SimpleVector.PushBack_with moving value v h = Throw bad_alloc h
  /\ exists pos,
       ptr_add (SimpleVector.begin_ v) p h = Ok pos h
       /\ SimpleVector.Insert_with moving pos value v h = Throw bad_alloc h.
Proof.
  intros Hwf Hp Hfull Hrefused. split.
  - now apply PushBack_refused.
  - now apply Insert_refused.
Qed.

(** X4. A sequence of calls that returns has changed nothing of the
    free store but the buffer of the vector: without the buffer, the
    free store is what it was without the buffer before the calls.  No
    other array was written, none was freed, and every buffer that the
    calls allocated and replaced was freed. *)
Theorem calls_keep_the_rest_of_the_free_store (ms : list (@mutation T)) v h v' h' :
  mutate_all ms v h = Ok v' h' ->
  rest h' (SimpleVector.data_ v') = rest h (SimpleVector.data_ v).
Proof.
  intros Hrun. pose proof (mutate_all_frames ms h v h eq_refl) as Hfr.
  rewrite Hrun in Hfr. exact Hfr.
Qed.

(** X5. The life of a vector: constructed from an initializer list,
    changed by a sequence of calls and destroyed, it leaves the free
    store exactly as it found it. *)
Theorem lifetime_restores_the_free_store (init : list T) (ms : list (@mutation T)) h h' :
  (v <- SimpleVector.of_list init ;;
   v' <- mutate_all ms v ;;
   SimpleVector.dtor v') h = Ok tt h' ->
  h' = h.
Proof.
  intros Hrun.
  apply bind_Ok_inv in Hrun as (v & h1 & Hnew & Hrun).
  apply bind_Ok_inv in Hrun as (v' & h2 & Hcalls & Hdel).
  pose proof (of_list_frames h init h eq_refl) as Hfr1. rewrite Hnew in Hfr1.
  pose proof (mutate_all_frames ms h1 v h1 eq_refl) as Hfr2. rewrite Hcalls in Hfr2.
  cbv beta in Hfr1, Hfr2. rewrite Hfr1 in Hfr2.
  pose proof (dtor_frames (SimpleVector.data_ v') _ h2 Hfr2) as Hfr3.
  unfold SimpleVector.dtor in Hdel. rewrite Hdel in Hfr3. exact Hfr3.
Qed.

End Sequences.

(** ** The growth policy *)

Section GrowthPolicy.
Context {T : Type} `{Element T} `{Allocator}.
Implicit Types (h t : heap T) (arr A D : list T) (b : block) (v : SimpleVector.t).

(** [PushBack] on a well-formed vector whose grown capacity the
    allocator grants. *)
Lemma PushBack_spec h v x :
  wf h v ->
  (SimpleVector.size_ v = SimpleVector.capacity_ v ->
   grown (SimpleVector.capacity_ v) <= max_len) ->
  exists v' h',
    SimpleVector.PushBack (Elsewhere x) v h = Ok v' h'
    /\ wf h' v'
    /\ SimpleVector.size_ v' = SimpleVector.size_ v + 1
    /\ SimpleVector.capacity_ v'
       = (if SimpleVector.size_ v <? SimpleVector.capacity_ v
          then SimpleVector.capacity_ v else grown (SimpleVector.capacity_ v))
    /\ elements h' v' = elements h v ++ [x]
    /\ evolves h (SimpleVector.data_ v) h' (SimpleVector.data_ v').
Proof.
  intros Hwf Hfit. pose proof Hwf as [[_ Hsz] _].
  destruct (Z.lt_ge_cases (SimpleVector.size_ v) (SimpleVector.capacity_ v)) as [Hroom|Hfull].
  - destruct (PushBack_within h v x Hwf Hroom) as (h' & Hrun & Hwf' & Hels & Hev).
    eexists _, h'. split; [exact Hrun|]. split; [exact Hwf'|].
    split; [reflexivity|]. split; [|split; [exact Hels|]].
    + destruct v as [size capacity data]. fields.
      replace (size <? capacity) with true by lia. reflexivity.
    + destruct v; exact Hev.
  - destruct (PushBack_grow h v x Hwf) as (v' & h' & Hrun & Hsize & Hcap & Hwf' & Hels & Hev);
      [lia | apply Hfit; lia |].
    exists v', h'. split; [exact Hrun|]. split; [exact Hwf'|]. split; [exact Hsize|].
    split; [|split; [exact Hels | exact Hev]].
    replace (SimpleVector.size_ v <? SimpleVector.capacity_ v) with false by lia.
    exact Hcap.
Qed.

(** X6. Pushing the values of a list, which are objects outside the
    free store, one after the other onto a well-formed vector, when
    the allocator grants twice the final size: every [PushBack]
    returns, the values are appended in order,
    the capacity never shrinks and stays below twice the final size
    unless it was larger from the start. *)
Theorem PushBacks_append_in_order xs h v :
  wf h v ->
  2 * (SimpleVector.size_ v + Z.of_nat (length xs)) <= max_len ->
  exists v' h',
    push_all xs v h = Ok v' h'
    /\ wf h' v'
    /\ SimpleVector.size_ v' = SimpleVector.size_ v + Z.of_nat (length xs)
    /\ elements h' v' = elements h v ++ xs
    /\ SimpleVector.capacity_ v <= SimpleVector.capacity_ v'
    /\ SimpleVector.capacity_ v'
       <= Z.max (SimpleVector.capacity_ v)
                (2 * (SimpleVector.size_ v + Z.of_nat (length xs)))
    /\ evolves h (SimpleVector.data_ v) h' (SimpleVector.data_ v').
Proof.
  revert h v. induction xs as [|x xs IH]; intros h v Hwf Hfit.
  - exists v, h. cbn [push_all ret length]. split; [reflexivity|]. split; [exact Hwf|].
    split; [lia|]. split; [now rewrite app_nil_r|]. split; [lia|]. split; [lia|].
    apply evolves_refl.
  - cbn [length] in Hfit. rewrite Nat2Z.inj_succ in Hfit.
    pose proof Hwf as [[_ Hsz] _].
    assert (Hgrown : SimpleVector.size_ v = SimpleVector.capacity_ v ->
                     grown (SimpleVector.capacity_ v) <= max_len).
    { intros Hfull. unfold grown. destruct (Z.eqb_spec (SimpleVector.capacity_ v) 0); lia. }
    destruct (PushBack_spec h v x Hwf Hgrown)
      as (v1 & h1 & Hrun1 & Hwf1 & Hsize1 & Hcap1 & Hels1 & Hev1).
    destruct (IH h1 v1 Hwf1) as (v' & h' & Hrun & Hwf' & Hsize & Hels & Hlo & Hhi & Hev);
      [lia|].
    exists v', h'. cbn [push_all]. step Hrun1.
    assert (Hcap1' : SimpleVector.capacity_ v <= SimpleVector.capacity_ v1
                     /\ SimpleVector.capacity_ v1
                        <= Z.max (SimpleVector.capacity_ v) (2 * (SimpleVector.size_ v + 1))).
    { rewrite Hcap1. destruct (Z.ltb_spec (SimpleVector.size_ v) (SimpleVector.capacity_ v));
        [lia|]. unfold grown. destruct (Z.eqb_spec (SimpleVector.capacity_ v) 0); lia. }
    split; [exact Hrun|]. split; [exact Hwf'|].
    split; [cbn [length]; lia|].
    split; [rewrite Hels, Hels1, <- app_assoc; reflexivity|].
    split; [lia|]. split; [cbn [length]; lia|].
    eapply evolves_trans; eassumption.
Qed.

(** X7. [Clear] keeps the buffer: after it the vector is empty with
    the capacity it had, and pushing no more values than the capacity
    fills the same buffer again, with no reallocation. *)
Theorem Clear_keeps_the_buffer xs h v :
  wf h v ->
  Z.of_nat (length xs) <= SimpleVector.capacity_ v ->
  SimpleVector.IsEmpty (SimpleVector.Clear v) = true
  /\ elements h (SimpleVector.Clear v) = []
  /\ SimpleVector.GetCapacity (SimpleVector.Clear v) = SimpleVector.GetCapacity v
  /\ wf h (SimpleVector.Clear v)
  /\ exists v' h',
       push_all xs (SimpleVector.Clear v) h = Ok v' h'
       /\ SimpleVector.data_ v' = SimpleVector.data_ v
       /\ SimpleVector.capacity_ v' = SimpleVector.capacity_ v
       /\ SimpleVector.size_ v' = Z.of_nat (length xs)
       /\ elements h' v' = xs.
Proof.
  intros Hwf Hfit. pose proof Hwf as [[Hext Hsz] Hmax].
  assert (Hwf0 : wf h (SimpleVector.Clear v)).
  { destruct v as [size capacity data]. unfold SimpleVector.Clear. fields.
    split; [split|]; fields; auto. lia. }
  split; [reflexivity|]. split; [reflexivity|]. split; [reflexivity|].
  split; [exact Hwf0|].
  destruct (push_all_within h (SimpleVector.Clear v) xs Hwf0) as (h' & Hrun & _ & Hels & _).
  { destruct v; cbn. exact Hfit. }
  eexists _, h'. split; [exact Hrun|]. split; [destruct v; reflexivity|].
  split; [destruct v; reflexivity|]. split; [destruct v; reflexivity | exact Hels].
Qed.

(** X8. [Resize] while the new capacity is below [2^31]: on a
    well-formed vector, when the allocator grants the new capacity,
    the call returns, the first [new_size] elements are kept and
    value-initialised elements fill up to [new_size]; the capacity
    stays when [new_size] fits, else it becomes the larger of
    [new_size] and twice the capacity. *)
Theorem Resize_below_the_int_range h v new_size :
  wf h v ->
  0 <= new_size ->
  (SimpleVector.capacity_ v < new_size ->
   Z.max new_size (2 * SimpleVector.capacity_ v) < 2 ^ 31
   /\ Z.max new_size (2 * SimpleVector.capacity_ v) <= max_len) ->
  exists v' h',
    SimpleVector.Resize new_size v h = Ok v' h'
    /\ wf h' v'
    /\ SimpleVector.size_ v' = new_size
    /\ SimpleVector.capacity_ v'
       = (if new_size <=? SimpleVector.capacity_ v then SimpleVector.capacity_ v
          else Z.max new_size (2 * SimpleVector.capacity_ v))
    /\ elements h' v'
       = take (Z.to_nat new_size) (elements h v)
         ++ replicate (Z.to_nat new_size - length (elements h v)) value_init.
Proof.
  intros Hwf Hpos Hfit. pose proof Hwf as [[_ Hsz] Hmax].
  assert (Hty : well_typed (MResize new_size : @mutation T)).
  { cbn. split; [exact Hpos|].
    destruct (Z.le_gt_cases new_size (SimpleVector.capacity_ v)) as [Hle|Hgt].
    - pose proof max_len_ptrdiff. rewrite size_t_modulus_eq. lia.
    - destruct (Hfit Hgt). rewrite size_t_modulus_eq. lia. }
  assert (Hret : exists v' h', SimpleVector.Resize new_size v h = Ok v' h'
                               /\ SimpleVector.size_ v' = new_size).
  { destruct (Z.le_gt_cases new_size (SimpleVector.size_ v)) as [Hshrink|Hgrow].
    { eexists _, h. split; [apply Resize_shrink; exact Hshrink|]. destruct v; reflexivity. }
    destruct (Z.le_gt_cases new_size (SimpleVector.capacity_ v)) as [Hwithin|Habove].
    { destruct (Resize_within h v new_size Hwf) as (h' & Hrun & _); [lia|].
      eexists _, h'. split; [exact Hrun|]. destruct v; reflexivity. }
    destruct (Hfit Habove) as [Hint Hgrant].
    destruct (Resize_grow h v new_size Hwf Habove Hint Hgrant) as (v' & h' & Hrun & Hsize & _).
    exists v', h'. split; assumption. }
  destruct Hret as (v' & h' & Hrun & Hsize).
  pose proof (mutate_step h v (MResize new_size) Hwf Hty) as Hstep.
  cbn [mutate] in Hstep. rewrite Hrun in Hstep.
  destruct Hstep as (Hwf' & Hels & Hcap & _).
  exists v', h'. split; [exact Hrun|]. split; [exact Hwf'|]. split; [exact Hsize|].
  split; [exact Hcap | exact Hels].
Qed.

(** X9. [Resize] to a capacity of [2^31] or more never returns: the
    capacity goes through an [int], so on a well-formed vector the call
    throws [std::bad_alloc] with the free store as it was, or writes
    past the end of the array that the narrowed capacity gave. *)
Theorem Resize_beyond_the_int_range_never_returns h v new_size :
  wf h v ->
  SimpleVector.capacity_ v < new_size < size_t_modulus ->
  2 ^ 31 <= Z.max new_size (2 * SimpleVector.capacity_ v) ->
  (SimpleVector.Resize new_size v h = Throw bad_alloc h
   \/ SimpleVector.Resize new_size v h = UB)
  /\ forall v' h', SimpleVector.Resize new_size v h <> Ok v' h'.
Proof.
  intros Hwf Hnew Hbig.
  pose proof (Resize_narrowed h v new_size Hwf Hnew Hbig) as Hrun.
  split; [exact Hrun|]. intros v' h' Hok.
  destruct Hrun as [Hrun|Hrun]; rewrite Hrun in Hok; discriminate.
Qed.

(** X10. The member [Reserve] on a well-formed vector: a request within
    the capacity changes nothing; a larger request that the allocator
    grants returns a vector with that capacity, the size and the
    elements it had, in a new array, and the old buffer is freed; a
    larger request that the allocator refuses throws [std::bad_alloc]
    and changes nothing. *)
Theorem Reserve_keeps_the_elements h v new_capacity :
  wf h v ->
  (new_capacity <= SimpleVector.capacity_ v ->
   SimpleVector.Reserve new_capacity v h = Ok v h)
  /\ (SimpleVector.capacity_ v < new_capacity <= max_len ->
      exists b' h',
        let v' := {| SimpleVector.size_ := SimpleVector.size_ v;
                     SimpleVector.capacity_ := new_capacity;
                     SimpleVector.data_ := {| ArrayPtr.raw_ptr_ := Ptr b' 0 |} |} in
        SimpleVector.Reserve new_capacity v h = Ok v' h'
        /\ wf h' v'
        /\ elements h' v' = elements h v
        /\ h !! b' = None
        /\ delete b' h' = rest h (SimpleVector.data_ v))
  /\ (SimpleVector.capacity_ v < new_capacity -> max_len < new_capacity ->
      SimpleVector.Reserve new_capacity v h = Throw bad_alloc h).
Proof.
  intros Hwf. pose proof Hwf as [[_ Hsz] _]. split; [|split].
  - apply Reserve_within.
  - intros Hgrow.
    destruct (ReallocateAndMoveData_spec h v new_capacity Hwf)
      as (b' & D & h' & Hrun & Hfresh & HD & HlD & Hels & Hev); [lia | lia |].
    assert (Hres : SimpleVector.Reserve new_capacity v h
                   = SimpleVector.ReallocateAndMoveData new_capacity v h).
    { unfold SimpleVector.Reserve.
      replace (SimpleVector.capacity_ v <? new_capacity) with true by lia. reflexivity. }
    exists b', h'. cbv zeta. rewrite Hres. split; [exact Hrun|].
    split; [apply wf_block with D; auto; lia|].
    split; [rewrite (elements_block h' b' D) by exact HD; exact Hels|].
    split; [exact Hfresh|].
    pose proof (ReallocateAndMoveData_frames h new_capacity v h eq_refl) as Hfr.
    rewrite Hrun in Hfr. exact Hfr.
  - intros Hgrow Hnofit. apply Reserve_throw; assumption.
Qed.

End GrowthPolicy.

(** ** Positions *)

Section Positions.
Context {T : Type} `{Element T} `{Allocator}.
Implicit Types (h t : heap T) (arr A D : list T) (b : block) (v : SimpleVector.t)
  (value : reference T).

(** The reference that [operator[]] gives is the iterator [begin() + index]. *)
Lemma index_is_iterator h v i q h' :
  SimpleVector.index i v h = Ok q h' ->
  h' = h /\ ptr_add (SimpleVector.begin_ v) i h = Ok q h.
Proof.
  unfold SimpleVector.index, ArrayPtr.index, SimpleVector.begin_. intros Hrun.
  apply bind_Ok_inv in Hrun as (r & h1 & Hadd & Hlv).
  pose proof (reads_ptr_add (T:=T) (ArrayPtr.Get (SimpleVector.data_ v)) i h) as Hr1.
  unfold ArrayPtr.Get in *. rewrite Hadd in Hr1. destruct Hr1 as [-> _].
  pose proof (reads_lvalue (T:=T) r h) as Hr2. rewrite Hlv in Hr2. destruct Hr2 as [-> ->].
  split; [reflexivity | exact Hadd].
Qed.

(** Reading an element of a well-formed vector through an iterator. *)
Lemma iterator_element h v i :
  wf h v -> 0 <= i < SimpleVector.size_ v ->
  exists p x, ptr_add (SimpleVector.begin_ v) i h = Ok p h
    /\ load p h = Ok x h
    /\ elements h v !! Z.to_nat i = Some x.
Proof.
  intros Hwf Hi. destruct (index_element h v i Hwf Hi) as (p & x & Hidx & Hload & Hx).
  exists p, x. split; [|split; assumption].
  now destruct (index_is_iterator h v i p h Hidx).
Qed.

(** A reallocation deletes the old array. *)
Lemma ReallocateAndMoveData_deletes h v new_capacity v' h' b :
  SimpleVector.ReallocateAndMoveData new_capacity v h = Ok v' h' ->
  block_of (SimpleVector.data_ v) = Some b ->
  block_of (SimpleVector.data_ v') <> Some b ->
  h' !! b = None.
Proof.
  intros Hrun Hb Hb'.
  pose proof (ReallocateAndMoveData_frames h new_capacity v h eq_refl) as Hfr.
  rewrite Hrun in Hfr. unfold rest in Hfr. rewrite Hb in Hfr.
  destruct (block_of (SimpleVector.data_ v')) as [b'|].
  - assert (Hne : b' <> b) by congruence.
    rewrite <- (lookup_delete_ne h' b' b Hne), Hfr. apply lookup_delete_eq.
  - rewrite Hfr. apply lookup_delete_eq.
Qed.

(** The capacity that [PushBack] asks for when the vector is full. *)
Lemma PushBack_new_capacity v :
  0 <= SimpleVector.size_ v ->
  SimpleVector.size_ v = SimpleVector.capacity_ v ->
  SimpleVector.capacity_ v <= max_len ->
  (if negb (SimpleVector.capacity_ v =? 0)
   then Z.max (wrap (SimpleVector.size_ v + 1)) (wrap (2 * SimpleVector.capacity_ v))
   else 1) = grown (SimpleVector.capacity_ v).
Proof. intros Hsize Hfull Hmax. now apply new_capacity_grown. Qed.

(** [PushBack(const Type&)] of an argument that refers to an object,
    which is no element of the vector itself when the vector is full,
    is [PushBack] of the value of that object. *)
Lemma PushBack_by_reference h v value x :
  wf h v ->
  (SimpleVector.size_ v = SimpleVector.capacity_ v ->
   grown (SimpleVector.capacity_ v) <= max_len) ->
  referent h value = Some x ->
  (SimpleVector.size_ v = SimpleVector.capacity_ v -> ~ own_element v value) ->
  SimpleVector.PushBack value v h = SimpleVector.PushBack (Elsewhere x) v h.
Proof.
  intros Hwf Hfit Hx Hother. pose proof Hwf as [[_ Hsz] Hmax].
  unfold SimpleVector.PushBack, SimpleVector.PushBack_with.
  rewrite (size_t_fits (SimpleVector.size_ v + 1)) by lia.
  destruct (Z.ltb_spec (SimpleVector.capacity_ v) (SimpleVector.size_ v + 1)) as [Hfull|Hroom].
  - assert (Hfull' : SimpleVector.size_ v = SimpleVector.capacity_ v) by lia.
    pose proof (grown_holds_one_more (SimpleVector.capacity_ v) ltac:(lia)) as Hone.
    rewrite <- (size_t_fits (SimpleVector.size_ v + 1)) at 1 2 by lia.
    rewrite (PushBack_new_capacity v) by lia.
    destruct (ReallocateAndMoveData_spec h v (grown (SimpleVector.capacity_ v)) Hwf)
      as (b' & D & h1 & Hrun & Hfree & Hb' & Hlen & Hels & Hev);
      [lia | pose proof (Hfit Hfull'); lia |].
    rewrite !(bind_Ok _ _ _ _ _ Hrun). fields.
    rewrite !(bind_Ok _ _ _ _ _ (index_Ptr h1 b' (SimpleVector.size_ v) D Hb' ltac:(lia))).
    assert (Hx1 : referent h1 value = Some x).
    { rewrite <- Hx. apply referent_ext. intros k Hk.
      destruct (referent_live h value x k Hx Hk) as [A HA]. rewrite HA.
      apply (Hev k A HA). intros Hown. apply (Hother Hfull'). now exists k. }
    assert (Hfresh : ~ refers_into b' value).
    { intros Hin. destruct (referent_live h value x b' Hx Hin) as [A HA]. congruence. }
    rewrite (bind_Ok _ _ _ _ _
               (assign_arg_spec false h1 b' D (SimpleVector.size_ v) value x Hb'
                  ltac:(lia) Hx1 (fun _ => Hfresh))).
    rewrite moved_out_copy. cbn [assign_arg].
    rewrite (bind_Ok _ _ _ _ _ (store_Ptr h1 b' (SimpleVector.size_ v) D x Hb' ltac:(lia))).
    reflexivity.
  - rewrite !bind_ret.
    apply wf_owns in Hwf as (arr & Ho & Hlen & _).
    destruct v as [size capacity data]. fields.
    destruct Ho as [|b arr Hb]; [cbn in Hlen; lia|].
    rewrite !(bind_Ok _ _ _ _ _ (index_Ptr h b size arr Hb ltac:(lia))).
    rewrite (bind_Ok _ _ _ _ _
               (assign_arg_spec false h b arr size value x Hb ltac:(lia) Hx
                  ltac:(discriminate))).
    rewrite moved_out_copy. cbn [assign_arg].
    rewrite (bind_Ok _ _ _ _ _ (store_Ptr h b size arr x Hb ltac:(lia))).
    reflexivity.
Qed.

(** [PushBack], copying or moving, of an element of a full vector
    itself: the assignment reads the argument from the array that the
    reallocation has deleted. *)
Lemma PushBack_of_own_element_when_full moving h v value :
  wf h v ->
  SimpleVector.size_ v = SimpleVector.capacity_ v ->
  grown (SimpleVector.capacity_ v) <= max_len ->
  own_element v value ->
  SimpleVector.PushBack_with moving value v h = UB.
Proof.
  intros Hwf Hfull Hfit (b & Hb & Hin). pose proof Hwf as [[Hext Hsz] Hmax].
  destruct value as [x|[|b0 s]]; cbn in Hin; try contradiction. subst b0.
  pose proof (grown_holds_one_more (SimpleVector.capacity_ v) ltac:(lia)) as Hone.
  destruct (ReallocateAndMoveData_spec h v (grown (SimpleVector.capacity_ v)) Hwf)
    as (b' & D & h1 & Hrun & Hfree & Hb' & Hlen & Hels & Hev); [lia | lia |].
  assert (Hlive : is_Some (h !! b)).
  { unfold extent in Hext. unfold block_of in Hb.
    destruct (ArrayPtr.raw_ptr_ (SimpleVector.data_ v)) as [|b0 off]; [discriminate|].
    inversion Hb; subst b0. destruct (h !! b); [eauto | discriminate]. }
  assert (Hgone : h1 !! b = None).
  { apply (ReallocateAndMoveData_deletes h v _ _ h1 b Hrun Hb). cbn.
    intros [= ->]. destruct Hlive as [A HA]. congruence. }
  unfold SimpleVector.PushBack_with.
  replace (SimpleVector.capacity_ v <? wrap (SimpleVector.size_ v + 1)) with true
    by (rewrite size_t_fits by lia; lia).
  rewrite (PushBack_new_capacity v) by lia.
  rewrite (bind_Ok _ _ _ _ _ Hrun). fields.
  rewrite (bind_Ok _ _ _ _ _ (index_Ptr h1 b' (SimpleVector.size_ v) D Hb' ltac:(lia))).
  apply bind_UB. unfold assign_elem, move_elem, copy_elem.
  destruct moving; apply bind_UB; unfold load; now rewrite Hgone.
Qed.

(** X11. [Insert], copying or moving, at a position of a well-formed
    vector whose grown capacity the allocator grants, with an argument
    that [Insert_argument] reads as [y]: an object outside the free
    store or an element of another array, whose value [y] is, or, for
    the overload that copies, an element of the vector itself, read
    after the elements from the position on have moved up.  The call
    returns a well-formed vector with one element more, [y] stands at
    the position with the elements before it in place and those after
    it one index up; the capacity stays if there was room, else it is
    1 or twice the capacity; and the iterator that is returned is
    [begin() + offset] of the new buffer, through which [y] is read. *)
Theorem Insert_places_the_value moving h v p value y :
  wf h v ->
  0 <= p <= SimpleVector.size_ v ->
  (SimpleVector.size_ v = SimpleVector.capacity_ v ->
   grown (SimpleVector.capacity_ v) <= max_len) ->
  Insert_argument moving h v p value = Some y ->
  exists pos res v' h',
    ptr_add (SimpleVector.begin_ v) p h = Ok pos h
    /\ SimpleVector.Insert_with moving pos value v h = Ok (res, v') h'
    /\ wf h' v'
    /\ SimpleVector.size_ v' = SimpleVector.size_ v + 1
    /\ SimpleVector.capacity_ v'
       = (if SimpleVector.size_ v <? SimpleVector.capacity_ v
          then SimpleVector.capacity_ v else grown (SimpleVector.capacity_ v))
    /\ elements h' v'
       = take (Z.to_nat p) (elements h v) ++ y :: drop (Z.to_nat p) (elements h v)
    /\ ptr_add (SimpleVector.begin_ v') p h' = Ok res h'
    /\ load res h' = Ok y h'.
Proof.
  intros Hwf Hp Hfit Hval.
  destruct (Insert_by_reference moving h v p value y Hwf Hp Hfit Hval)
    as (pos & res & v' & h' & Hpos & Hrun & Hres & Hsize & Hcap & Hwf' & Hels & _).
  exists pos, res, v', h'. split; [exact Hpos|]. split; [exact Hrun|].
  split; [exact Hwf'|]. split; [exact Hsize|]. split; [exact Hcap|].
  split; [exact Hels|]. split; [exact Hres|].
  destruct (iterator_element h' v' p Hwf') as (q & z & Hq & Hload & Hz); [lia|].
  rewrite Hres in Hq. injection Hq as <-.
  rewrite Hels in Hz.
  pose proof (elements_length h v Hwf) as Hlen.
  rewrite (list_lookup_middle _ _ y (Z.to_nat p)) in Hz
    by (rewrite length_take; lia).
  injection Hz as <-. exact Hload.
Qed.

(** X12. [Erase] at the position of an element of a well-formed
    vector: the call returns the position it was given, in the same
    buffer with the same capacity; the elements before the position
    stay and those after it are one index down. *)
Theorem Erase_closes_the_gap h v p :
  wf h v ->
  0 <= p < SimpleVector.size_ v ->
  exists pos v' h',
    ptr_add (SimpleVector.begin_ v) p h = Ok pos h
    /\ SimpleVector.Erase pos v h = Ok (pos, v') h'
    /\ wf h' v'
    /\ SimpleVector.size_ v' = SimpleVector.size_ v - 1
    /\ SimpleVector.capacity_ v' = SimpleVector.capacity_ v
    /\ SimpleVector.data_ v' = SimpleVector.data_ v
    /\ elements h' v' = delete (Z.to_nat p) (elements h v)
    /\ (forall j : nat, Z.of_nat j < p -> elements h' v' !! j = elements h v !! j)
    /\ (forall j : nat, p <= Z.of_nat j ->
          elements h' v' !! j = elements h v !! Datatypes.S j).
Proof.
  intros Hwf Hp.
  destruct (Erase_spec h v p Hwf Hp) as (pos & h' & Hpos & Hrun & _ & Hwf' & Hels & _).
  eexists pos, _, h'. split; [exact Hpos|]. split; [exact Hrun|].
  split; [exact Hwf'|]. split; [destruct v; reflexivity|].
  split; [destruct v; reflexivity|]. split; [destruct v; reflexivity|].
  split; [exact Hels|]. rewrite Hels. split; intros j Hj.
  - apply list_lookup_delete_lt. lia.
  - apply list_lookup_delete_ge. lia.
Qed.

(** X13. [PushBack(const Type&)] and then [PopBack] on a well-formed
    vector give back the size and the elements; the capacity that
    [PushBack] grew stays.  The argument refers to an object: one
    outside the free store, an element of another array, or an element
    of the vector itself when the vector is not full. *)
Theorem PushBack_then_PopBack_restores h v value x :
  wf h v ->
  (SimpleVector.size_ v = SimpleVector.capacity_ v ->
   grown (SimpleVector.capacity_ v) <= max_len) ->
  referent h value = Some x ->
  (SimpleVector.size_ v = SimpleVector.capacity_ v -> ~ own_element v value) ->
  exists v1 h1 v2,
    SimpleVector.PushBack value v h = Ok v1 h1
    /\ elements h1 v1 = elements h v ++ [x]
    /\ SimpleVector.PopBack v1 h1 = Ok v2 h1
    /\ wf h1 v2
    /\ SimpleVector.size_ v2 = SimpleVector.size_ v
    /\ SimpleVector.capacity_ v2 = SimpleVector.capacity_ v1
    /\ SimpleVector.data_ v2 = SimpleVector.data_ v1
    /\ elements h1 v2 = elements h v.
Proof.
  intros Hwf Hfit Hx Hother.
  destruct (PushBack_spec h v x Hwf Hfit)
    as (v1 & h1 & Hrun1 & Hwf1 & Hsize1 & _ & Hels1 & _).
  rewrite <- (PushBack_by_reference h v value x Hwf Hfit Hx Hother) in Hrun1.
  pose proof Hwf as [[_ Hsz] _].
  destruct (PopBack_spec h1 v1 Hwf1) as (Hrun2 & Hwf2 & Hels2); [lia|].
  eexists v1, h1, _. split; [exact Hrun1|]. split; [exact Hels1|]. split; [exact Hrun2|].
  split; [exact Hwf2|]. split; [destruct v1; cbn in *; lia|].
  split; [destruct v1; reflexivity|]. split; [destruct v1; reflexivity|].
  rewrite Hels2, Hels1. rewrite Hsize1.
  apply take_app_length'. rewrite (elements_length h v Hwf). lia.
Qed.

(** X14. [Insert(end(), value)] and [PushBack(value)], both taking
    [const Type&], on a well-formed vector whose grown capacity the
    allocator grants, with an argument that refers to an object.
    [Insert] returns a vector with the value appended.  [PushBack]
    returns a vector with the same elements, size and capacity, unless
    the vector is full and the argument is an element of the vector
    itself: [Insert] reads the argument before it deletes the old
    array, [PushBack] after, and that call is undefined. *)
Theorem Insert_at_end_is_PushBack h v value x :
  wf h v ->
  (SimpleVector.size_ v = SimpleVector.capacity_ v ->
   grown (SimpleVector.capacity_ v) <= max_len) ->
  referent h value = Some x ->
  exists last res v1 h1,
    SimpleVector.end_ v h = Ok last h
    /\ SimpleVector.Insert last value v h = Ok (res, v1) h1
    /\ elements h1 v1 = elements h v ++ [x]
    /\ ((SimpleVector.size_ v = SimpleVector.capacity_ v -> ~ own_element v value) ->
        exists v2 h2,
          SimpleVector.PushBack value v h = Ok v2 h2
          /\ elements h2 v2 = elements h v ++ [x]
          /\ SimpleVector.size_ v1 = SimpleVector.size_ v2
          /\ SimpleVector.capacity_ v1 = SimpleVector.capacity_ v2)
    /\ (SimpleVector.size_ v = SimpleVector.capacity_ v -> own_element v value ->
        SimpleVector.PushBack value v h = UB).
Proof.
  intros Hwf Hfit Hx. pose proof Hwf as [[_ Hsz] _].
  assert (Hval : Insert_argument false h v (SimpleVector.size_ v) value = Some x).
  { destruct value as [z|[|b s]]; try exact Hx.
    unfold Insert_argument. destruct (decide _); [|exact Hx].
    destruct (Z.ltb_spec (SimpleVector.size_ v) s), (Z.leb_spec s (SimpleVector.size_ v));
      rewrite ?andb_false_r; cbn [andb]; try exact Hx. lia. }
  destruct (Insert_by_reference false h v (SimpleVector.size_ v) value x Hwf ltac:(lia) Hfit Hval)
    as (pos & res & v1 & h1 & Hpos & Hrun1 & _ & Hsize1 & Hcap1 & _ & Hels1 & _).
  exists pos, res, v1, h1. split; [exact Hpos|]. split; [exact Hrun1|].
  split; [|split].
  - rewrite Hels1. pose proof (elements_length h v Hwf) as Hlen.
    rewrite take_ge, drop_ge by lia. reflexivity.
  - intros Hother.
    destruct (PushBack_spec h v x Hwf Hfit)
      as (v2 & h2 & Hrun2 & _ & Hsize2 & Hcap2 & Hels2 & _).
    rewrite <- (PushBack_by_reference h v value x Hwf Hfit Hx Hother) in Hrun2.
    exists v2, h2. split; [exact Hrun2|]. split; [exact Hels2|]. split; congruence.
  - intros Hfull Hown.
    exact (PushBack_of_own_element_when_full false h v value Hwf Hfull (Hfit Hfull) Hown).
Qed.

End Positions.

(** ** The comparison operators *)

Section ComparisonOperators.
Context {T : Type} `{Element T} `{Allocator} `{Ordered T}.
Implicit Types (h t : heap T) (arr A B : list T) (b : block) (v lhs rhs : SimpleVector.t).

Lemma equal_along_longer (l1 l2 : list T) :
  (length l2 < length l1)%nat -> equal_along l1 l2 <> Some true.
Proof.
  revert l2. induction l1 as [|x l1 IH]; intros [|y l2] Hlen; cbn in Hlen;
    try lia; cbn [equal_along]; [discriminate|].
  destruct (elem_eqb x y); [apply IH; lia | discriminate].
Qed.

Lemma equal_along_prefix (l : list T) (n : nat) :
  (forall x, elem_eqb x x = true) -> equal_along (take n l) l = Some true.
Proof.
  intros Hrefl. revert n. induction l as [|x l IH]; intros [|n]; try reflexivity.
  cbn [take firstn equal_along]. rewrite Hrefl. apply IH.
Qed.

(** A vector whose own array a step kept is as it was. *)
Lemma kept_vector h h' v :
  wf h v ->
  (forall b arr, block_of (SimpleVector.data_ v) = Some b ->
     h !! b = Some arr -> h' !! b = Some arr) ->
  wf h' v /\ elements h' v = elements h v
  /\ buffer h' (SimpleVector.data_ v) = buffer h (SimpleVector.data_ v).
Proof.
  intros Hwf Hkeep. pose proof Hwf as Hwf0.
  apply wf_owns in Hwf as (arr & Ho & Hlen & Hsz & Hmax).
  destruct v as [size capacity data]. fields.
  destruct Ho as [|b arr Hb]; [split; [exact Hwf0|split; reflexivity]|].
  pose proof (Hkeep b arr eq_refl Hb) as Hb'. split; [|split].
  - now apply wf_block with arr.
  - now rewrite (elements_block h' b arr), (elements_block h b arr).
  - unfold buffer. cbn. now rewrite Hb, Hb'.
Qed.

(** With enough cells on the right, [equal_along] has a result. *)
Lemma equal_along_some (l1 l2 : list T) :
  (length l1 <= length l2)%nat -> exists r, equal_along l1 l2 = Some r.
Proof.
  revert l2. induction l1 as [|x l1 IH]; intros l2 Hlen; [now exists true|].
  destruct l2 as [|y l2]; cbn [length] in Hlen; [lia|]. cbn [equal_along].
  destruct (elem_eqb x y); [apply IH; lia | now exists false].
Qed.

(** X15. [operator==] and [operator!=] on well-formed vectors compare
    the elements of the left operand with the elements of the right
    operand at the same indices and never look at the size of the right
    operand.  When the right operand has at least as many elements as
    the left, both return: [operator==] returns whether the left
    operand agrees with the first elements of the right operand (with
    an [operator==] of the elements that decides equality: whether the
    left operand is a prefix of the right), and [operator!=] returns
    the negation.  When the left operand has more elements than the
    array of the right operand has cells, the call reads past the end
    of that array.  Nothing is stated of a left operand that is longer
    than the right operand and fits its array: the call then reads
    cells that are no elements. *)
Theorem operator_eq_walks_the_left_operand h lhs rhs :
  wf h lhs -> wf h rhs ->
  (SimpleVector.size_ lhs <= SimpleVector.size_ rhs ->
   exists r,
     equal_along (elements h lhs) (elements h rhs) = Some r
     /\ SimpleVector.operator_eq lhs rhs h = Ok r h
     /\ SimpleVector.operator_ne lhs rhs h = Ok (negb r) h
     /\ ((forall x y : T, elem_eqb x y = true <-> x = y) ->
         (r = true
          <-> elements h lhs = take (length (elements h lhs)) (elements h rhs))))
  /\ (SimpleVector.capacity_ rhs < SimpleVector.size_ lhs ->
      SimpleVector.operator_eq lhs rhs h = UB
      /\ SimpleVector.operator_ne lhs rhs h = UB).
Proof.
  intros Hl Hr. pose proof (operator_eq_spec h lhs rhs Hl Hr) as Heq.
  pose proof (elements_length h lhs Hl) as HlenL.
  pose proof (elements_length h rhs Hr) as HlenR.
  pose proof Hl as [[_ HszL] _]. pose proof Hr as [[_ HszR] _].
  split.
  - intros Hle.
    destruct (Z.leb_spec (SimpleVector.size_ lhs) (SimpleVector.capacity_ rhs)); [|lia].
    assert (Hsame : equal_along (elements h lhs) (buffer h (SimpleVector.data_ rhs))
                    = equal_along (elements h lhs) (elements h rhs)).
    { unfold elements at 3. symmetry. apply equal_along_take. lia. }
    rewrite Hsame in Heq.
    destruct (equal_along_some (elements h lhs) (elements h rhs)) as [r Hr']; [lia|].
    rewrite Hr' in Heq. exists r. split; [exact Hr'|]. split; [exact Heq|]. split.
    + unfold SimpleVector.operator_ne, bind. now rewrite Heq.
    + intros Hdec.
      destruct (equal_along_decides (elements h lhs)
                  (take (length (elements h lhs)) (elements h rhs)) Hdec)
        as (r' & Hr'' & Hiff).
      { rewrite length_take. lia. }
      rewrite equal_along_take in Hr'' by lia.
      assert (r' = r) as -> by congruence. exact Hiff.
  - intros Hlong.
    destruct (Z.leb_spec (SimpleVector.size_ lhs) (SimpleVector.capacity_ rhs)); [lia|].
    split; [exact Heq|]. unfold SimpleVector.operator_ne, bind. now rewrite Heq.
Qed.

(** X16. Between well-formed vectors of one size, with an [operator==]
    of the elements that decides equality, [operator==] returns, and it
    returns [true] exactly when the vectors have the same elements;
    [operator!=] returns the negation. *)
Theorem operator_eq_decides_equality_at_equal_sizes h lhs rhs :
  (forall x y : T, elem_eqb x y = true <-> x = y) ->
  wf h lhs -> wf h rhs ->
  SimpleVector.size_ lhs = SimpleVector.size_ rhs ->
  exists r,
    SimpleVector.operator_eq lhs rhs h = Ok r h
    /\ SimpleVector.operator_ne lhs rhs h = Ok (negb r) h
    /\ (r = true <-> elements h lhs = elements h rhs).
Proof.
  intros Hdec Hl Hr Hsize. pose proof (operator_eq_spec h lhs rhs Hl Hr) as Heq.
  pose proof (elements_length h lhs Hl) as HlenL.
  pose proof (elements_length h rhs Hr) as HlenR.
  pose proof Hr as [[_ HszR] _].
  destruct (Z.leb_spec (SimpleVector.size_ lhs) (SimpleVector.capacity_ rhs)); [|lia].
  assert (Hsame : equal_along (elements h lhs) (buffer h (SimpleVector.data_ rhs))
                  = equal_along (elements h lhs) (elements h rhs)).
  { unfold elements at 3. symmetry. apply equal_along_take. lia. }
  rewrite Hsame in Heq.
  destruct (equal_along_decides (elements h lhs) (elements h rhs) Hdec) as (r & Hr' & Hiff);
    [lia|].
  rewrite Hr' in Heq. exists r. split; [exact Heq|]. split; [|exact Hiff].
  unfold SimpleVector.operator_ne, bind. now rewrite Heq.
Qed.

(** X17. The ordering operators on well-formed vectors always return
    and leave the free store as it is: [operator<] is the
    lexicographic order of the elements by the [operator<] of the
    element type, [operator>] is the same order with the operands
    exchanged, and [operator<=] and [operator>=] are the negations of
    [operator>] and [operator<]. *)
Theorem ordering_operators_are_lexicographic h lhs rhs :
  wf h lhs -> wf h rhs ->
  SimpleVector.operator_lt lhs rhs h
  = Ok (lexicographic (elements h lhs) (elements h rhs)) h
  /\ SimpleVector.operator_gt lhs rhs h
     = Ok (lexicographic (elements h rhs) (elements h lhs)) h
  /\ SimpleVector.operator_le lhs rhs h
     = Ok (negb (lexicographic (elements h rhs) (elements h lhs))) h
  /\ SimpleVector.operator_ge lhs rhs h
     = Ok (negb (lexicographic (elements h lhs) (elements h rhs))) h.
Proof.
  intros Hl Hr.
  pose proof (operator_lt_spec h lhs rhs Hl Hr) as Hlt.
  pose proof (operator_lt_spec h rhs lhs Hr Hl) as Hgt.
  split; [exact Hlt|]. split; [exact Hgt|]. split.
  - unfold SimpleVector.operator_le, bind. now rewrite Hgt.
  - unfold SimpleVector.operator_ge, bind. now rewrite Hlt.
Qed.

(** X18. With an order of the elements that is irreflexive and in which
    two elements of which neither is less are equal, well-formed
    vectors satisfy both [lhs <= rhs] and [lhs >= rhs] exactly when
    they have the same elements, whatever [operator==] says of
    them. *)
Theorem le_and_ge_hold_exactly_for_equal_elements h lhs rhs :
  (forall x : T, elem_ltb x x = false) ->
  (forall x y : T, elem_ltb x y = false -> elem_ltb y x = false -> x = y) ->
  wf h lhs -> wf h rhs ->
  exists le ge,
    SimpleVector.operator_le lhs rhs h = Ok le h
    /\ SimpleVector.operator_ge lhs rhs h = Ok ge h
    /\ (le = true /\ ge = true <-> elements h lhs = elements h rhs).
Proof.
  intros Hirr Htri Hl Hr.
  pose proof (operator_lt_spec h lhs rhs Hl Hr) as Hlt.
  pose proof (operator_lt_spec h rhs lhs Hr Hl) as Hgt.
  eexists _, _. split; [|split].
  - unfold SimpleVector.operator_le, bind. rewrite Hgt. reflexivity.
  - unfold SimpleVector.operator_ge, bind. rewrite Hlt. reflexivity.
  - rewrite <- (lexicographic_neither _ _ Hirr Htri).
    rewrite !negb_true_iff. tauto.
Qed.

(** X19. A copy compares equal to its source, in both directions, when
    [operator==] of the elements is reflexive. *)
Theorem copy_compares_equal_to_its_source h other :
  (forall x : T, elem_eqb x x = true) ->
  wf h other ->
  exists cp h',
    SimpleVector.copy_ctor other h = Ok cp h'
    /\ SimpleVector.operator_eq cp other h' = Ok true h'
    /\ SimpleVector.operator_eq other cp h' = Ok true h'
    /\ SimpleVector.operator_ne cp other h' = Ok false h'.
Proof.
  intros Hrefl Hwf.
  destruct (copy_ctor_spec h other Hwf) as (cp & h' & Hrun & Hsize & Hcap & Hwfcp & Hels & Hkeep).
  destruct (kept_vector h h' other Hwf) as (Hwfo & Helso & Hbufo).
  { intros b arr _ Hb. exact (proj1 (Hkeep b arr Hb)). }
  pose proof (operator_eq_spec h' cp other Hwfcp Hwfo) as Heq1.
  pose proof (operator_eq_spec h' other cp Hwfo Hwfcp) as Heq2.
  pose proof Hwf as [[_ Hsz] _].
  destruct (Z.leb_spec (SimpleVector.size_ cp) (SimpleVector.capacity_ other)); [|lia].
  destruct (Z.leb_spec (SimpleVector.size_ other) (SimpleVector.capacity_ cp)); [|lia].
  assert (H1' : equal_along (elements h' cp) (buffer h' (SimpleVector.data_ other))
               = Some true).
  { rewrite Hels, <- Helso. unfold elements. apply equal_along_prefix. exact Hrefl. }
  assert (H2' : equal_along (elements h' other) (buffer h' (SimpleVector.data_ cp))
               = Some true).
  { rewrite Helso, <- Hels. unfold elements. apply equal_along_prefix. exact Hrefl. }
  rewrite H1' in Heq1. rewrite H2' in Heq2.
  exists cp, h'. split; [exact Hrun|]. split; [exact Heq1|]. split; [exact Heq2|].
  unfold SimpleVector.operator_ne, bind. now rewrite Heq1.
Qed.

End ComparisonOperators.

(** ** Assignment *)

Section Assignment.
Context {T : Type} `{Element T} `{Allocator}.
Implicit Types (h t : heap T) (arr A B : list T) (b : block) (v this rhs other : SimpleVector.t).

(** X20. Copy-assignment between two well-formed vectors with buffers
    of their own: the call returns, the assigned vector has the size
    and the elements of the right operand and a capacity equal to that
    size, the right operand is as it was, the old buffer of the assigned
    vector is freed and nothing else of the free store changed.
    Assignment of a vector to itself changes nothing. *)
Theorem copy_assign_replaces_the_elements h this rhs :
  wf h this -> wf h rhs ->
  blocks (SimpleVector.data_ this) ## blocks (SimpleVector.data_ rhs) ->
  (exists this' h',
     SimpleVector.copy_assign (Distinct this rhs) h = Ok (Distinct this' rhs) h'
     /\ wf h' this'
     /\ SimpleVector.size_ this' = SimpleVector.size_ rhs
     /\ SimpleVector.capacity_ this' = SimpleVector.size_ rhs
     /\ elements h' this' = elements h rhs
     /\ wf h' rhs
     /\ elements h' rhs = elements h rhs
     /\ rest h' (SimpleVector.data_ this') = rest h (SimpleVector.data_ this))
  /\ SimpleVector.copy_assign (Same this) h = Ok (Same this) h.
Proof.
  intros Hthis Hrhs Hsep. split; [|reflexivity].
  destruct (copy_ctor_spec h rhs Hrhs)
    as (cp & h1 & Hrun & Hsize & Hcap & Hwfcp & Hels & Hkeep).
  pose proof (copy_assign_frames h (Distinct this rhs) h eq_refl) as Hfr.
  cbn [SimpleVector.copy_assign] in *. rewrite (bind_Ok _ _ _ _ _ Hrun) in *. cbv beta in *.
  apply wf_owns in Hthis as (A & HoA & _).
  destruct this as [size capacity data], cp as [size' capacity' [raw']].
  cbn [SimpleVector.swap ArrayPtr.swap this_of other_of] in *. fields.
  unfold SimpleVector.dtor, ArrayPtr.dtor in *. fields.
  set (this' := {| SimpleVector.size_ := size'; SimpleVector.capacity_ := capacity';
                   SimpleVector.data_ := {| ArrayPtr.raw_ptr_ := raw' |} |}) in *.
  assert (Hdel : exists h', delete_array (ArrayPtr.raw_ptr_ data) h1 = Ok tt h'
                   /\ forall b arr, block_of data <> Some b -> h1 !! b = Some arr ->
                        h' !! b = Some arr).
  { destruct HoA as [|b A Hb].
    - exists h1. split; [reflexivity | auto].
    - exists (delete b h1). split; [apply (delete_array_Ptr h1 b A), Hkeep, Hb|].
      intros b0 arr Hne Hb0. rewrite lookup_delete_ne; [exact Hb0|].
      intros ->. now apply Hne. }
  destruct Hdel as (h' & Hdel & Hkeep').
  rewrite (bind_Ok _ _ _ _ _ Hdel) in *. cbv beta in *. cbn [ret] in *.
  destruct (kept_vector h1 h' this' Hwfcp) as (Hwf' & Hels' & _).
  { intros b arr Hb Harr. apply Hkeep'; [|exact Harr]. fields.
    intros Hold. apply wf_owns in Hwfcp as (D & HoD & _). fields.
    assert (Hin : exists arr0, h !! b = Some arr0).
    { destruct HoA as [|b0 A Hb0]; [discriminate|]. inversion Hold; subst. eauto. }
    destruct Hin as (arr0 & Harr0). exact (proj2 (Hkeep b arr0 Harr0) Hb). }
  destruct (kept_vector h h' rhs Hrhs) as (Hwfr & Helsr & _).
  { intros b arr Hb Harr. apply Hkeep'; [|exact (proj1 (Hkeep b arr Harr))].
    intros Hold. unfold blocks in Hsep. rewrite Hb, Hold in Hsep.
    apply (proj1 (elem_of_disjoint _ _) Hsep b); apply elem_of_singleton; reflexivity. }
  exists this', h'.
  split; [reflexivity|]. split; [exact Hwf'|]. split; [exact Hsize|].
  split; [exact Hcap|]. split; [now rewrite Hels', Hels|].
  split; [exact Hwfr|]. split; [exact Helsr | exact Hfr].
Qed.

(** X21. Move-assignment takes the buffer of the source and forgets the
    buffer that the assigned vector had: afterwards neither object
    refers to that array, and after both are destroyed it is still
    allocated. *)
Theorem move_assign_leaves_the_old_buffer_allocated h this other b arr :
  SimpleVector.data_ this = {| ArrayPtr.raw_ptr_ := Ptr b 0 |} ->
  h !! b = Some arr ->
  wf h other ->
  block_of (SimpleVector.data_ other) <> Some b ->
  block_of (SimpleVector.data_
              (this_of (SimpleVector.move_assign (Distinct this other)))) <> Some b
  /\ block_of (SimpleVector.data_
                 (other_of (SimpleVector.move_assign (Distinct this other)))) = None
  /\ exists h',
       (SimpleVector.dtor (this_of (SimpleVector.move_assign (Distinct this other))) ;;
        SimpleVector.dtor (other_of (SimpleVector.move_assign (Distinct this other)))) h
       = Ok tt h'
       /\ h' !! b = Some arr.
Proof.
  intros Hdata Hb Hother Hsep.
  apply wf_owns in Hother as (B & HoB & _).
  destruct this as [size capacity data], other as [size' capacity' data']. fields. subst data.
  cbn [SimpleVector.move_assign ArrayPtr.move_assign this_of other_of]. fields.
  unfold SimpleVector.dtor, ArrayPtr.dtor. fields.
  split; [destruct data'; exact Hsep|]. split; [reflexivity|].
  destruct HoB as [|b' B Hb']; fields.
  - exists h. split; [reflexivity | exact Hb].
  - exists (delete b' h). split.
    + step (delete_array_Ptr h b' B Hb'). reflexivity.
    + rewrite lookup_delete_ne; [exact Hb|]. intros ->. now apply Hsep.
Qed.

End Assignment.

(** ** Construction and iteration *)

Section Construction.
Context {T : Type} `{Element T} `{Allocator}.
Implicit Types (h t : heap T) (arr A B : list T) (b : block) (v this rhs other : SimpleVector.t).

(** X22. Construction from an initializer list that the allocator
    grants: the vector is well-formed, its size and its capacity are
    the length of the list, its elements are the values of the list in
    order, and its buffer is all that the free store gained. *)
Theorem of_list_builds_the_list h init :
  Z.of_nat (length init) <= max_len ->
  exists v h',
    SimpleVector.of_list init h = Ok v h'
    /\ wf h' v
    /\ SimpleVector.GetSize v = Z.of_nat (length init)
    /\ SimpleVector.GetCapacity v = Z.of_nat (length init)
    /\ elements h' v = init
    /\ rest h' (SimpleVector.data_ v) = h.
Proof.
  intros Hfit.
  destruct (of_list_spec h init Hfit) as (v & h' & Hrun & Hsize & Hcap & Hwf & Hels).
  exists v, h'. split; [exact Hrun|]. split; [exact Hwf|]. split; [exact Hsize|].
  split; [exact Hcap|]. split; [exact Hels|].
  pose proof (of_list_frames h init h eq_refl) as Hfr. rewrite Hrun in Hfr. exact Hfr.
Qed.

(** X23. Construction of [size] copies of a value, and of [size]
    value-initialised elements, when the allocator grants the size:
    the vector is well-formed with that size and capacity, every
    element is the value, and its buffer is all that the free store
    gained. *)
Theorem of_size_value_builds_copies h size value :
  0 <= size <= max_len ->
  (exists v h',
     SimpleVector.of_size_value size value h = Ok v h'
     /\ wf h' v
     /\ SimpleVector.GetSize v = size
     /\ SimpleVector.GetCapacity v = size
     /\ elements h' v = replicate (Z.to_nat size) value
     /\ rest h' (SimpleVector.data_ v) = h)
  /\ (exists v h',
        SimpleVector.of_size size h = Ok v h'
        /\ wf h' v
        /\ SimpleVector.GetSize v = size
        /\ SimpleVector.GetCapacity v = size
        /\ elements h' v = replicate (Z.to_nat size) value_init
        /\ rest h' (SimpleVector.data_ v) = h).
Proof.
  intros Hsize.
  assert (Hboth : forall x, exists v h',
            SimpleVector.of_size_value size x h = Ok v h'
            /\ wf h' v
            /\ SimpleVector.GetSize v = size
            /\ SimpleVector.GetCapacity v = size
            /\ elements h' v = replicate (Z.to_nat size) x
            /\ rest h' (SimpleVector.data_ v) = h).
  { intros x.
    destruct (of_size_value_spec h size x Hsize) as (v & h' & Hrun & Hs & Hc & Hwf & Hels).
    exists v, h'. split; [exact Hrun|]. split; [exact Hwf|]. split; [exact Hs|].
    split; [exact Hc|]. split; [exact Hels|].
    pose proof (of_size_value_frames h size x h eq_refl) as Hfr.
    rewrite Hrun in Hfr. exact Hfr. }
  split; [apply Hboth|]. apply (Hboth value_init).
Qed.

(** X24. A constructor that asks for more elements than the allocator
    grants throws [std::bad_alloc] and leaves the free store as it
    was: [SimpleVector(size)], [SimpleVector(size, value)] and the
    constructor from an initializer list. *)
Theorem constructors_throw_when_refused h size value :
  max_len < size -> 0 < size ->
  SimpleVector.of_size_value size value h = Throw bad_alloc h
  /\ SimpleVector.of_size size h = Throw bad_alloc h
  /\ (forall init : list T,
        Z.of_nat (length init) = size ->
        SimpleVector.of_list init h = Throw bad_alloc h).
Proof.
  intros Hbig Hpos.
  assert (Hthrow : ArrayPtr.of_size size h = Throw bad_alloc h)
    by (apply of_size_throw; lia).
  split; [|split].
  - unfold SimpleVector.of_size_value. now apply bind_Throw.
  - unfold SimpleVector.of_size. now apply bind_Throw.
  - intros init Hlen. unfold SimpleVector.of_list. rewrite Hlen. now apply bind_Throw.
Qed.

(** X25. An [ArrayPtr] of a size that the allocator grants owns an
    array of that many default-initialised cells, or nothing for size
    0; its destructor gives the free store back as it was.  After
    [Release] the object owns nothing, its destructor does nothing,
    and the array is freed through the pointer that [Release]
    returned. *)
Theorem ArrayPtr_owns_until_released h size :
  0 <= size <= max_len ->
  exists a h',
    ArrayPtr.of_size size h = Ok a h'
    /\ ArrayPtr.to_bool a = negb (size =? 0)
    /\ extent h' a = Some size
    /\ buffer h' a = replicate (Z.to_nat size) default_init
    /\ ArrayPtr.dtor a h' = Ok tt h
    /\ fst (ArrayPtr.Release a) = ArrayPtr.Get a
    /\ ArrayPtr.to_bool (snd (ArrayPtr.Release a)) = false
    /\ ArrayPtr.dtor (snd (ArrayPtr.Release a)) h' = Ok tt h'
    /\ delete_array (fst (ArrayPtr.Release a)) h' = Ok tt h.
Proof.
  intros Hsize. destruct (Z.eq_dec size 0) as [->|Hnz].
  - exists ArrayPtr.default, h. repeat split; reflexivity.
  - eexists _, _. split; [apply of_size_ok; lia|].
    set (b := fresh (dom h)). set (D := replicate (Z.to_nat size) default_init).
    assert (Hb : (<[b := D]> h : heap T) !! b = Some D) by apply lookup_insert_eq.
    assert (Hfree : delete_array (Ptr b 0) (<[b := D]> h) = Ok tt h).
    { rewrite (delete_array_Ptr _ b D Hb). f_equal.
      apply delete_insert_id. apply fresh_block_free. }
    split; [cbn; now destruct (Z.eqb_spec size 0)|].
    split; [unfold extent; cbn; rewrite Hb; cbn; unfold D; rewrite length_replicate;
            f_equal; lia|].
    split; [unfold buffer; cbn; now rewrite Hb|].
    split; [exact Hfree|]. split; [reflexivity|]. split; [reflexivity|].
    split; [reflexivity | exact Hfree].
Qed.

(** X26. Iteration over a well-formed vector: [end()] is [size]
    elements after [begin()], the size is the number of the elements
    and [IsEmpty] holds exactly when there are none, and the iterators
    from [begin()] up to [end()] read the elements in order, as
    [operator[]] does. *)
Theorem iteration_visits_the_elements h v :
  wf h v ->
  (exists last,
     SimpleVector.end_ v h = Ok last h
     /\ SimpleVector.cend v h = Ok last h
     /\ ptr_diff last (SimpleVector.begin_ v) h = Ok (SimpleVector.GetSize v) h)
  /\ SimpleVector.GetSize v = Z.of_nat (length (elements h v))
  /\ (SimpleVector.IsEmpty v = true <-> elements h v = [])
  /\ forall i : nat, (i < length (elements h v))%nat ->
       exists p x,
         ptr_add (SimpleVector.begin_ v) (Z.of_nat i) h = Ok p h
         /\ SimpleVector.index (Z.of_nat i) v h = Ok p h
         /\ load p h = Ok x h
         /\ elements h v !! i = Some x.
Proof.
  intros Hwf. pose proof (elements_length h v Hwf) as Hlen.
  pose proof Hwf as [[_ Hsz] _]. split; [|split; [|split]].
  - pose proof Hwf as Hw. apply wf_owns in Hw as (arr & Ho & Hla & _).
    destruct (owns_ptr_add h (SimpleVector.data_ v) arr (SimpleVector.size_ v) Ho
                ltac:(lia)) as (last & Hlast & Hdiff).
    exists last. split; [exact Hlast|]. split; [exact Hlast | exact Hdiff].
  - unfold SimpleVector.GetSize. lia.
  - unfold SimpleVector.IsEmpty. rewrite Z.eqb_eq. split.
    + intros Hz. apply length_zero_iff_nil. lia.
    + intros Hnil. rewrite Hnil in Hlen. cbn in Hlen. lia.
  - intros i Hi.
    destruct (index_element h v (Z.of_nat i) Hwf ltac:(lia)) as (p & x & Hidx & Hload & Hx).
    exists p, x. split; [now destruct (index_is_iterator h v _ p h Hidx)|].
    split; [exact Hidx|]. split; [exact Hload|]. now rewrite Nat2Z.id in Hx.
Qed.

End Construction.

(** ** Vectors of integers *)

Section Examples.
#[local] Existing Instances Z_Element Z_Allocator.

Ltac compute_wf := vm_compute; repeat split; (reflexivity || discriminate).

Example of_list_123 : SimpleVector.of_list [1; 2; 3] ∅ = Ok vec_123 heap_123.
Proof. vm_compute. reflexivity. Qed.

Example of_list_1 : SimpleVector.of_list [1] ∅ = Ok vec_1 heap_1.
Proof. vm_compute. reflexivity. Qed.

Example of_list_12_123 :
  (lhs <- SimpleVector.of_list [1; 2] ;;
   rhs <- SimpleVector.of_list [1; 2; 3] ;;
   ret (lhs, rhs)) ∅
  = Ok (vec_12, vec_123') heap_12_123.
Proof. vm_compute. reflexivity. Qed.

(** The example of the specification: [{1, 2, 3}], [PushBack(4)],
    [Erase(begin() + 1)], [Insert(begin(), 0)]. *)
Example push_erase_insert :
  exists v h,
    (v <- SimpleVector.PushBack (Elsewhere 4) vec_123 ;;
     pos <- ptr_add (SimpleVector.begin_ v) 1 ;;
     r <- SimpleVector.Erase pos (v : SimpleVector.t) ;;
     r <- SimpleVector.Insert (SimpleVector.begin_ (snd r)) (Elsewhere 0) (snd r) ;;
     ret (snd r)) heap_123 = Ok v h
    /\ SimpleVector.size_ v = 4
    /\ elements h v = [0; 1; 3; 4].
Proof.
  eexists _, _. split; [vm_compute; reflexivity|]. split; reflexivity.
Qed.

(** C2, the failing input.  [lhs{1, 2} == rhs{1, 2, 3}] is [true]:
    [operator==] hands [std::equal] the range of [lhs] and the start of
    [rhs] and never compares the sizes, so a vector equals every vector
    that it is a prefix of, where the specification asks for equal
    sizes. *)
Theorem operator_eq_accepts_a_proper_prefix :
  SimpleVector.size_ vec_12 = 2
  /\ SimpleVector.size_ vec_123' = 3
  /\ elements heap_12_123 vec_12 = [1; 2]
  /\ elements heap_12_123 vec_123' = [1; 2; 3]
  /\ SimpleVector.operator_eq vec_12 vec_123' heap_12_123 = Ok true heap_12_123
  /\ SimpleVector.operator_ne vec_12 vec_123' heap_12_123 = Ok false heap_12_123.
Proof. repeat split; vm_compute; reflexivity. Qed.

(** C3 as stated fails: on [{1}], whose size and capacity are 1,
    [Reserve(1)] leaves the capacity at 1 and the one [PushBack] that
    follows reallocates to capacity 2. *)
Lemma Reserve_then_PushBack_reallocates :
  wf heap_1 vec_1
  /\ exists v1 h1 v2 h2,
       SimpleVector.Reserve 1 vec_1 heap_1 = Ok v1 h1
       /\ SimpleVector.capacity_ v1 = 1
       /\ push_all [7] v1 h1 = Ok v2 h2
       /\ SimpleVector.capacity_ v2 = 2
       /\ SimpleVector.capacity_ v2 <> SimpleVector.capacity_ v1
       /\ SimpleVector.data_ v2 <> SimpleVector.data_ v1.
Proof.
  split; [compute_wf|].
  eexists _, _, _, _. split; [vm_compute; reflexivity|]. split; [reflexivity|].
  split; [vm_compute; reflexivity|]. split; [reflexivity|]. split; discriminate.
Qed.

Lemma Reserve_then_PushBacks_keep_capacity_witness :
  wf (∅ : heap Z) SimpleVector.default
  /\ SimpleVector.size_ SimpleVector.default + Z.of_nat (length [4; 5; 6])
     <= Z.max (SimpleVector.capacity_ SimpleVector.default) (Z.of_nat (length [4; 5; 6]))
  /\ Z.of_nat (length [4; 5; 6]) <= max_len
  /\ exists v1 h1,
       SimpleVector.Reserve 3 SimpleVector.default (∅ : heap Z) = Ok v1 h1
       /\ SimpleVector.capacity_ v1 = 3
       /\ forall j : nat, (j <= 3)%nat ->
            exists vj hj,
              push_all (take j [4; 5; 6]) v1 h1 = Ok vj hj
              /\ SimpleVector.capacity_ vj = SimpleVector.capacity_ v1
              /\ SimpleVector.data_ vj = SimpleVector.data_ v1
              /\ elements hj vj = take j [4; 5; 6].
Proof.
  assert (Hwf : wf (∅ : heap Z) SimpleVector.default) by compute_wf.
  assert (Hroom : SimpleVector.size_ SimpleVector.default + Z.of_nat (length [4; 5; 6])
                  <= Z.max (SimpleVector.capacity_ SimpleVector.default)
                       (Z.of_nat (length [4; 5; 6]))) by (vm_compute; discriminate).
  assert (Hfit : Z.of_nat (length [4; 5; 6]) <= max_len) by (vm_compute; discriminate).
  split; [exact Hwf|]. split; [exact Hroom|]. split; [exact Hfit|].
  destruct (Reserve_then_PushBacks_keep_capacity ∅ SimpleVector.default [4; 5; 6]
              Hwf Hroom (fun _ => Hfit))
    as (v1 & h1 & Hrun & _ & Hcap & _ & _ & Hpush).
  exists v1, h1. split; [exact Hrun|]. split; [exact Hcap|].
  intros j Hj. destruct (Hpush j Hj) as (vj & hj & Hp & Hc & Hd & _ & He).
  exists vj, hj. auto.
Defined.


Lemma At_checks_the_index_witness :
  wf heap_123 vec_123
  /\ 0 <= 1
  /\ (exists p x,
        SimpleVector.At 1 vec_123 heap_123 = Ok p heap_123
        /\ SimpleVector.index 1 vec_123 heap_123 = Ok p heap_123
        /\ load p heap_123 = Ok x heap_123
        /\ elements heap_123 vec_123 !! Z.to_nat 1 = Some x)
  /\ SimpleVector.At 3 vec_123 heap_123 = Throw out_of_range heap_123.
Proof.
  assert (Hwf : wf heap_123 vec_123) by compute_wf.
  split; [exact Hwf|]. split; [discriminate|]. split.
  - destruct (At_checks_the_index heap_123 vec_123 1 Hwf) as (_ & _ & Hin); [discriminate|].
    apply Hin. reflexivity.
  - destruct (At_checks_the_index heap_123 vec_123 3 Hwf) as (_ & Hout & _); [discriminate|].
    apply Hout. vm_compute. discriminate.
Defined.

(** C7 as stated fails: move-assigning [{1, 2, 3}] to itself leaves
    the source, which is the destination, with size 3 and capacity 3. *)
Lemma self_move_assign_keeps_the_source :
  SimpleVector.move_assign (Same vec_123) = Same vec_123
  /\ SimpleVector.size_ (other_of (SimpleVector.move_assign (Same vec_123))) = 3
  /\ SimpleVector.capacity_ (other_of (SimpleVector.move_assign (Same vec_123))) = 3
  /\ SimpleVector.size_ (other_of (SimpleVector.move_assign (Same vec_123))) <> 0
  /\ elements heap_123 (other_of (SimpleVector.move_assign (Same vec_123))) = [1; 2; 3].
Proof. repeat split. discriminate. Qed.

Lemma copy_ctor_gives_an_independent_copy_witness :
  wf heap_123 vec_123
  /\ exists cp h',
       SimpleVector.copy_ctor vec_123 heap_123 = Ok cp h'
       /\ SimpleVector.capacity_ cp = 3
       /\ elements h' cp = [1; 2; 3]
       /\ match mutate_all [MPushBack 4; MErase 0; MAssign 0 7; MResize 9] cp h' with
          | Ok cp' h'' =>
              wf h'' cp' /\ wf h'' vec_123
              /\ elements h'' vec_123 = elements heap_123 vec_123
          | Throw _ h'' =>
              wf h'' vec_123 /\ elements h'' vec_123 = elements heap_123 vec_123
          | UB => True
          end.
Proof.
  assert (Hwf : wf heap_123 vec_123) by compute_wf.
  split; [exact Hwf|].
  destruct (copy_ctor_gives_an_independent_copy heap_123 vec_123 Hwf)
    as (cp & h' & Hrun & _ & Hcap & Hels & _ & _ & _ & _ & Hmut).
  exists cp, h'. split; [exact Hrun|]. split; [exact Hcap|]. split; [exact Hels|].
  assert (Hsize_t : forall z, 0 <= z < 10 -> is_size_t z).
  { intros z Hz. unfold is_size_t. rewrite size_t_modulus_eq. lia. }
  assert (Hms : Forall (well_typed (T := Z))
                  [MPushBack 4; MErase 0; MAssign 0 7; MResize 9]).
  { constructor; [exact I|].
    constructor; [apply Hsize_t; lia|].
    constructor; [apply Hsize_t; lia|].
    constructor; [apply Hsize_t; lia|].
    constructor. }
  exact (Hmut _ Hms).
Defined.

(** The calls of the witness above do return. *)
Example mutations_of_the_copy_return :
  exists cp h' cp' h'',
    SimpleVector.copy_ctor vec_123 heap_123 = Ok cp h'
    /\ mutate_all [MPushBack 4; MErase 0; MAssign 0 7; MResize 9] cp h' = Ok cp' h''
    /\ elements h'' cp' = [7; 3; 4; 0; 0; 0; 0; 0; 0]
    /\ elements h'' vec_123 = [1; 2; 3].
Proof.
  eexists _, _, _, _. split; [vm_compute; reflexivity|].
  split; [vm_compute; reflexivity|]. split; reflexivity.
Qed.

Lemma PopBack_and_Erase_keep_the_rest_witness :
  wf heap_123 vec_123
  /\ 0 <= 1 < SimpleVector.size_ vec_123
  /\ (exists v',
        SimpleVector.PopBack vec_123 heap_123 = Ok v' heap_123
        /\ SimpleVector.capacity_ v' = 3
        /\ forall j : nat, Z.of_nat j <= 1 ->
             elements heap_123 v' !! j = elements heap_123 vec_123 !! j)
  /\ (exists pos v' h',
        SimpleVector.Erase pos vec_123 heap_123 = Ok (pos, v') h'
        /\ SimpleVector.capacity_ v' = 3
        /\ forall j : nat, Z.of_nat j < 1 ->
             elements h' v' !! j = elements heap_123 vec_123 !! j).
Proof.
  assert (Hwf : wf heap_123 vec_123) by compute_wf.
  assert (Hp : 0 <= 1 < SimpleVector.size_ vec_123) by (vm_compute; split; [discriminate|reflexivity]).
  split; [exact Hwf|]. split; [exact Hp|].
  destruct (PopBack_and_Erase_keep_the_rest heap_123 vec_123 1 Hwf Hp)
    as [(v' & Hpop & Hcap & _ & _ & Hkeep) (pos & w' & h' & _ & Her & Hcap' & _ & _ & _ & Hkeep')].
  split.
  - exists v'. auto.
  - exists pos, w', h'. auto.
Defined.

End Examples.

(** ** Vectors of elements that a move empties *)

Section Emptied.
#[local] Existing Instances Z_emptied Z_Allocator.


End Emptied.

(** ** More runs on vectors of integers *)

Section Runs.
#[local] Existing Instances Z_Element Z_Allocator Z_Ordered.

Ltac compute_wf := vm_compute; repeat split; (reflexivity || discriminate).

Lemma small_is_size_t (z : Z) : 0 <= z < 100 -> is_size_t z.
Proof. intros Hz. unfold is_size_t. rewrite size_t_modulus_eq. lia. Qed.

Lemma call_refines_its_list_operation_witness :
  wf heap_123 vec_123
  /\ well_typed (MInsert false 1 9)
  /\ exists v' h',
       mutate (MInsert false 1 9) vec_123 heap_123 = Ok v' h'
       /\ wf h' v'
       /\ elements h' v' = [1; 9; 2; 3]
       /\ SimpleVector.size_ v' = 4
       /\ SimpleVector.capacity_ v' = 6.
Proof.
  assert (Hwf : wf heap_123 vec_123) by compute_wf.
  assert (Hm : well_typed (MInsert false 1 9 : @mutation Z)) by (apply small_is_size_t; lia).
  split; [exact Hwf|]. split; [exact Hm|].
  destruct (mutate (MInsert false 1 9) vec_123 heap_123) as [v' h'|e h'|] eqn:Hrun;
    [|vm_compute in Hrun; discriminate ..].
  exists v', h'. split; [reflexivity|].
  exact (call_refines_its_list_operation heap_123 vec_123 (MInsert false 1 9) v' h'
           Hwf Hm Hrun).
Defined.

Lemma calls_well_typed : Forall well_typed calls.
Proof.
  repeat (constructor; [first [exact I | apply small_is_size_t; lia]|]). constructor.
Qed.

Lemma calls_keep_the_invariant_witness :
  wf heap_123 vec_123
  /\ Forall well_typed calls
  /\ exists v' h',
       mutate_all calls vec_123 heap_123 = Ok v' h'
       /\ wf h' v'
       /\ elements h' v' = [1]
       /\ SimpleVector.size_ v' <= SimpleVector.capacity_ v'
       /\ 3 <= SimpleVector.capacity_ v'.
Proof.
  assert (Hwf : wf heap_123 vec_123) by compute_wf.
  split; [exact Hwf|]. split; [exact calls_well_typed|].
  destruct (mutate_all calls vec_123 heap_123) as [v' h'|e h'|] eqn:Hrun;
    [|vm_compute in Hrun; discriminate ..].
  exists v', h'. split; [reflexivity|].
  exact (calls_keep_the_invariant heap_123 vec_123 calls v' h' Hwf calls_well_typed Hrun).
Defined.

Lemma calls_keep_the_rest_of_the_free_store_witness :
  exists v' h',
    mutate_all calls vec_12 heap_12_123 = Ok v' h'
    /\ rest h' (SimpleVector.data_ v') = rest heap_12_123 (SimpleVector.data_ vec_12).
Proof.
  destruct (mutate_all calls vec_12 heap_12_123) as [v' h'|e h'|] eqn:Hrun;
    [|vm_compute in Hrun; discriminate ..].
  exists v', h'. split; [reflexivity|].
  exact (calls_keep_the_rest_of_the_free_store calls vec_12 heap_12_123 v' h' Hrun).
Defined.

Lemma lifetime_restores_the_free_store_witness :
  exists h',
    (v <- SimpleVector.of_list [1; 2; 3] ;;
     v' <- mutate_all calls v ;;
     SimpleVector.dtor v') heap_12_123 = Ok tt h'
    /\ h' = heap_12_123.
Proof.
  destruct ((v <- SimpleVector.of_list [1; 2; 3] ;;
             v' <- mutate_all calls v ;;
             SimpleVector.dtor v') heap_12_123) as [[] h'|e h'|] eqn:Hrun;
    [|vm_compute in Hrun; discriminate ..].
  exists h'. split; [reflexivity|].
  exact (lifetime_restores_the_free_store [1; 2; 3] calls heap_12_123 h' Hrun).
Defined.

Lemma PushBacks_append_in_order_witness :
  wf heap_123 vec_123
  /\ 2 * (SimpleVector.size_ vec_123 + Z.of_nat (length [4; 5; 6; 7])) <= max_len
  /\ exists v' h',
       push_all [4; 5; 6; 7] vec_123 heap_123 = Ok v' h'
       /\ wf h' v'
       /\ SimpleVector.size_ v' = 7
       /\ elements h' v' = [1; 2; 3; 4; 5; 6; 7]
       /\ 3 <= SimpleVector.capacity_ v'
       /\ SimpleVector.capacity_ v' <= 14.
Proof.
  assert (Hwf : wf heap_123 vec_123) by compute_wf.
  assert (Hfit : 2 * (SimpleVector.size_ vec_123 + Z.of_nat (length [4; 5; 6; 7])) <= max_len)
    by (vm_compute; discriminate).
  split; [exact Hwf|]. split; [exact Hfit|].
  destruct (PushBacks_append_in_order [4; 5; 6; 7] heap_123 vec_123 Hwf Hfit)
    as (v' & h' & Hrun & Hwf' & Hsize & Hels & Hlo & Hhi & _).
  exists v', h'. split; [exact Hrun|]. split; [exact Hwf'|]. split; [exact Hsize|].
  split; [exact Hels|]. split; [exact Hlo | exact Hhi].
Defined.

Lemma Clear_keeps_the_buffer_witness :
  wf heap_123 vec_123
  /\ Z.of_nat (length [7; 8]) <= SimpleVector.capacity_ vec_123
  /\ elements heap_123 (SimpleVector.Clear vec_123) = []
  /\ exists v' h',
       push_all [7; 8] (SimpleVector.Clear vec_123) heap_123 = Ok v' h'
       /\ SimpleVector.data_ v' = SimpleVector.data_ vec_123
       /\ SimpleVector.capacity_ v' = 3
       /\ elements h' v' = [7; 8].
Proof.
  assert (Hwf : wf heap_123 vec_123) by compute_wf.
  assert (Hfit : Z.of_nat (length [7; 8]) <= SimpleVector.capacity_ vec_123)
    by (vm_compute; discriminate).
  split; [exact Hwf|]. split; [exact Hfit|].
  destruct (Clear_keeps_the_buffer [7; 8] heap_123 vec_123 Hwf Hfit)
    as (_ & Hnil & _ & _ & v' & h' & Hrun & Hdata & Hcap & _ & Hels).
  split; [exact Hnil|].
  exists v', h'. split; [exact Hrun|]. split; [exact Hdata|]. split; [exact Hcap | exact Hels].
Defined.

Lemma Resize_below_the_int_range_witness :
  wf heap_123 vec_123
  /\ 0 <= 5
  /\ (Z.max 5 (2 * SimpleVector.capacity_ vec_123) < 2 ^ 31
      /\ Z.max 5 (2 * SimpleVector.capacity_ vec_123) <= max_len)
  /\ exists v' h',
       SimpleVector.Resize 5 vec_123 heap_123 = Ok v' h'
       /\ wf h' v'
       /\ SimpleVector.size_ v' = 5
       /\ SimpleVector.capacity_ v' = 6
       /\ elements h' v' = [1; 2; 3; 0; 0].
Proof.
  assert (Hwf : wf heap_123 vec_123) by compute_wf.
  assert (Hpos : 0 <= 5) by lia.
  assert (Hfit : Z.max 5 (2 * SimpleVector.capacity_ vec_123) < 2 ^ 31
                 /\ Z.max 5 (2 * SimpleVector.capacity_ vec_123) <= max_len)
    by (vm_compute; split; [reflexivity | discriminate]).
  split; [exact Hwf|]. split; [exact Hpos|]. split; [exact Hfit|].
  exact (Resize_below_the_int_range heap_123 vec_123 5 Hwf Hpos (fun _ => Hfit)).
Defined.

Lemma Resize_beyond_the_int_range_never_returns_witness :
  wf heap_123 vec_123
  /\ SimpleVector.capacity_ vec_123 < 2 ^ 31 < size_t_modulus
  /\ 2 ^ 31 <= Z.max (2 ^ 31) (2 * SimpleVector.capacity_ vec_123)
  /\ forall v' h', SimpleVector.Resize (2 ^ 31) vec_123 heap_123 <> Ok v' h'.
Proof.
  assert (Hwf : wf heap_123 vec_123) by compute_wf.
  assert (Hnew : SimpleVector.capacity_ vec_123 < 2 ^ 31 < size_t_modulus)
    by (vm_compute; split; reflexivity).
  assert (Hbig : 2 ^ 31 <= Z.max (2 ^ 31) (2 * SimpleVector.capacity_ vec_123))
    by (vm_compute; discriminate).
  split; [exact Hwf|]. split; [exact Hnew|]. split; [exact Hbig|].
  exact (proj2 (Resize_beyond_the_int_range_never_returns heap_123 vec_123 (2 ^ 31)
                  Hwf Hnew Hbig)).
Defined.

Lemma Reserve_keeps_the_elements_witness :
  wf heap_123 vec_123
  /\ SimpleVector.Reserve 2 vec_123 heap_123 = Ok vec_123 heap_123
  /\ (exists b' h',
        let v' := {| SimpleVector.size_ := 3; SimpleVector.capacity_ := 8;
                     SimpleVector.data_ := {| ArrayPtr.raw_ptr_ := Ptr b' 0 |} |} in
        SimpleVector.Reserve 8 vec_123 heap_123 = Ok v' h'
        /\ wf h' v'
        /\ elements h' v' = [1; 2; 3]
        /\ heap_123 !! b' = None
        /\ delete b' h' = rest heap_123 (SimpleVector.data_ vec_123))
  /\ SimpleVector.Reserve (2 ^ 41) vec_123 heap_123 = Throw bad_alloc heap_123.
Proof.
  assert (Hwf : wf heap_123 vec_123) by compute_wf.
  split; [exact Hwf|].
  destruct (Reserve_keeps_the_elements heap_123 vec_123 2 Hwf) as (Hin & _ & _).
  destruct (Reserve_keeps_the_elements heap_123 vec_123 8 Hwf) as (_ & Hgrow & _).
  destruct (Reserve_keeps_the_elements heap_123 vec_123 (2 ^ 41) Hwf) as (_ & _ & Hthrow).
  split; [apply Hin; vm_compute; discriminate|].
  split; [apply Hgrow; vm_compute; split; [reflexivity | discriminate]|].
  apply Hthrow; vm_compute; reflexivity.
Defined.

Lemma Insert_places_the_value_witness :
  wf heap_12_123 vec_12'
  /\ 0 <= 0 <= SimpleVector.size_ vec_12'
  /\ grown (SimpleVector.capacity_ vec_12') <= max_len
  /\ referent heap_12_123 (Cell (Ptr 2%positive 1)) = Some 2
  /\ Insert_argument false heap_12_123 vec_12' 0 (Cell (Ptr 2%positive 1)) = Some 1
  /\ exists pos res v' h',
       ptr_add (SimpleVector.begin_ vec_12') 0 heap_12_123 = Ok pos heap_12_123
       /\ SimpleVector.Insert pos (Cell (Ptr 2%positive 1)) vec_12' heap_12_123
          = Ok (res, v') h'
       /\ wf h' v'
       /\ SimpleVector.size_ v' = 3
       /\ SimpleVector.capacity_ v' = 3
       /\ elements h' v' = [1; 1; 2]
       /\ load res h' = Ok 1 h'.
Proof.
  assert (Hwf : wf heap_12_123 vec_12') by compute_wf.
  assert (Hp : 0 <= 0 <= SimpleVector.size_ vec_12') by (vm_compute; split; discriminate).
  assert (Hfit : grown (SimpleVector.capacity_ vec_12') <= max_len)
    by (vm_compute; discriminate).
  assert (Hval : Insert_argument false heap_12_123 vec_12' 0 (Cell (Ptr 2%positive 1)) = Some 1)
    by reflexivity.
  split; [exact Hwf|]. split; [exact Hp|]. split; [exact Hfit|]. split; [reflexivity|].
  split; [exact Hval|].
  destruct (Insert_places_the_value false heap_12_123 vec_12' 0 (Cell (Ptr 2%positive 1)) 1
              Hwf Hp (fun _ => Hfit) Hval)
    as (pos & res & v' & h' & Hpos & Hrun & Hwf' & Hsize & Hcap & Hels & _ & Hload).
  exists pos, res, v', h'. split; [exact Hpos|]. split; [exact Hrun|]. split; [exact Hwf'|].
  split; [exact Hsize|]. split; [exact Hcap|]. split; [exact Hels | exact Hload].
Defined.

Lemma Erase_closes_the_gap_witness :
  wf heap_123 vec_123
  /\ 0 <= 1 < SimpleVector.size_ vec_123
  /\ exists pos v' h',
       ptr_add (SimpleVector.begin_ vec_123) 1 heap_123 = Ok pos heap_123
       /\ SimpleVector.Erase pos vec_123 heap_123 = Ok (pos, v') h'
       /\ SimpleVector.size_ v' = 2
       /\ SimpleVector.capacity_ v' = 3
       /\ elements h' v' = [1; 3].
Proof.
  assert (Hwf : wf heap_123 vec_123) by compute_wf.
  assert (Hp : 0 <= 1 < SimpleVector.size_ vec_123)
    by (vm_compute; split; [discriminate | reflexivity]).
  split; [exact Hwf|]. split; [exact Hp|].
  destruct (Erase_closes_the_gap heap_123 vec_123 1 Hwf Hp)
    as (pos & v' & h' & Hpos & Hrun & _ & Hsize & Hcap & _ & Hels & _).
  exists pos, v', h'. split; [exact Hpos|]. split; [exact Hrun|]. split; [exact Hsize|].
  split; [exact Hcap | exact Hels].
Defined.

Lemma PushBack_then_PopBack_restores_witness :
  wf heap_12_123 vec_12'
  /\ grown (SimpleVector.capacity_ vec_12') <= max_len
  /\ referent heap_12_123 (Cell (Ptr 2%positive 0)) = Some 1
  /\ (SimpleVector.size_ vec_12' = SimpleVector.capacity_ vec_12' ->
      ~ own_element (T:=Z) vec_12' (Cell (Ptr 2%positive 0)))
  /\ exists v1 h1 v2,
       SimpleVector.PushBack (Cell (Ptr 2%positive 0)) vec_12' heap_12_123 = Ok v1 h1
       /\ elements h1 v1 = [1; 2; 1]
       /\ SimpleVector.PopBack v1 h1 = Ok v2 h1
       /\ SimpleVector.size_ v2 = 2
       /\ elements h1 v2 = [1; 2].
Proof.
  assert (Hwf : wf heap_12_123 vec_12') by compute_wf.
  assert (Hfit : grown (SimpleVector.capacity_ vec_12') <= max_len)
    by (vm_compute; discriminate).
  assert (Hx : referent heap_12_123 (Cell (Ptr 2%positive 0)) = Some 1) by reflexivity.
  assert (Hother : SimpleVector.size_ vec_12' = SimpleVector.capacity_ vec_12' ->
                   ~ own_element (T:=Z) vec_12' (Cell (Ptr 2%positive 0)))
    by (intros Hfull; vm_compute in Hfull; discriminate).
  split; [exact Hwf|]. split; [exact Hfit|]. split; [exact Hx|]. split; [exact Hother|].
  destruct (PushBack_then_PopBack_restores heap_12_123 vec_12' (Cell (Ptr 2%positive 0)) 1
              Hwf (fun _ => Hfit) Hx Hother)
    as (v1 & h1 & v2 & Hrun1 & Hels1 & Hrun2 & _ & Hsize & _ & _ & Hels).
  exists v1, h1, v2. split; [exact Hrun1|]. split; [exact Hels1|]. split; [exact Hrun2|].
  split; [exact Hsize | exact Hels].
Defined.

Lemma Insert_at_end_is_PushBack_witness :
  wf heap_12_123 vec_12
  /\ wf heap_12_123 vec_123'
  /\ grown (SimpleVector.capacity_ vec_12) <= max_len
  /\ grown (SimpleVector.capacity_ vec_123') <= max_len
  /\ referent heap_12_123 (Cell (Ptr 2%positive 0)) = Some 1
  /\ ~ own_element (T:=Z) vec_12 (Cell (Ptr 2%positive 0))
  /\ SimpleVector.size_ vec_123' = SimpleVector.capacity_ vec_123'
  /\ own_element (T:=Z) vec_123' (Cell (Ptr 2%positive 0))
  /\ (exists last res v1 h1 v2 h2,
        SimpleVector.end_ vec_12 heap_12_123 = Ok last heap_12_123
        /\ SimpleVector.Insert last (Cell (Ptr 2%positive 0)) vec_12 heap_12_123
           = Ok (res, v1) h1
        /\ elements h1 v1 = [1; 2; 1]
        /\ SimpleVector.PushBack (Cell (Ptr 2%positive 0)) vec_12 heap_12_123 = Ok v2 h2
        /\ elements h2 v2 = [1; 2; 1]
        /\ SimpleVector.capacity_ v1 = SimpleVector.capacity_ v2)
  /\ (exists last res v1 h1,
        SimpleVector.end_ vec_123' heap_12_123 = Ok last heap_12_123
        /\ SimpleVector.Insert last (Cell (Ptr 2%positive 0)) vec_123' heap_12_123
           = Ok (res, v1) h1
        /\ elements h1 v1 = [1; 2; 3; 1]
        /\ SimpleVector.PushBack (Cell (Ptr 2%positive 0)) vec_123' heap_12_123 = UB).
Proof.
  assert (Hwf : wf heap_12_123 vec_12) by compute_wf.
  assert (Hwf' : wf heap_12_123 vec_123') by compute_wf.
  assert (Hfit : grown (SimpleVector.capacity_ vec_12) <= max_len)
    by (vm_compute; discriminate).
  assert (Hfit' : grown (SimpleVector.capacity_ vec_123') <= max_len)
    by (vm_compute; discriminate).
  assert (Hx : referent heap_12_123 (Cell (Ptr 2%positive 0)) = Some 1) by reflexivity.
  assert (Hother : ~ own_element (T:=Z) vec_12 (Cell (Ptr 2%positive 0))).
  { intros (b & Hb & Hin). vm_compute in Hb, Hin. congruence. }
  assert (Hfull : SimpleVector.size_ vec_123' = SimpleVector.capacity_ vec_123')
    by reflexivity.
  assert (Hown : own_element (T:=Z) vec_123' (Cell (Ptr 2%positive 0))).
  { exists 2%positive. split; reflexivity. }
  split; [exact Hwf|]. split; [exact Hwf'|]. split; [exact Hfit|]. split; [exact Hfit'|].
  split; [exact Hx|]. split; [exact Hother|]. split; [exact Hfull|]. split; [exact Hown|].
  split.
  - destruct (Insert_at_end_is_PushBack heap_12_123 vec_12 (Cell (Ptr 2%positive 0)) 1
                Hwf (fun _ => Hfit) Hx)
      as (last & res & v1 & h1 & Hlast & Hrun1 & Hels1 & Hsame & _).
    destruct (Hsame (fun _ => Hother)) as (v2 & h2 & Hrun2 & Hels2 & _ & Hcap).
    exists last, res, v1, h1, v2, h2. split; [exact Hlast|]. split; [exact Hrun1|].
    split; [exact Hels1|]. split; [exact Hrun2|]. split; [exact Hels2 | exact Hcap].
  - destruct (Insert_at_end_is_PushBack heap_12_123 vec_123' (Cell (Ptr 2%positive 0)) 1
                Hwf' (fun _ => Hfit') Hx)
      as (last & res & v1 & h1 & Hlast & Hrun1 & Hels1 & _ & Hfreed).
    exists last, res, v1, h1. split; [exact Hlast|]. split; [exact Hrun1|].
    split; [exact Hels1|]. exact (Hfreed Hfull Hown).
Defined.

Lemma operator_eq_walks_the_left_operand_witness :
  wf heap_12_123 vec_123'
  /\ wf heap_12_123 vec_12
  /\ SimpleVector.size_ vec_12 <= SimpleVector.size_ vec_123'
  /\ SimpleVector.capacity_ vec_12 < SimpleVector.size_ vec_123'
  /\ (exists r,
        equal_along (elements heap_12_123 vec_12) (elements heap_12_123 vec_123') = Some r
        /\ SimpleVector.operator_eq vec_12 vec_123' heap_12_123 = Ok r heap_12_123
        /\ SimpleVector.operator_ne vec_12 vec_123' heap_12_123 = Ok (negb r) heap_12_123)
  /\ SimpleVector.operator_eq vec_123' vec_12 heap_12_123 = UB
  /\ SimpleVector.operator_ne vec_123' vec_12 heap_12_123 = UB.
Proof.
  assert (Hl : wf heap_12_123 vec_123') by compute_wf.
  assert (Hr : wf heap_12_123 vec_12) by compute_wf.
  assert (Hle : SimpleVector.size_ vec_12 <= SimpleVector.size_ vec_123')
    by (vm_compute; discriminate).
  assert (Hlong : SimpleVector.capacity_ vec_12 < SimpleVector.size_ vec_123')
    by reflexivity.
  split; [exact Hl|]. split; [exact Hr|]. split; [exact Hle|]. split; [exact Hlong|].
  destruct (operator_eq_walks_the_left_operand heap_12_123 vec_12 vec_123' Hr Hl)
    as (Hprefix & _).
  destruct (Hprefix Hle) as (r & Halong & Heq1 & Hne1 & _).
  destruct (operator_eq_walks_the_left_operand heap_12_123 vec_123' vec_12 Hl Hr)
    as (_ & Hbeyond).
  destruct (Hbeyond Hlong) as (Heq2 & Hne2).
  split; [|split; [exact Heq2 | exact Hne2]].
  exists r. split; [exact Halong|]. split; [exact Heq1 | exact Hne1].
Defined.

Lemma operator_eq_decides_equality_at_equal_sizes_witness :
  (forall x y : Z, elem_eqb x y = true <-> x = y)
  /\ wf heap_12_123 vec_12
  /\ wf heap_12_123 vec_12'
  /\ SimpleVector.size_ vec_12 = SimpleVector.size_ vec_12'
  /\ exists r,
       SimpleVector.operator_eq vec_12 vec_12' heap_12_123 = Ok r heap_12_123
       /\ SimpleVector.operator_ne vec_12 vec_12' heap_12_123 = Ok (negb r) heap_12_123
       /\ (r = true <-> elements heap_12_123 vec_12 = elements heap_12_123 vec_12').
Proof.
  assert (Hdec : forall x y : Z, elem_eqb x y = true <-> x = y) by exact Z.eqb_eq.
  assert (Hl : wf heap_12_123 vec_12) by compute_wf.
  assert (Hr : wf heap_12_123 vec_12') by compute_wf.
  assert (Hsize : SimpleVector.size_ vec_12 = SimpleVector.size_ vec_12') by reflexivity.
  split; [exact Hdec|]. split; [exact Hl|]. split; [exact Hr|]. split; [exact Hsize|].
  exact (operator_eq_decides_equality_at_equal_sizes heap_12_123 vec_12 vec_12'
           Hdec Hl Hr Hsize).
Defined.

Lemma ordering_operators_are_lexicographic_witness :
  wf heap_12_123 vec_12
  /\ wf heap_12_123 vec_123'
  /\ SimpleVector.operator_lt vec_12 vec_123' heap_12_123 = Ok true heap_12_123
  /\ SimpleVector.operator_gt vec_12 vec_123' heap_12_123 = Ok false heap_12_123
  /\ SimpleVector.operator_le vec_12 vec_123' heap_12_123 = Ok true heap_12_123
  /\ SimpleVector.operator_ge vec_12 vec_123' heap_12_123 = Ok false heap_12_123.
Proof.
  assert (Hl : wf heap_12_123 vec_12) by compute_wf.
  assert (Hr : wf heap_12_123 vec_123') by compute_wf.
  split; [exact Hl|]. split; [exact Hr|].
  exact (ordering_operators_are_lexicographic heap_12_123 vec_12 vec_123' Hl Hr).
Defined.

Lemma le_and_ge_hold_exactly_for_equal_elements_witness :
  (forall x : Z, elem_ltb x x = false)
  /\ (forall x y : Z, elem_ltb x y = false -> elem_ltb y x = false -> x = y)
  /\ wf heap_12_123 vec_12
  /\ wf heap_12_123 vec_123'
  /\ exists le ge,
       SimpleVector.operator_le vec_12 vec_123' heap_12_123 = Ok le heap_12_123
       /\ SimpleVector.operator_ge vec_12 vec_123' heap_12_123 = Ok ge heap_12_123
       /\ (le = true /\ ge = true
           <-> elements heap_12_123 vec_12 = elements heap_12_123 vec_123').
Proof.
  assert (Hirr : forall x : Z, elem_ltb x x = false) by exact Z.ltb_irrefl.
  assert (Htri : forall x y : Z, elem_ltb x y = false -> elem_ltb y x = false -> x = y).
  { intros x y Hxy Hyx. apply Z.ltb_ge in Hxy, Hyx. lia. }
  assert (Hl : wf heap_12_123 vec_12) by compute_wf.
  assert (Hr : wf heap_12_123 vec_123') by compute_wf.
  split; [exact Hirr|]. split; [exact Htri|]. split; [exact Hl|]. split; [exact Hr|].
  exact (le_and_ge_hold_exactly_for_equal_elements heap_12_123 vec_12 vec_123'
           Hirr Htri Hl Hr).
Defined.

Lemma copy_compares_equal_to_its_source_witness :
  (forall x : Z, elem_eqb x x = true)
  /\ wf heap_123 vec_123
  /\ exists cp h',
       SimpleVector.copy_ctor vec_123 heap_123 = Ok cp h'
       /\ SimpleVector.operator_eq cp vec_123 h' = Ok true h'
       /\ SimpleVector.operator_eq vec_123 cp h' = Ok true h'.
Proof.
  assert (Hrefl : forall x : Z, elem_eqb x x = true) by exact Z.eqb_refl.
  assert (Hwf : wf heap_123 vec_123) by compute_wf.
  split; [exact Hrefl|]. split; [exact Hwf|].
  destruct (copy_compares_equal_to_its_source heap_123 vec_123 Hrefl Hwf)
    as (cp & h' & Hrun & Heq1 & Heq2 & _).
  exists cp, h'. split; [exact Hrun|]. split; [exact Heq1 | exact Heq2].
Defined.

Lemma copy_assign_replaces_the_elements_witness :
  wf heap_12_123 vec_12
  /\ wf heap_12_123 vec_123'
  /\ blocks (SimpleVector.data_ vec_12) ## blocks (SimpleVector.data_ vec_123')
  /\ exists this' h',
       SimpleVector.copy_assign (Distinct vec_12 vec_123') heap_12_123
       = Ok (Distinct this' vec_123') h'
       /\ wf h' this'
       /\ elements h' this' = [1; 2; 3]
       /\ elements h' vec_123' = [1; 2; 3]
       /\ rest h' (SimpleVector.data_ this')
          = rest heap_12_123 (SimpleVector.data_ vec_12).
Proof.
  assert (Hl : wf heap_12_123 vec_12) by compute_wf.
  assert (Hr : wf heap_12_123 vec_123') by compute_wf.
  assert (Hsep : blocks (SimpleVector.data_ vec_12)
                 ## blocks (SimpleVector.data_ vec_123')).
  { change (({[ 1%positive ]} : gset block) ## {[ 2%positive ]}).
    apply elem_of_disjoint. intros x Hx Hy.
    apply elem_of_singleton in Hx. apply elem_of_singleton in Hy. congruence. }
  split; [exact Hl|]. split; [exact Hr|]. split; [exact Hsep|].
  destruct (copy_assign_replaces_the_elements heap_12_123 vec_12 vec_123' Hl Hr Hsep)
    as ((this' & h' & Hrun & Hwf' & _ & _ & Hels & _ & Helsr & Hrest) & _).
  exists this', h'. split; [exact Hrun|]. split; [exact Hwf'|]. split; [exact Hels|].
  split; [exact Helsr | exact Hrest].
Defined.

Lemma move_assign_leaves_the_old_buffer_allocated_witness :
  SimpleVector.data_ vec_12 = {| ArrayPtr.raw_ptr_ := Ptr 1%positive 0 |}
  /\ heap_12_123 !! 1%positive = Some [1; 2]
  /\ wf heap_12_123 vec_123'
  /\ block_of (SimpleVector.data_ vec_123') <> Some 1%positive
  /\ exists h',
       (SimpleVector.dtor (this_of (SimpleVector.move_assign (Distinct vec_12 vec_123'))) ;;
        SimpleVector.dtor (other_of (SimpleVector.move_assign (Distinct vec_12 vec_123'))))
         heap_12_123
       = Ok tt h'
       /\ h' !! 1%positive = Some [1; 2].
Proof.
  assert (Hdata : SimpleVector.data_ vec_12 = {| ArrayPtr.raw_ptr_ := Ptr 1%positive 0 |})
    by reflexivity.
  assert (Hb : heap_12_123 !! 1%positive = Some [1; 2]) by (vm_compute; reflexivity).
  assert (Hr : wf heap_12_123 vec_123') by compute_wf.
  assert (Hsep : block_of (SimpleVector.data_ vec_123') <> Some 1%positive)
    by (vm_compute; discriminate).
  split; [exact Hdata|]. split; [exact Hb|]. split; [exact Hr|]. split; [exact Hsep|].
  exact (proj2 (proj2 (move_assign_leaves_the_old_buffer_allocated heap_12_123 vec_12
                         vec_123' 1%positive [1; 2] Hdata Hb Hr Hsep))).
Defined.

Lemma of_list_builds_the_list_witness :
  Z.of_nat (length [1; 2; 3]) <= max_len
  /\ exists v h',
       SimpleVector.of_list [1; 2; 3] heap_1 = Ok v h'
       /\ wf h' v
       /\ SimpleVector.GetSize v = 3
       /\ SimpleVector.GetCapacity v = 3
       /\ elements h' v = [1; 2; 3]
       /\ rest h' (SimpleVector.data_ v) = heap_1.
Proof.
  assert (Hfit : Z.of_nat (length [1; 2; 3]) <= max_len) by (vm_compute; discriminate).
  split; [exact Hfit|].
  exact (of_list_builds_the_list heap_1 [1; 2; 3] Hfit).
Defined.

Lemma of_size_value_builds_copies_witness :
  0 <= 2 <= max_len
  /\ (exists v h',
        SimpleVector.of_size_value 2 7 heap_1 = Ok v h'
        /\ wf h' v
        /\ elements h' v = [7; 7]
        /\ rest h' (SimpleVector.data_ v) = heap_1)
  /\ (exists v h',
        SimpleVector.of_size 2 heap_1 = Ok v h'
        /\ wf h' v
        /\ elements h' v = [0; 0]).
Proof.
  assert (Hsize : 0 <= 2 <= max_len) by (vm_compute; split; discriminate).
  split; [exact Hsize|].
  destruct (of_size_value_builds_copies heap_1 2 7 Hsize)
    as ((v & h' & Hrun & Hwf & _ & _ & Hels & Hrest)
        & (v0 & h0 & Hrun0 & Hwf0 & _ & _ & Hels0 & _)).
  split.
  - exists v, h'. split; [exact Hrun|]. split; [exact Hwf|]. split; [exact Hels | exact Hrest].
  - exists v0, h0. split; [exact Hrun0|]. split; [exact Hwf0 | exact Hels0].
Defined.

Lemma ArrayPtr_owns_until_released_witness :
  0 <= 2 <= max_len
  /\ exists a h',
       ArrayPtr.of_size 2 heap_1 = Ok a h'
       /\ ArrayPtr.to_bool a = true
       /\ extent h' a = Some 2
       /\ buffer h' a = [-1; -1]
       /\ ArrayPtr.dtor a h' = Ok tt heap_1.
Proof.
  assert (Hsize : 0 <= 2 <= max_len) by (vm_compute; split; discriminate).
  split; [exact Hsize|].
  destruct (ArrayPtr_owns_until_released heap_1 2 Hsize)
    as (a & h' & Hrun & Hbool & Hext & Hbuf & Hdel & _).
  exists a, h'. split; [exact Hrun|]. split; [exact Hbool|]. split; [exact Hext|].
  split; [exact Hbuf | exact Hdel].
Defined.

Lemma iteration_visits_the_elements_witness :
  wf heap_123 vec_123
  /\ (exists last,
        SimpleVector.end_ vec_123 heap_123 = Ok last heap_123
        /\ ptr_diff last (SimpleVector.begin_ vec_123) heap_123 = Ok 3 heap_123)
  /\ SimpleVector.GetSize vec_123 = 3
  /\ exists p x,
       ptr_add (SimpleVector.begin_ vec_123) 2 heap_123 = Ok p heap_123
       /\ load p heap_123 = Ok x heap_123
       /\ elements heap_123 vec_123 !! 2%nat = Some x.
Proof.
  assert (Hwf : wf heap_123 vec_123) by compute_wf.
  split; [exact Hwf|].
  destruct (iteration_visits_the_elements heap_123 vec_123 Hwf)
    as ((last & Hlast & _ & Hdiff) & Hsize & _ & Hread).
  split; [exists last; split; [exact Hlast | exact Hdiff]|]. split; [exact Hsize|].
  destruct (Hread 2%nat) as (p & x & Hp & _ & Hload & Hx); [vm_compute; lia|].
  exists p, x. split; [exact Hp|]. split; [exact Hload | exact Hx].
Defined.

End Runs.

(** ** Runs in which the allocator refuses *)

Section Refused.
#[local] Existing Instances Z_Element Small_Allocator.

Lemma refused_growth_changes_nothing_witness :
  wf heap_123 vec_123
  /\ 0 <= 1 <= SimpleVector.size_ vec_123
  /\ SimpleVector.size_ vec_123 = SimpleVector.capacity_ vec_123
  /\ max_len < grown (SimpleVector.capacity_ vec_123)
  /\ SimpleVector.PushBack (Cell (Ptr 1%positive 0)) vec_123 heap_123
     = Throw bad_alloc heap_123
  /\ exists pos,
       ptr_add (SimpleVector.begin_ vec_123) 1 heap_123 = Ok pos heap_123
       /\ SimpleVector.Insert pos (Cell (Ptr 1%positive 0)) vec_123 heap_123
          = Throw bad_alloc heap_123.
Proof.
  assert (Hwf : wf heap_123 vec_123)
    by (vm_compute; repeat split; (reflexivity || discriminate)).
  assert (Hp : 0 <= 1 <= SimpleVector.size_ vec_123) by (vm_compute; split; discriminate).
  assert (Hfull : SimpleVector.size_ vec_123 = SimpleVector.capacity_ vec_123)
    by reflexivity.
  assert (Hrefused : max_len < grown (SimpleVector.capacity_ vec_123)) by reflexivity.
  split; [exact Hwf|]. split; [exact Hp|]. split; [exact Hfull|]. split; [exact Hrefused|].
  exact (refused_growth_changes_nothing false heap_123 vec_123 1 (Cell (Ptr 1%positive 0))
           Hwf Hp Hfull Hrefused).
Defined.

Lemma constructors_throw_when_refused_witness :
  max_len < 5
  /\ 0 < 5
  /\ Z.of_nat (length [1; 2; 3; 4; 5]) = 5
  /\ SimpleVector.of_size_value 5 7 heap_1 = Throw bad_alloc heap_1
  /\ SimpleVector.of_size 5 heap_1 = Throw bad_alloc heap_1
  /\ SimpleVector.of_list [1; 2; 3; 4; 5] heap_1 = Throw bad_alloc heap_1.
Proof.
  assert (Hbig : max_len < 5) by reflexivity.
  assert (Hpos : 0 < 5) by reflexivity.
  assert (Hlen : Z.of_nat (length [1; 2; 3; 4; 5]) = 5) by reflexivity.
  split; [exact Hbig|]. split; [exact Hpos|]. split; [exact Hlen|].
  destruct (constructors_throw_when_refused heap_1 5 7 Hbig Hpos) as (Hv & Hs & Hl).
  split; [exact Hv|]. split; [exact Hs|]. exact (Hl [1; 2; 3; 4; 5] Hlen).
Defined.

End Refused.
